(** * Condition variables with wait morphing: core/condvar.cc

    A shallow embedding of [condvar_wait], [condvar_wake_one] and
    [condvar_wake_all] over an explicit store of wait records, followed by
    the properties of the waiter FIFO, of the wake-up handoff and of the
    timeout path.

    The code runs in a monad of state, trace and failure.  The state is the
    condvar and the memory of the wait records, which live on the stacks of
    the waiting threads and are linked through their [next] fields.  The
    trace lists the calls into the mutexes, the scheduler and the wait
    records.  A thread that blocks, or that may be descheduled, hands the
    state to the other threads, which are a parameter [env] of the code; the
    sections under [condvar->m] run without such an interruption.  The loops
    over the linked list take fuel, and the callers give them more fuel than
    the memory has records.

    After the properties of the FIFO and of the waiter come the order in
    which condvar_wake_all hands off, the effect of the signallers on the
    records and on the remembered mutex, the discipline of the internal
    mutex, what the critical sections write, and the fate of a record that a
    timed-out waiter does not find. *)

From stdpp Require Import base gmap list.
From Stdlib Require Import ZArith Lia.

(** ** Data model *)

(** Addresses of wait records, threads, CPUs and user mutexes are natural
    numbers.  A C++ pointer is an [option]: [None] is [nullptr]. *)
Abbreviation addr := nat.
Abbreviation thread := nat.
Abbreviation cpu := nat.
Abbreviation mutex_addr := nat.

(** Modelled from the spec: the wait record, declared in the header
    <osv/wait_record.hh> and not in core/condvar.cc (spec, "Wait record": the
    identity of the waiting thread, a next link and a woken flag). *)
Record wait_record := WaitRecord {
  wr_thread : thread;
  next : option addr;
  is_woken : bool
}.

(** The condvar ([waiters_fifo.oldest], [waiters_fifo.newest], [user_mutex])
    together with the memory holding the wait records of all waiters.  Two
    further components belong to the model, not to the C++ object: the
    logical time [now], which advances at every observation of the outside
    world, and [pending], the records that a signaller has unlinked and whose
    wake-up has not landed yet (the state DETACHED-PENDING-WAKE of the spec).
    The code below never reads or writes [pending]. *)
Record state := State {
  oldest : option addr;
  newest : option addr;
  user_mutex : option mutex_addr;
  mem : gmap nat wait_record;
  now : nat;
  pending : gset nat
}.

Definition with_oldest (p : option addr) (s : state) : state :=
  State p (newest s) (user_mutex s) (mem s) (now s) (pending s).
Definition with_newest (p : option addr) (s : state) : state :=
  State (oldest s) p (user_mutex s) (mem s) (now s) (pending s).
Definition with_user_mutex (p : option mutex_addr) (s : state) : state :=
  State (oldest s) (newest s) p (mem s) (now s) (pending s).
Definition with_mem (h : gmap nat wait_record) (s : state) : state :=
  State (oldest s) (newest s) (user_mutex s) h (now s) (pending s).
Definition with_now (n : nat) (s : state) : state :=
  State (oldest s) (newest s) (user_mutex s) (mem s) n (pending s).
Definition with_pending (q : gset nat) (s : state) : state :=
  State (oldest s) (newest s) (user_mutex s) (mem s) (now s) q.

(** The calls the code makes into the mutex, the scheduler and the wait
    record, in program order. *)
Inductive mutex_ref :=
| cv_m                                  (* &condvar->m *)
| user_m (m : option mutex_addr).       (* the mutex_t* of the caller *)

Inductive event :=
| Ev_mutex_lock (m : mutex_ref)
| Ev_mutex_unlock (m : mutex_ref)
| Ev_preempt_disable
| Ev_preempt_enable
| Ev_timer_set (t : thread) (expiration : Z)
| Ev_wait (wr : addr) (tmr : option Z)
| Ev_wake (wr : addr)
| Ev_send_lock (m : mutex_addr) (wr : addr)
| Ev_receive_lock (m : mutex_addr).

(** ** The monad of the embedding: state, trace and failure *)

Inductive result (A : Type) : Type :=
| Done (a : A)     (* the call returns *)
| Abort            (* an assert() failed *)
| Fault            (* a null or dangling pointer was dereferenced *)
| Blocked          (* the thread sleeps and is not woken again *)
| Diverges.        (* a list traversal ran into a cycle *)
Arguments Done {A} a.
Arguments Abort {A}.
Arguments Fault {A}.
Arguments Blocked {A}.
Arguments Diverges {A}.

Definition M (A : Type) : Type := state -> result (A * state * list event).

Definition prepend {A} (t : list event) (r : result (A * state * list event))
  : result (A * state * list event) :=
  match r with
  | Done (a, s, t') => Done (a, s, t ++ t')
  | Abort => Abort
  | Fault => Fault
  | Blocked => Blocked
  | Diverges => Diverges
  end.

Definition ret {A} (a : A) : M A := fun s => Done (a, s, []).

(** The continuation [k] runs on the outcome of a first computation. *)
Definition and_then {A B} (r : result (A * state * list event)) (k : A -> M B)
  : result (B * state * list event) :=
  match r with
  | Done (a, s1, t1) => prepend t1 (k a s1)
  | Abort => Abort
  | Fault => Fault
  | Blocked => Blocked
  | Diverges => Diverges
  end.

Definition bind {A B} (c : M A) (k : A -> M B) : M B := fun s => and_then (c s) k.

#[global] Instance M_ret : MRet M := @ret.
#[global] Instance M_bind : MBind M := fun A B k c => bind c k.

Definition skip : M unit := ret tt.
Definition emit (e : event) : M unit := fun s => Done (tt, s, [e]).
Definition fault {A} : M A := fun _ => Fault.
Definition diverge {A} : M A := fun _ => Diverges.
Definition blocked {A} : M A := fun _ => Blocked.
Definition modify (f : state -> state) : M unit := fun s => Done (tt, f s, []).
Definition gets {A} (f : state -> A) : M A := fun s => Done (f s, s, []).

(** ** Primitive operations *)

(** [assert(b)] *)
Definition assert (b : bool) : M unit :=
  if b then skip else fun _ => Abort.

(** The pointer [p] is dereferenced: [p->...]. *)
Definition load (p : option addr) : M wait_record := fun s =>
  match p with
  | None => Fault
  | Some a =>
      match mem s !! a with
      | Some r => Done (r, s, [])
      | None => Fault
      end
  end.

(** [p->next] *)
Definition get_next (p : option addr) : M (option addr) :=
  r ← load p; mret (next r).

(** [p->next = n] *)
Definition set_next (p n : option addr) : M unit :=
  r ← load p;
  match p with
  | Some a =>
      modify (fun s => with_mem (<[a := WaitRecord (wr_thread r) n (is_woken r)]> (mem s)) s)
  | None => fault
  end.

(** [p->thread()] *)
Definition get_thread (p : option addr) : M thread :=
  r ← load p; mret (wr_thread r).

Definition mutex_unlock (m : mutex_ref) : M unit := emit (Ev_mutex_unlock m).
Definition preempt_disable : M unit := emit Ev_preempt_disable.
Definition preempt_enable : M unit := emit Ev_preempt_enable.

(** Modelled from the spec: the constructor of the wait record, declared in
    <osv/wait_record.hh> ("allocate a wait record on the caller's stack,
    bound to the caller thread"): the record at the address [wr] of the
    caller's frame starts unlinked and not woken. *)
Definition new_wait_record (wr : addr) (t : thread) : M unit :=
  modify (fun s => with_mem (<[wr := WaitRecord t None false]> (mem s)) s).

(** Modelled from the spec: [wake()] of the wait record, declared in
    <osv/wait_record.hh>, "sets woken true and schedules the recorded
    thread". *)
Definition wake (p : option addr) : M unit :=
  r ← load p;
  match p with
  | Some a =>
      modify (fun s => with_mem (<[a := WaitRecord (wr_thread r) (next r) true]> (mem s)) s) ;;
      emit (Ev_wake a)
  | None => fault
  end.

(** [m->send_lock(wr)]: the user mutex is asked to transfer its ownership to
    the thread of [wr]; the mutex flags the record woken when the transfer
    lands, which is a later step of the mutex ([step_land] below). *)
Definition send_lock (m : option mutex_addr) (wr : option addr) : M unit :=
  match m, wr with
  | Some ma, Some a => emit (Ev_send_lock ma a)
  | _, _ => fault
  end.

(** [m->receive_lock()] *)
Definition receive_lock (m : option mutex_addr) : M unit :=
  match m with
  | Some ma => emit (Ev_receive_lock ma)
  | None => fault
  end.

(** The traversals of the code follow [next] links; on a store with [n]
    records a walk of more than [n] links has entered a cycle. *)
Definition loop_bound : M nat := gets (fun s => S (size (mem s))).

(** ** The code *)

Section Code.

(** The compile-time switch [WAIT_MORPHING] of <osv/condvar.h>. *)
Variable WAIT_MORPHING : bool.

(** The scheduler: [cpu_at n t] is the CPU that thread [t] is assigned to at
    logical time [n]; threads may migrate between two observations. *)
Variable cpu_at : nat -> thread -> cpu.

(** The other threads: [env n s] is the shared state that the running
    thread finds when it resumes at time [n], after having left [s]. *)
Variable env : nat -> state -> state.

(** <errno.h> *)
Definition ETIMEDOUT : Z := 110.

(** The running thread may be descheduled, or sleeps; the other threads run
    and the thread resumes one tick later. *)
Definition resume (s : state) : state := with_now (S (now s)) (env (now s) s).

Definition yield : M unit := modify resume.

(** [r->thread()->tcpu()] for a thread [t] *)
Definition tcpu (t : thread) : M cpu := fun s =>
  Done (cpu_at (now s) t, with_now (S (now s)) s, []).

(** [mutex_lock(m)] may have to wait for the holder of [m]. *)
Definition mutex_lock (m : mutex_ref) : M unit :=
  yield ;; emit (Ev_mutex_lock m).

(** Modelled from the spec: [wr.woken()] of the wait record "reads the
    flag"; the code reads it without any lock held. *)
Definition woken (wr : addr) : M bool :=
  yield ;; r ← load (Some wr); mret (is_woken r).

(** Modelled from the spec: [wr.wait(tmr)] of the wait record, declared in
    <osv/wait_record.hh>, "blocks the current thread until woken is true or
    the timer fires; if the timer is absent, no timeout".  [Some e] is a
    timer armed for the time [e]; when the thread runs again and its record
    is not woken, the timer has fired, and without a timer the thread would
    not run again. *)
Definition wait (wr : addr) (tmr : option Z) : M unit :=
  emit (Ev_wait wr tmr) ;;
  yield ;;
  r ← load (Some wr);
  if is_woken r || bool_decide (is_Some tmr) then skip else blocked.

(** *** condvar_wait: lines 36-41, under [condvar->m] *)
Definition wait_link (wr : addr) : M unit :=
  o ← gets oldest;
  (if bool_decide (o = None) then
     modify (with_oldest (Some wr))
   else
     n ← gets newest; set_next n (Some wr)) ;;
  modify (with_newest (Some wr)).

(** *** condvar_wait: lines 42-47, under [condvar->m] *)
Definition wait_remember (um : option mutex_addr) : M unit :=
  if WAIT_MORPHING then
    cum ← gets user_mutex;
    assert (bool_decide (cum = None) || bool_decide (cum = um)) ;;
    modify (with_user_mutex um)
  else skip.

Definition wait_enqueue (wr : addr) (um : option mutex_addr) : M unit :=
  wait_link wr ;; wait_remember um.

(** *** condvar_wait: the loop of lines 68-77; the result is the final [p] *)
Fixpoint unlink_loop (fuel : nat) (wr : addr) (p : option addr) : M (option addr) :=
  match p with
  | None => mret None
  | Some _ =>
      match fuel with
      | O => diverge
      | S fuel' =>
          pn ← get_next p;
          if bool_decide (Some wr = pn) then
            pnn ← get_next pn;
            set_next p pnn ;;
            pn' ← get_next p;
            (if bool_decide (pn' = None) then modify (with_newest p) else skip) ;;
            mret p
          else
            unlink_loop fuel' wr pn
      end
  end.

(** *** condvar_wait: lines 61-81, under [condvar->m]; the result is [ret] *)
Definition wait_unlink (wr : addr) : M Z :=
  o ← gets oldest;
  if bool_decide (Some wr = o) then
    r ← load (Some wr);
    modify (with_oldest (next r)) ;;
    (if bool_decide (next r = None) then modify (with_newest None) else skip) ;;
    mret ETIMEDOUT
  else
    fuel ← loop_bound;
    p ← unlink_loop fuel wr o;
    if bool_decide (p = None) then mret 0%Z else mret ETIMEDOUT.

(** *** condvar_wait: lines 58-89, the body of [if (!wr.woken())] *)
Definition wait_timeout (wr : addr) : M Z :=
  mutex_lock cv_m ;;
  ret ← wait_unlink wr;
  mutex_unlock cv_m ;;
  (if bool_decide (ret = 0%Z) then wait wr None else skip) ;;
  mret ret.

(** *** condvar_wait: lines 92-100 *)
Definition wait_reacquire (wr : addr) (um : option mutex_addr) : M unit :=
  if WAIT_MORPHING then
    w ← woken wr;
    if (w : bool) then receive_lock um else mutex_lock (user_m um)
  else mutex_lock (user_m um).

(** *** condvar_wait: lines 33-53, by thread [current] with its wait record
    at address [wr] *)
Definition wait_begin (current : thread) (wr : addr) (um : option mutex_addr) : M unit :=
  new_wait_record wr current ;;
  mutex_lock cv_m ;;
  wait_enqueue wr um ;;
  preempt_disable ;;
  mutex_unlock (user_m um) ;;
  mutex_unlock cv_m ;;
  preempt_enable.

(** *** condvar_wait(condvar, user_mutex, tmr) *)
Definition condvar_wait (current : thread) (wr : addr)
    (um : option mutex_addr) (tmr : option Z) : M Z :=
  wait_begin current wr um ;;
  wait wr tmr ;;
  w ← woken wr;
  ret ← (if negb (w : bool) then wait_timeout wr else mret 0%Z);
  wait_reacquire wr um ;;
  mret ret.

(** *** condvar_wait(condvar, user_mutex, expiration), lines 18-27 *)
Definition condvar_wait_expiration (current : thread) (wr : addr)
    (um : option mutex_addr) (expiration : Z) : M Z :=
  if bool_decide (expiration ≠ 0%Z) then
    emit (Ev_timer_set current expiration) ;;
    condvar_wait current wr um (Some expiration)
  else
    condvar_wait current wr um None.

(** *** condvar_wake_one: lines 116-135, under [condvar->m] *)
Definition wake_one_locked : M unit :=
  wr ← gets oldest;
  if bool_decide (wr ≠ None) then
    nx ← get_next wr;
    modify (with_oldest nx) ;;
    nx' ← get_next wr;
    (if bool_decide (nx' = None) then modify (with_newest None) else skip) ;;
    if WAIT_MORPHING then
      um ← gets user_mutex;
      send_lock um wr ;;
      o ← gets oldest;
      if bool_decide (o = None) then modify (with_user_mutex None) else skip
    else
      wake wr
  else skip.

(** *** condvar_wake_one *)
Definition condvar_wake_one : M unit :=
  o ← gets oldest;
  if bool_decide (o = None) then skip
  else
    mutex_lock cv_m ;;
    wake_one_locked ;;
    mutex_unlock cv_m.

(** *** condvar_wake_all: lines 147-154, under [condvar->m]; the result is
    the local [wr] and, with wait morphing, the local [user_mutex] *)
Definition wake_all_detach : M (option addr * option mutex_addr) :=
  wr ← gets oldest;
  um ← (if WAIT_MORPHING then
          u ← gets user_mutex; modify (with_user_mutex None) ;; mret u
        else mret None);
  modify (with_newest None) ;;
  modify (with_oldest None) ;;
  mret (wr, um).

(** *** condvar_wake_all: the CPU-affinity loop of lines 164-178; the
    result is the final [next_wr] *)
Fixpoint wake_all_group (fuel : nat) (um : option mutex_addr) (cpu_wr : cpu)
    (next_wr prevr r : option addr) : M (option addr) :=
  match r with
  | None => mret next_wr
  | Some _ =>
      match fuel with
      | O => diverge
      | S fuel' =>
          nextr ← get_next r;
          t ← get_thread r;
          c ← tcpu t;
          if bool_decide (c = cpu_wr) then
            send_lock um r ;;
            if bool_decide (r = next_wr) then
              wake_all_group fuel' um cpu_wr nextr prevr nextr
            else
              set_next prevr nextr ;;
              wake_all_group fuel' um cpu_wr next_wr prevr nextr
          else
            wake_all_group fuel' um cpu_wr next_wr r nextr
      end
  end.

(** *** condvar_wake_all: the walk of lines 156-183 *)
Fixpoint wake_all_walk (fuel : nat) (um : option mutex_addr) (wr : option addr) : M unit :=
  match wr with
  | None => skip
  | Some _ =>
      match fuel with
      | O => diverge
      | S fuel' =>
          next_wr ← get_next wr;
          if WAIT_MORPHING then
            t ← get_thread wr;
            cpu_wr ← tcpu t;
            send_lock um wr ;;
            next_wr' ← wake_all_group fuel' um cpu_wr next_wr None next_wr;
            wake_all_walk fuel' um next_wr'
          else
            wake wr ;;
            wake_all_walk fuel' um next_wr
      end
  end.

(** *** condvar_wake_all *)
Definition condvar_wake_all : M unit :=
  o ← gets oldest;
  if bool_decide (o = None) then skip
  else
    mutex_lock cv_m ;;
    '(wr, um) ← wake_all_detach;
    mutex_unlock cv_m ;;
    fuel ← loop_bound;
    wake_all_walk fuel um wr.

End Code.

Arguments resume : simpl never.
(** ** Specification *)

(** *** The waiter FIFO as a list *)

(** [lseg h p q l]: following [next] links in [h] from [p] visits exactly
    the records [l], in this order, and arrives at [q]. *)
Fixpoint lseg (h : gmap nat wait_record) (p q : option addr) (l : list addr) : Prop :=
  match l with
  | [] => p = q
  | a :: l' => p = Some a ∧ ∃ r, h !! a = Some r ∧ lseg h (next r) q l'
  end.

(** A list that ends at [nullptr]. *)
Definition chain (h : gmap nat wait_record) (p : option addr) (l : list addr) : Prop :=
  lseg h p None l.

(** The FIFO of the condvar holds the records [l], oldest first. *)
Definition fifo_rep (s : state) (l : list addr) : Prop :=
  chain (mem s) (oldest s) l ∧ newest s = last l.

(** The traversal as a function, for concrete stores. *)
Fixpoint fifo_list (fuel : nat) (h : gmap nat wait_record) (p : option addr)
  : option (list addr) :=
  match p with
  | None => Some []
  | Some a =>
      match fuel with
      | O => None
      | S fuel' =>
          match h !! a with
          | Some r => l ← fifo_list fuel' h (next r); Some (a :: l)
          | None => None
          end
      end
  end.

(** The handoff of a record by a signaller: [send_lock] with wait morphing,
    [wake()] without. *)
Definition handoff (morph : bool) (m : mutex_addr) (x : addr) : event :=
  if morph then Ev_send_lock m x else Ev_wake x.

(** The state after the record [wr] has been spliced out behind [z]. *)
Definition unlinked_after (z : addr) (rz rw : wait_record) (s : state) : state :=
  let s1 := with_mem (<[z := WaitRecord (wr_thread rz) (next rw) (is_woken rz)]> (mem s)) s in
  if bool_decide (next rw = None) then with_newest (Some z) s1 else s1.

(** The FIFO is well formed: head and tail are null together, and the
    traversal from the head visits finitely many records, none of them
    twice, ends at [nullptr], and the record visited last is the tail. *)
Definition well_formed (s : state) : Prop :=
  (oldest s = None ↔ newest s = None) ∧
  ∃ l, chain (mem s) (oldest s) l ∧ newest s = last l ∧ NoDup l.

(** With wait morphing: a non-empty FIFO has a remembered user mutex. *)
Definition mutex_known (s : state) : Prop :=
  oldest s ≠ None → user_mutex s ≠ None.

(** The state in which a waiter holds [condvar->m] in [wait_begin]. *)
Definition at_lock (env : nat → state → state) (current : thread) (wr : addr)
    (s : state) : state :=
  resume env (with_mem (<[wr := WaitRecord current None false]> (mem s)) s).

(** No other thread runs. *)
Definition idle : nat → state → state := λ _ s, s.

Arguments at_lock : simpl never.

(** The calls of [wait_begin], lines 35-53. *)
Definition begin_trace (um : option mutex_addr) : list event :=
  [Ev_mutex_lock cv_m; Ev_preempt_disable; Ev_mutex_unlock (user_m um);
   Ev_mutex_unlock cv_m; Ev_preempt_enable].

(** The call returns, or the thread sleeps without end: no assertion fails,
    no pointer is misused and no traversal runs into a cycle. *)
Definition quiet {A} (r : result (A * state * list event)) : Prop :=
  match r with
  | Done _ | Blocked => True
  | Abort | Fault | Diverges => False
  end.

(** *** The protocol between the waiters and the signallers *)

(** The records handed to [send_lock] in a trace. *)
Definition sent (t : list event) : gset nat :=
  list_to_set (omap (λ e, match e with Ev_send_lock _ a => Some a | _ => None end) t).

(** One step of another thread, as seen by the waiter whose record is at
    [me]: the critical sections of the code run atomically ([step_enqueue],
    [step_unlink], [step_wake_one], [step_detach]); the stack of a thread
    that is not waiting holds anything ([step_reuse]); a signaller that has
    detached records owns them, and relinks them in the walk of
    condvar_wake_all ([step_splice]), until their wake-up lands
    ([step_land]), by [wake()] or by the user mutex after [send_lock]. *)
Inductive step (morph : bool) (me : addr) : state → state → Prop :=
| step_enqueue s s' wr t um l :
    wr ≠ me → fifo_rep s l → wr ∉ l → wr ∉ pending s →
    (new_wait_record wr t ≫= λ _, wait_enqueue morph wr um) s = Done (tt, s', []) →
    step morph me s s'
| step_unlink s s' wr ret :
    wr ≠ me → wait_unlink wr s = Done (ret, s', []) →
    step morph me s s'
| step_reuse s a r l :
    a ≠ me → fifo_rep s l → a ∉ l → a ∉ pending s →
    step morph me s (with_mem (<[a := r]> (mem s)) s)
| step_wake_one s s' tr :
    wake_one_locked morph s = Done (tt, s', tr) →
    step morph me s (with_pending (pending s' ∪ sent tr) s')
| step_detach s s' l r :
    fifo_rep s l → wake_all_detach morph s = Done (r, s', []) →
    step morph me s (with_pending (pending s' ∪ list_to_set l) s')
| step_splice s a r n :
    a ∈ pending s → mem s !! a = Some r →
    step morph me s
      (with_mem (<[a := WaitRecord (wr_thread r) n (is_woken r)]> (mem s)) s)
| step_land s a r :
    a ∈ pending s → mem s !! a = Some r →
    step morph me s
      (with_pending (pending s ∖ {[a]})
         (with_mem (<[a := WaitRecord (wr_thread r) (next r) true]> (mem s)) s)).

(** The other threads only ever take such steps. *)
Definition rely (morph : bool) (me : addr) (env : nat → state → state) : Prop :=
  ∀ n s, rtc (step morph me) s (env n s).

(** The records of the FIFO are neither woken nor awaiting a wake-up. *)
Definition inv (s : state) : Prop :=
  ∃ l, fifo_rep s l ∧
       ∀ a, a ∈ l → (a ∉ pending s) ∧ (is_woken <$> mem s !! a) = Some false.

(** The record at [a] is flagged woken. *)
Definition awake (a : addr) (s : state) : Prop :=
  (is_woken <$> mem s !! a) = Some true.

(** The record [r] at [a] is out of the reach of every signaller. *)
Definition parked (a : addr) (r : wait_record) (s : state) : Prop :=
  (∀ l, fifo_rep s l → a ∉ l) ∧ (a ∉ pending s) ∧ mem s !! a = Some r.

(** The calls of the timeout path, lines 60 and 82. *)
Definition timeout_trace : list event := [Ev_mutex_lock cv_m; Ev_mutex_unlock cv_m].

(** The reacquisitions of the user mutex in a trace. *)
Inductive reacquisition :=
| by_receive_lock (m : mutex_addr)
| by_mutex_lock (um : option mutex_addr).

Definition reacquisitions (t : list event) : list reacquisition :=
  omap (λ e, match e with
             | Ev_receive_lock m => Some (by_receive_lock m)
             | Ev_mutex_lock (user_m um) => Some (by_mutex_lock um)
             | _ => None
             end) t.

(** Modelled from the spec: the contract of the user mutex, whose
    implementation lies outside core/condvar.cc.  A thread holds the mutex when its [mutex_lock]
    has returned, and [send_lock] "transfers ownership ... to the thread
    named by w ...; when the transfer lands, the recipient's wait record is
    flagged woken", after which [receive_lock] only does the bookkeeping.  So
    the waiter with record [wr] holds the user mutex [um] at the end of the
    trace [t], in the state [s], when its last call is [mutex_lock(um)], or
    is [um->receive_lock()] while its record is flagged woken. *)
Definition holds_user_mutex (um : option mutex_addr) (wr : addr)
    (s : state) (t : list event) : Prop :=
  last t = Some (Ev_mutex_lock (user_m um))
  ∨ ∃ m, um = Some m ∧ last t = Some (Ev_receive_lock m) ∧ awake wr s.

(** *** The order of the handoffs of condvar_wake_all *)

(** The thread of the record at [a]. *)
Definition thread_of (h : gmap nat wait_record) (a : addr) : thread :=
  default 0 (wr_thread <$> h !! a).

(** The CPU-affinity loop on lists: started at the time [n] on the records
    [todo], with [cpu_of n x] the CPU of the thread of [x] at the time [n],
    it sends the lock to the first component and keeps the second. *)
Fixpoint group_split (cpu_of : nat → addr → cpu) (cpu_wr : cpu) (n : nat)
    (todo : list addr) : list addr * list addr :=
  match todo with
  | [] => ([], [])
  | x :: todo' =>
      let sk := group_split cpu_of cpu_wr (S n) todo' in
      if bool_decide (cpu_of n x = cpu_wr) then (x :: sk.1, sk.2) else (sk.1, x :: sk.2)
  end.

(** The order of the handoffs of the walk of condvar_wake_all, started at
    the time [n] on the list [l]. *)
Fixpoint walk_order (fuel : nat) (cpu_of : nat → addr → cpu) (n : nat)
    (l : list addr) : list addr :=
  match fuel, l with
  | S fuel', a :: l' =>
      let sk := group_split cpu_of (cpu_of n a) (S n) l' in
      a :: sk.1 ++ walk_order fuel' cpu_of (S n + length l') sk.2
  | _, _ => []
  end.

(** The same order when no thread migrates: the oldest record, the later
    records of its CPU in their order, and then the others in the same
    way. *)
Fixpoint affinity_order (fuel : nat) (cpu_of : addr → cpu) (l : list addr) : list addr :=
  match fuel, l with
  | S fuel', a :: l' =>
      a :: filter (λ b, cpu_of b = cpu_of a) l'
        ++ affinity_order fuel' cpu_of (filter (λ b, cpu_of b ≠ cpu_of a) l')
  | _, _ => []
  end.

(** The records keep their threads: [thr] names the thread of every record
    of the store. *)
Definition threads_are (thr : addr → thread) (s : state) : Prop :=
  ∀ a ra, mem s !! a = Some ra → wr_thread ra = thr a.

(** *** The records under the operations *)

(** The record [r] after [wake()]. *)
Definition flagged (r : wait_record) : wait_record :=
  WaitRecord (wr_thread r) (next r) true.

(** The stores [h] and [h'] hold the same records up to their [next]
    links: at every address the thread and the woken flag agree, and a
    record is present in both or in none. *)
Definition same_waiters (h h' : gmap nat wait_record) : Prop :=
  ∀ a, wr_thread <$> h' !! a = wr_thread <$> h !! a
       ∧ is_woken <$> h' !! a = is_woken <$> h !! a.

(** Every run of [c] that returns has written [next] links only. *)
Definition links_only {A} (c : M A) : Prop :=
  ∀ s a s' t, c s = Done (a, s', t) → same_waiters (mem s) (mem s').

(** The record at [a] is accounted for: it is in the FIFO, or a signaller
    has unlinked it and its wake-up is on the way, or it is flagged woken. *)
Definition tracked (a : addr) (s : state) : Prop :=
  (∃ l, fifo_rep s l ∧ a ∈ l) ∨ a ∈ pending s ∨ awake a s.

(** *** Signals in sequence *)

(** [k] calls of [c], one after the other. *)
Fixpoint calls (k : nat) (c : M unit) : M unit :=
  match k with
  | O => skip
  | S k' => c ;; calls k' c
  end.

(** The calls of one condvar_wake_one that finds the record [x]. *)
Definition wake_one_trace (morph : bool) (m : mutex_addr) (x : addr) : list event :=
  [Ev_mutex_lock cv_m; handoff morph m x; Ev_mutex_unlock cv_m].

(** *** The discipline of the internal mutex *)

(** The internal mutex and the preemption along a trace.  The first
    component of the state says that condvar->m is held, the second that
    preemption is disabled.  The result is [None] when the trace locks the
    internal mutex while it holds it, unlocks it while it does not, releases
    the user mutex outside the critical section, or makes a call that may
    sleep (wait, the lock of a mutex, receive_lock) while it holds the
    internal mutex or has preemption disabled. *)
Fixpoint cv_track (h : bool * bool) (t : list event) : option (bool * bool) :=
  match t with
  | [] => Some h
  | e :: t' =>
      match e with
      | Ev_mutex_lock cv_m =>
          if h.1 || h.2 then None else cv_track (true, h.2) t'
      | Ev_mutex_unlock cv_m =>
          if h.1 then cv_track (false, h.2) t' else None
      | Ev_mutex_unlock (user_m _) =>
          if h.1 then cv_track h t' else None
      | Ev_preempt_disable =>
          if h.2 then None else cv_track (h.1, true) t'
      | Ev_preempt_enable =>
          if h.2 then cv_track (h.1, false) t' else None
      | Ev_wait _ _ | Ev_mutex_lock (user_m _) | Ev_receive_lock _ =>
          if h.1 || h.2 then None else cv_track h t'
      | Ev_timer_set _ _ | Ev_wake _ | Ev_send_lock _ _ => cv_track h t'
      end
  end.

(** Every run of [c] that returns takes the tracker from [h] to [h']. *)
Definition tracks {A} (h : bool * bool) (c : M A) (h' : bool * bool) : Prop :=
  ∀ s a s' t, c s = Done (a, s', t) → cv_track h t = Some h'.

(** *** The ways in which a call ends *)

(** The call ends in no null or dangling pointer and in no endless loop,
    and an assertion fails only under [P]. *)
Definition safe_unless {A} (P : Prop) (r : result (A * state * list event)) : Prop :=
  match r with
  | Done _ | Blocked => True
  | Abort => P
  | Fault | Diverges => False
  end.

(** The assertion of line 45 fails for the waiter with the user mutex [um]:
    another user mutex is remembered when the waiter holds condvar->m. *)
Definition mutex_mismatch (morph : bool) (env : nat → state → state)
    (current : thread) (wr : addr) (um : option mutex_addr) (s : state) : Prop :=
  morph = true ∧ ∃ m, user_mutex (at_lock env current wr s) = Some m ∧ um ≠ Some m.

(** *** Example states and environments *)

(** Records at the addresses 1, 2, ... belong to the threads 1, 2, ...; the
    user mutex is at address 7. *)
Definition ex_empty : state := State None None None ∅ 0 ∅.

Definition ex_one : state :=
  State (Some 1) (Some 1) (Some 7) {[1 := WaitRecord 1 None false]} 0 ∅.

(** The condvar after the timeout of its only waiter, on mutex 7: no waiter
    is left and the mutex is still remembered. *)
Definition ex_stale : state :=
  State None None (Some 7) {[1 := WaitRecord 1 None false]} 0 ∅.

Definition ex_five : state :=
  State (Some 1) (Some 5) (Some 7)
    (<[1 := WaitRecord 1 (Some 2) false]>
       (<[2 := WaitRecord 2 (Some 3) false]>
          (<[3 := WaitRecord 3 (Some 4) false]>
             (<[4 := WaitRecord 4 (Some 5) false]>
                {[5 := WaitRecord 5 None false]}))))
    0 ∅.

(** Threads with an odd number run on CPU 1, the others on CPU 0. *)
Definition ex_cpu : nat → thread → cpu := λ _ t, t mod 2.

(** The wake-up of the record at [a] lands. *)
Definition land (a : addr) (s : state) : state :=
  match mem s !! a with
  | Some r =>
      with_pending (pending s ∖ {[a]})
        (with_mem (<[a := WaitRecord (wr_thread r) (next r) true]> (mem s)) s)
  | None => s
  end.

(** A signaller runs the critical section of condvar_wake_one. *)
Definition detach_one (morph : bool) (s : state) : state :=
  match wake_one_locked morph s with
  | Done (_, s1, tr) => with_pending (pending s1 ∪ sent tr) s1
  | _ => s
  end.

(** An environment in which, whenever the waiter is not running, a signaller
    calls condvar_wake_one and the handoff to the dequeued record lands. *)
Definition signal_one (morph : bool) : nat → state → state := λ _ s,
  let s1 := detach_one morph s in
  match oldest s with
  | Some x => if decide (x ∈ pending s1) then land x s1 else s1
  | None => s1
  end.

(** An environment for the lost race of the timeout path: a signaller
    dequeues the record while the waiter is about to take the internal mutex
    (its fourth resumption), and the handoff lands during the second wait. *)
Definition lost_race (morph : bool) (a : addr) : nat → state → state := λ n s,
  if decide (n = 3) then detach_one morph s
  else if decide (n = 4) then (if decide (a ∈ pending s) then land a s else s)
  else s.
(** ** Running the code: the equations of the monad *)

Lemma run_bind {A B} (c : M A) (k : A → M B) s : (c ≫= k) s = and_then (c s) k.
Proof. reflexivity. Qed.

Lemma run_ret {A} (a : A) s : (mret a : M A) s = Done (a, s, []).
Proof. reflexivity. Qed.

Lemma run_skip s : skip s = Done (tt, s, []).
Proof. reflexivity. Qed.

Lemma run_gets {A} (f : state → A) s : gets f s = Done (f s, s, []).
Proof. reflexivity. Qed.

Lemma run_modify f s : modify f s = Done (tt, f s, []).
Proof. reflexivity. Qed.

Lemma run_emit e s : emit e s = Done (tt, s, [e]).
Proof. reflexivity. Qed.

Lemma run_load a r s : mem s !! a = Some r → load (Some a) s = Done (r, s, []).
Proof. intros H. unfold load. by rewrite H. Qed.

Lemma run_load_None a s : mem s !! a = None → load (Some a) s = Fault.
Proof. intros H. unfold load. by rewrite H. Qed.

Lemma run_get_next a r s :
  mem s !! a = Some r → get_next (Some a) s = Done (next r, s, []).
Proof. intros H. unfold get_next. rewrite run_bind, (run_load _ _ _ H). done. Qed.

Lemma run_get_thread a r s :
  mem s !! a = Some r → get_thread (Some a) s = Done (wr_thread r, s, []).
Proof. intros H. unfold get_thread. rewrite run_bind, (run_load _ _ _ H). done. Qed.

Lemma run_set_next a n r s :
  mem s !! a = Some r →
  set_next (Some a) n s
  = Done (tt, with_mem (<[a := WaitRecord (wr_thread r) n (is_woken r)]> (mem s)) s, []).
Proof. intros H. unfold set_next. rewrite run_bind, (run_load _ _ _ H). done. Qed.

Lemma run_wake a r s :
  mem s !! a = Some r →
  wake (Some a) s
  = Done (tt, with_mem (<[a := WaitRecord (wr_thread r) (next r) true]> (mem s)) s,
          [Ev_wake a]).
Proof. intros H. unfold wake. rewrite run_bind, (run_load _ _ _ H). done. Qed.

Lemma run_send_lock m a s :
  send_lock (Some m) (Some a) s = Done (tt, s, [Ev_send_lock m a]).
Proof. reflexivity. Qed.

Lemma run_receive_lock m s : receive_lock (Some m) s = Done (tt, s, [Ev_receive_lock m]).
Proof. reflexivity. Qed.

Lemma run_yield env s : yield env s = Done (tt, resume env s, []).
Proof. reflexivity. Qed.

Lemma run_mutex_lock env m s :
  mutex_lock env m s = Done (tt, resume env s, [Ev_mutex_lock m]).
Proof. reflexivity. Qed.

Lemma run_mutex_unlock m s : mutex_unlock m s = Done (tt, s, [Ev_mutex_unlock m]).
Proof. reflexivity. Qed.

Lemma run_preempt_disable s : preempt_disable s = Done (tt, s, [Ev_preempt_disable]).
Proof. reflexivity. Qed.

Lemma run_preempt_enable s : preempt_enable s = Done (tt, s, [Ev_preempt_enable]).
Proof. reflexivity. Qed.

Lemma run_tcpu cpu_at t s :
  tcpu cpu_at t s = Done (cpu_at (now s) t, with_now (S (now s)) s, []).
Proof. reflexivity. Qed.

Lemma prepend_nil {A} (r : result (A * state * list event)) : prepend [] r = r.
Proof. by destruct r as [[[a s] t]| | | |]. Qed.

Lemma prepend_prepend {A} t1 t2 (r : result (A * state * list event)) :
  prepend t1 (prepend t2 r) = prepend (t1 ++ t2) r.
Proof. destruct r as [[[a s] t]| | | |]; simpl; [|done..]. by rewrite app_assoc. Qed.

(** A computation that returns has done so through both parts of a [bind]. *)
Lemma bind_Done_inv {A B} (c : M A) (k : A → M B) s b s2 t :
  (c ≫= k) s = Done (b, s2, t) →
  ∃ a s1 t1 t2, c s = Done (a, s1, t1) ∧ k a s1 = Done (b, s2, t2) ∧ t = t1 ++ t2.
Proof.
  rewrite run_bind. destruct (c s) as [[[a s1] t1]| | | |]; simpl; try done.
  destruct (k a s1) as [[[b' s2'] t2]| | | |] eqn:Hk; simpl; try done.
  intros [= -> -> <-]. by exists a, s1, t1, t2.
Qed.

Lemma quiet_prepend {A} t (r : result (A * state * list event)) :
  quiet r → quiet (prepend t r).
Proof. by destruct r as [[[a s] t']| | | |]. Qed.

Lemma quiet_bind {A B} (c : M A) (k : A → M B) s :
  quiet (c s) → (∀ a s1 t1, c s = Done (a, s1, t1) → quiet (k a s1)) →
  quiet ((c ≫= k) s).
Proof.
  rewrite run_bind. destruct (c s) as [[[a s1] t1]| | | |]; try done.
  intros _ Hk. cbn [and_then]. by eapply quiet_prepend, Hk.
Qed.

#[global] Opaque load get_next set_next get_thread wake yield mutex_lock mutex_unlock
  preempt_disable preempt_enable tcpu.

Ltac mrun_step :=
  first
    [ rewrite run_bind
    | rewrite run_ret
    | rewrite run_skip
    | rewrite run_gets
    | rewrite run_modify
    | rewrite run_emit
    | rewrite run_send_lock
    | rewrite run_yield
    | rewrite run_mutex_lock
    | rewrite run_mutex_unlock
    | rewrite run_preempt_disable
    | rewrite run_preempt_enable
    | rewrite run_tcpu
    | rewrite run_receive_lock
    | erewrite run_get_next by (simpl; eassumption)
    | erewrite run_get_thread by (simpl; eassumption)
    | erewrite run_set_next by (simpl; eassumption)
    | erewrite run_wake by (simpl; eassumption)
    | erewrite run_load by (simpl; eassumption)
    | rewrite prepend_nil
    | progress (cbn [and_then prepend app oldest newest user_mutex mem now pending
                       with_oldest with_newest with_user_mutex with_mem with_now
                       with_pending]) ].

Ltac mrun := repeat mrun_step.

Lemma fifo_list_chain fuel h p l : fifo_list fuel h p = Some l → chain h p l.
Proof.
  revert p l. induction fuel as [|fuel IH]; intros p l; destruct p as [a|]; simpl.
  - congruence.
  - intros [= <-]. done.
  - destruct (h !! a) as [r|] eqn:Hr; [|congruence].
    destruct (fifo_list fuel h (next r)) as [l'|] eqn:Hl; simpl; [|congruence].
    intros [= <-]. split; [done|]. exists r. split; [done|]. by apply IH.
  - intros [= <-]. done.
Qed.

Lemma lseg_functional h p l1 l2 : chain h p l1 → chain h p l2 → l1 = l2.
Proof.
  unfold chain. revert p l2. induction l1 as [|a l1 IH]; intros p [|b l2]; simpl.
  - done.
  - intros -> [? _]. congruence.
  - intros [-> _] ?. congruence.
  - intros [-> (r & Hr & H1)] [[= <-] (r' & Hr' & H2)].
    rewrite Hr in Hr'. injection Hr' as <-. f_equal. eauto.
Qed.

Lemma lseg_app h p q l1 l2 :
  lseg h p q (l1 ++ l2) ↔ ∃ m, lseg h p m l1 ∧ lseg h m q l2.
Proof.
  revert p. induction l1 as [|a l1 IH]; intros p; simpl.
  - split; [intros H; exists p; done | intros (m & -> & H); done].
  - split.
    + intros (-> & r & Hr & H). apply IH in H as (m & H1 & H2).
      exists m. split; [|done]. split; [done|]. eauto.
    + intros (m & (-> & r & Hr & H1) & H2). split; [done|].
      exists r. split; [done|]. apply IH. eauto.
Qed.

(** Only the [next] fields of the records of the segment matter. *)
Lemma lseg_frame h h' p q l :
  (∀ a, a ∈ l → next <$> h' !! a = next <$> h !! a) →
  lseg h p q l → lseg h' p q l.
Proof.
  revert p. induction l as [|a l IH]; intros p Hag; simpl; [done|].
  intros (-> & r & Hr & H). split; [done|].
  pose proof (Hag a ltac:(left)) as Ha. rewrite Hr in Ha. simpl in Ha.
  destruct (h' !! a) as [r'|] eqn:Hr'; simpl in Ha; [|done].
  injection Ha as Ha. exists r'. split; [done|]. rewrite Ha.
  apply IH; [|done]. intros b Hb. apply Hag. by right.
Qed.

Lemma chain_lookup h p l a :
  chain h p l → a ∈ l → is_Some (h !! a).
Proof.
  unfold chain. revert p. induction l as [|b l IH]; intros p; simpl.
  - intros _ Ha. by apply elem_of_nil in Ha.
  - intros (-> & r & Hr & H) Ha. apply elem_of_cons in Ha as [->|Ha]; eauto.
Qed.

(** A list that reaches [nullptr] visits no record twice: it has no cycle. *)
Lemma chain_NoDup h p l : chain h p l → NoDup l.
Proof.
  revert p. induction l as [|a l IH]; intros p; [constructor|].
  intros Hc. pose proof Hc as (-> & r & Hr & H). constructor; [|by eapply IH].
  intros Ha. apply list_elem_of_split in Ha as (l1 & l2 & ->).
  pose proof H as H'. apply lseg_app in H' as (m & _ & H2).
  pose proof H2 as (-> & _).
  pose proof (lseg_functional _ _ _ _ Hc H2) as Heq.
  apply (f_equal length) in Heq. simpl in Heq. rewrite length_app in Heq.
  simpl in Heq. lia.
Qed.

Lemma chain_length h p l : chain h p l → length l ≤ size h.
Proof.
  intros Hc.
  assert (list_to_set l ⊆ dom h) as Hsub.
  { intros a Ha. apply elem_of_list_to_set in Ha. apply elem_of_dom.
    by eapply chain_lookup. }
  apply subseteq_size in Hsub.
  rewrite size_list_to_set in Hsub by (by eapply chain_NoDup).
  by rewrite size_dom in Hsub.
Qed.

(** The head and the tail pointer are null together. *)
Lemma fifo_rep_null s l :
  fifo_rep s l → (oldest s = None ↔ newest s = None) ∧ (oldest s = None ↔ l = []).
Proof.
  intros [Hc Hn]. rewrite Hn. destruct l as [|a l]; simpl in *.
  - unfold chain in Hc. simpl in Hc. by rewrite Hc.
  - destruct Hc as (-> & _). split; (split; [done|]).
    + intros Hl. apply last_None in Hl. done.
    + done.
Qed.

Ltac sproj := cbn [oldest newest user_mutex mem now pending
                   with_oldest with_newest with_user_mutex with_mem with_now
                   with_pending].

(** ** The operations on the waiter FIFO *)

Lemma lseg_insert_other h p q l a r :
  a ∉ l → lseg h p q l → lseg (<[a := r]> h) p q l.
Proof.
  intros Ha. apply lseg_frame. intros b Hb.
  rewrite lookup_insert_ne; [done|]. intros ->. done.
Qed.

Lemma lseg_insert_same_next h p q l a r r' :
  h !! a = Some r → next r' = next r → lseg h p q l → lseg (<[a := r']> h) p q l.
Proof.
  intros Hr Hn. apply lseg_frame. intros b Hb.
  destruct (decide (a = b)) as [<-|Hne].
  - rewrite lookup_insert_eq, Hr. simpl. by rewrite Hn.
  - by rewrite lookup_insert_ne.
Qed.

Section Properties.

Variable WAIT_MORPHING : bool.
Variable cpu_at : nat -> thread -> cpu.
Variable env : nat -> state -> state.

Lemma wake_one_locked_cons s x l m :
  fifo_rep s (x :: l) →
  (WAIT_MORPHING = true → user_mutex s = Some m) →
  ∃ s' rx,
    wake_one_locked WAIT_MORPHING s = Done (tt, s', [handoff WAIT_MORPHING m x])
    ∧ fifo_rep s' l
    ∧ user_mutex s' =
        (if WAIT_MORPHING then (if l is [] then None else user_mutex s) else user_mutex s)
    ∧ mem s !! x = Some rx
    ∧ mem s' =
        (if WAIT_MORPHING then mem s
         else <[x := WaitRecord (wr_thread rx) (next rx) true]> (mem s))
    ∧ now s' = now s ∧ pending s' = pending s.
Proof.
  intros [(Ho & r & Hr & Hc) Hn] Hum.
  unfold wake_one_locked. mrun. rewrite Ho. rewrite bool_decide_true by done. mrun.
  destruct l as [|y l].
  - pose proof Hc as Hnx. simpl in Hnx. rewrite Hnx, bool_decide_true by done. mrun.
    destruct WAIT_MORPHING; mrun.
    + rewrite (Hum eq_refl). mrun.
      eexists _, r. split; [reflexivity|]. by split_and!.
    + eexists _, r. split; [reflexivity|]. by split_and!.
  - pose proof Hc as (Hy & _). rewrite Hy, bool_decide_false by done. mrun.
    destruct WAIT_MORPHING; mrun.
    + rewrite (Hum eq_refl). mrun.
      eexists _, r. split; [reflexivity|]. rewrite <- Hy.
      split_and!; try done. sproj. by apply Hum.
    + eexists _, r. split; [reflexivity|]. rewrite <- Hy.
      split_and!; try done. split; sproj; [|done].
      by eapply lseg_insert_same_next.
Qed.

Lemma wake_one_locked_nil s :
  fifo_rep s [] → wake_one_locked WAIT_MORPHING s = Done (tt, s, []).
Proof.
  intros [Ho _]. unfold chain in Ho. simpl in Ho.
  unfold wake_one_locked. mrun. rewrite Ho, bool_decide_false by (by intros []). mrun.
  done.
Qed.

Lemma wake_all_detach_rep s l :
  fifo_rep s l →
  ∃ s',
    wake_all_detach WAIT_MORPHING s
    = Done ((oldest s, if WAIT_MORPHING then user_mutex s else None), s', [])
    ∧ fifo_rep s' []
    ∧ user_mutex s' = (if WAIT_MORPHING then None else user_mutex s)
    ∧ mem s' = mem s ∧ now s' = now s ∧ pending s' = pending s.
Proof.
  intros _. unfold wake_all_detach. mrun.
  destruct WAIT_MORPHING; mrun; (eexists; split; [reflexivity|]); by split_and!.
Qed.


(** The loop of the timeout path finds the record [wr] behind the last
    record [z] of the segment in front of it, and splices it out. *)
Lemma unlink_loop_found l1 : ∀ fuel s b wr rw z,
  lseg (mem s) (Some b) (Some wr) (b :: l1) →
  wr ∉ b :: l1 →
  mem s !! wr = Some rw →
  last (b :: l1) = Some z →
  length (b :: l1) ≤ fuel →
  ∃ rz, mem s !! z = Some rz ∧
    unlink_loop fuel wr (Some b) s = Done (Some z, unlinked_after z rz rw s, []).
Proof.
  induction l1 as [|c l1 IH]; intros fuel s b wr rw z Hseg Hnin Hrw Hlast Hfuel.
  - destruct Hseg as (_ & rb & Hrb & Hnext). simpl in Hnext, Hlast.
    injection Hlast as <-. exists rb. split; [done|].
    destruct fuel as [|fuel]; [simpl in Hfuel; lia|]. simpl. mrun.
    rewrite Hnext, bool_decide_true by done. mrun.
    erewrite run_get_next by (sproj; apply lookup_insert_eq). mrun.
    unfold unlinked_after. cbn [next].
    by destruct (bool_decide (next rw = None)); mrun.
  - destruct Hseg as (_ & rb & Hrb & Hseg). pose proof Hseg as (Hnext & _).
    destruct fuel as [|fuel]; [simpl in Hfuel; lia|]. simpl. mrun.
    rewrite Hnext, bool_decide_false.
    2:{ intros [= ->]. apply Hnin. right. left. }
    apply IH; try done.
    + by rewrite <- Hnext.
    + intros Hin. apply Hnin. by right.
    + simpl in *. lia.
Qed.

(** On a list without [wr] the loop runs to the end and changes nothing. *)
Lemma unlink_loop_not_found l : ∀ fuel s p wr,
  chain (mem s) p l → wr ∉ l → length l ≤ fuel →
  unlink_loop fuel wr p s = Done (None, s, []).
Proof.
  induction l as [|b l IH]; intros fuel s p wr Hc Hnin Hfuel.
  - unfold chain in Hc. simpl in Hc. subst p. by destruct fuel.
  - destruct Hc as (-> & rb & Hrb & Hc).
    destruct fuel as [|fuel]; [simpl in Hfuel; lia|]. simpl. mrun.
    rewrite bool_decide_false.
    2:{ intros Heq. destruct l as [|c l]; simpl in Hc; [congruence|].
        destruct Hc as (Hc & _). rewrite Hc in Heq. injection Heq as ->.
        apply Hnin. right. left. }
    apply IH; try done.
    + intros Hin. apply Hnin. by right.
    + simpl in Hfuel. lia.
Qed.


Lemma wait_unlink_notin s l wr :
  fifo_rep s l → wr ∉ l → wait_unlink wr s = Done (0%Z, s, []).
Proof.
  intros [Hc Hn] Hnin. unfold wait_unlink. mrun.
  rewrite bool_decide_false.
  2:{ intros Heq. destruct l as [|a l]; unfold chain in Hc; simpl in Hc; [congruence|].
      destruct Hc as (Hc & _). rewrite Hc in Heq. injection Heq as ->.
      apply Hnin. left. }
  unfold loop_bound. mrun.
  rewrite (unlink_loop_not_found l); try done.
  apply chain_length in Hc. lia.
Qed.

Lemma wait_unlink_in s l1 l2 wr :
  fifo_rep s (l1 ++ wr :: l2) →
  ∃ s',
    wait_unlink wr s = Done (ETIMEDOUT, s', [])
    ∧ fifo_rep s' (l1 ++ l2)
    ∧ user_mutex s' = user_mutex s ∧ now s' = now s ∧ pending s' = pending s
    ∧ (∀ a, is_woken <$> mem s' !! a = is_woken <$> mem s !! a)
    ∧ (∀ a, a ∉ l1 → mem s' !! a = mem s !! a).
Proof.
  intros [Hc Hn]. pose proof (chain_NoDup _ _ _ Hc) as Hnd.
  pose proof (chain_length _ _ _ Hc) as Hlen.
  unfold chain in Hc. apply lseg_app in Hc as (m & H1 & H2).
  pose proof H2 as (-> & rw & Hrw & H2').
  apply NoDup_app in Hnd as (Hnd1 & Hdisj & Hnd2). apply NoDup_cons in Hnd2 as [Hwr2 Hnd2].
  unfold wait_unlink. mrun.
  destruct l1 as [|b l1].
  - simpl in H1. rewrite H1, bool_decide_true by done. mrun.
    exists (if bool_decide (next rw = None) then with_newest None (with_oldest (next rw) s)
            else with_oldest (next rw) s).
    destruct l2 as [|c l2].
    + simpl in H2'. rewrite H2', bool_decide_true by done. mrun.
      split; [done|]. by split_and!.
    + pose proof H2' as (Hnx & _). rewrite Hnx, bool_decide_false by done. mrun.
      split; [done|]. split_and!; try done. split; sproj; [|done].
      by rewrite <- Hnx.
  - pose proof H1 as (Ho & _). rewrite Ho, bool_decide_false.
    2:{ intros [= ->]. apply (Hdisj b); left. }
    unfold loop_bound. mrun.
    destruct (last (b :: l1)) as [z|] eqn:Hlast; [|by apply last_None in Hlast].
    destruct (unlink_loop_found l1 (S (size (mem s))) s b wr rw z) as (rz & Hrz & ->);
      try done.
    { by rewrite <- Ho. }
    { intros Hin. by apply (Hdisj wr); [|left]. }
    { rewrite length_app in Hlen. simpl in *. lia. }
    mrun. eexists. split; [reflexivity|].
    assert (z ∈ b :: l1) as Hz.
    { apply last_Some in Hlast as (l' & ->). apply elem_of_app. right. left. }
    assert (z ≠ wr) as Hzw. { intros ->. by apply (Hdisj wr); [|left]. }
    assert (z ∉ l2) as Hz2. { intros Hin. by apply (Hdisj z); [|right]. }
    apply last_Some in Hlast as (l1' & Hl1').
    change (b :: l1 ++ l2) with ((b :: l1) ++ l2). rewrite Hl1' in *.
    assert (z ∉ l1') as Hz1.
    { apply NoDup_app in Hnd1 as (_ & Hd & _). intros Hin. apply (Hd z Hin). left. }
    unfold unlinked_after.
    assert (chain (<[z:=WaitRecord (wr_thread rz) (next rw) (is_woken rz)]> (mem s))
              (oldest s) ((l1' ++ [z]) ++ l2)) as Hc'.
    { unfold chain. rewrite <- app_assoc. apply lseg_app. exists (Some z).
      apply lseg_app in H1 as (m' & H1a & H1b). pose proof H1b as (-> & _).
      split; [by apply lseg_insert_other|].
      split; [done|]. eexists. split; [apply lookup_insert_eq|]. cbn [next app].
      by apply lseg_insert_other. }
    assert (∀ a, is_woken <$> <[z:=WaitRecord (wr_thread rz) (next rw) (is_woken rz)]> (mem s) !! a
                 = is_woken <$> mem s !! a) as Hw.
    { intros a. destruct (decide (z = a)) as [<-|Hne].
      - by rewrite lookup_insert_eq, Hrz.
      - by rewrite lookup_insert_ne. }
    destruct (bool_decide (next rw = None)) eqn:Hnone.
    + apply bool_decide_eq_true in Hnone.
      assert (l2 = []) as ->.
      { destruct l2 as [|c l2]; [done|]. destruct H2' as (? & _). congruence. }
      split_and!; try done.
      * split; sproj; [done|]. by rewrite app_nil_r, last_snoc.
      * intros a Ha. sproj. rewrite lookup_insert_ne; [done|].
        intros <-. apply Ha, elem_of_app. right. left.
    + apply bool_decide_eq_false in Hnone.
      split_and!; try done.
      * split; sproj; [done|]. rewrite Hn.
        destruct l2 as [|c l2]; [done|]. by rewrite !last_app.
      * intros a Ha. sproj. rewrite lookup_insert_ne; [done|].
        intros <-. apply Ha, elem_of_app. right. left.
Qed.


Lemma wait_link_rep s l wr rw :
  fifo_rep s l → wr ∉ l → mem s !! wr = Some rw → next rw = None →
  ∃ s',
    wait_link wr s = Done (tt, s', [])
    ∧ fifo_rep s' (l ++ [wr])
    ∧ user_mutex s' = user_mutex s ∧ now s' = now s ∧ pending s' = pending s
    ∧ (∀ a, is_woken <$> mem s' !! a = is_woken <$> mem s !! a)
    ∧ (∀ a, a ∉ l → mem s' !! a = mem s !! a).
Proof.
  intros [Hc Hn] Hnin Hrw Hnext. unfold wait_link. mrun.
  destruct l as [|z l _] using rev_ind.
  - unfold chain in Hc. simpl in Hc. rewrite Hc, bool_decide_true by done. mrun.
    eexists. split; [reflexivity|]. split_and!; try done.
    split; sproj; [|done]. split; [done|]. exists rw. by rewrite Hnext.
  - pose proof (chain_NoDup _ _ _ Hc) as Hnd.
    apply NoDup_app in Hnd as (_ & Hdisj & _).
    assert (oldest s ≠ None) as Ho.
    { destruct l; destruct Hc as (-> & _); done. }
    rewrite bool_decide_false by done. mrun.
    rewrite last_snoc in Hn. rewrite Hn.
    apply lseg_app in Hc as (m & H1 & (-> & rz & Hrz & Hz)).
    mrun. eexists. split; [reflexivity|].
    assert (wr ≠ z) as Hne. { intros ->. apply Hnin, elem_of_app. right. left. }
    split_and!; try done.
    + split; sproj; [|by rewrite last_snoc].
      unfold chain. rewrite <- app_assoc. apply lseg_app. exists (Some z). split.
      * apply lseg_insert_other; [|done]. intros Hin. apply (Hdisj z Hin). left.
      * split; [done|]. eexists. split; [apply lookup_insert_eq|]. cbn [next].
        split; [done|]. exists rw. rewrite lookup_insert_ne by done. by rewrite Hnext.
    + intros a. sproj. destruct (decide (z = a)) as [<-|Hza].
      * by rewrite lookup_insert_eq, Hrz.
      * by rewrite lookup_insert_ne.
    + intros a Ha. sproj. rewrite lookup_insert_ne; [done|].
      intros <-. apply Ha, elem_of_app. right. left.
Qed.

Lemma wait_remember_ok s um :
  (WAIT_MORPHING = true → user_mutex s = None ∨ user_mutex s = um) →
  wait_remember WAIT_MORPHING um s
  = Done (tt, if WAIT_MORPHING then with_user_mutex um s else s, []).
Proof.
  intros Hum. unfold wait_remember. destruct WAIT_MORPHING; [|done]. mrun.
  destruct (Hum eq_refl) as [->| ->].
  - rewrite bool_decide_true by done. simpl. mrun. done.
  - rewrite (bool_decide_true (um = um)) by done. rewrite orb_true_r. simpl. mrun. done.
Qed.

Lemma wait_remember_abort s um m :
  WAIT_MORPHING = true → user_mutex s = Some m → um ≠ Some m →
  wait_remember WAIT_MORPHING um s = Abort.
Proof.
  intros -> Hm Hne. unfold wait_remember. mrun. rewrite Hm.
  rewrite bool_decide_false by done. rewrite bool_decide_false by congruence.
  done.
Qed.


Lemma lseg_snoc h p q l a r :
  lseg h p (Some a) l → h !! a = Some r → next r = q → lseg h p q (l ++ [a]).
Proof.
  intros H1 Hr Hq. apply lseg_app. exists (Some a). split; [done|].
  split; [done|]. exists r. by split.
Qed.

(** The CPU-affinity loop.  While it runs, the records [K] that it has kept
    form a list segment from [next_wr] to the record [r] under examination,
    [prevr] is the last of them, and the records [todo] still hang off [r].
    It ends with [K] followed by the kept part of [todo] as the list at
    [next_wr], and it has sent the lock to the other records of [todo]. *)
Lemma wake_all_group_spec m cpu_wr : ∀ todo fuel s next_wr prevr r K,
  lseg (mem s) next_wr r K →
  chain (mem s) r todo →
  prevr = last K →
  NoDup (K ++ todo) →
  length todo ≤ fuel →
  ∃ s' next_wr' sent kept,
    wake_all_group cpu_at fuel (Some m) cpu_wr next_wr prevr r s
    = Done (next_wr', s', map (Ev_send_lock m) sent)
    ∧ chain (mem s') next_wr' (K ++ kept)
    ∧ todo ≡ₚ sent ++ kept
    ∧ oldest s' = oldest s ∧ newest s' = newest s
    ∧ user_mutex s' = user_mutex s ∧ pending s' = pending s
    ∧ (∀ a, is_woken <$> mem s' !! a = is_woken <$> mem s !! a).
Proof.
  induction todo as [|x todo IH]; intros fuel s next_wr prevr r K HK Hc Hprev Hnd Hfuel.
  - unfold chain in Hc. simpl in Hc. subst r.
    exists s, next_wr, [], []. rewrite app_nil_r.
    split; [by destruct fuel|]. by split_and!.
  - destruct Hc as (-> & rx & Hrx & Hc).
    destruct fuel as [|fuel]; [simpl in Hfuel; lia|]. simpl in Hfuel.
    assert (x ∉ K) as HxK.
    { apply NoDup_app in Hnd as (_ & Hd & _). intros Hin. apply (Hd x Hin). left. }
    assert (x ∉ todo) as Hxt.
    { apply NoDup_app in Hnd as (_ & _ & Hd). by apply NoDup_cons in Hd as [? _]. }
    cbn [wake_all_group]. mrun.
    destruct (bool_decide (cpu_at (now s) (wr_thread rx) = cpu_wr)) eqn:Hcpu.
    + mrun.
      destruct K as [|k K' _] using rev_ind.
      * simpl in HK. subst next_wr. rewrite bool_decide_true by done.
        destruct (IH fuel (with_now (S (now s)) s) (next rx) prevr (next rx) [])
          as (s' & nw & sent & kept & -> & Hc' & Hperm & ? & ? & ? & ? & Hw); try done.
        { simpl. simpl in Hnd. by apply NoDup_cons in Hnd as [_ ?]. }
        { lia. }
        exists s', nw, (x :: sent), kept. split; [done|]. split_and!; try done.
        simpl. by constructor.
      * rewrite last_snoc in Hprev. subst prevr.
        assert (Some x ≠ next_wr) as Hne.
        { intros <-. destruct K' as [|k0 K']; simpl in HK.
          - destruct HK as ([= ->] & _). apply HxK. left.
          - destruct HK as ([= ->] & _). apply HxK. left. }
        rewrite bool_decide_false by done.
        pose proof HK as HK0. apply lseg_app in HK0 as (mk & HK1 & (-> & rk & Hrk & Hk)).
        simpl in Hk. mrun.
        assert (NoDup (K' ++ [k])) as HndK by (by apply NoDup_app in Hnd as (? & _ & _)).
        assert (k ∉ K') as HkK.
        { apply NoDup_app in HndK as (_ & Hd & _). intros Hin. apply (Hd k Hin). left. }
        assert (k ∉ todo) as Hkt.
        { apply NoDup_app in Hnd as (_ & Hd & _). intros Hin.
          apply (Hd k); [apply elem_of_app; right; left|by right]. }
        edestruct (IH fuel
          (with_mem (<[k:=WaitRecord (wr_thread rk) (next rx) (is_woken rk)]> (mem s))
             (with_now (S (now s)) s)) next_wr (Some k) (next rx) (K' ++ [k]))
          as (s' & nw & sent & kept & -> & Hc' & Hperm & ? & ? & ? & ? & Hw); try done.
        { sproj. eapply lseg_snoc; [by apply lseg_insert_other|apply lookup_insert_eq|done]. }
        { sproj. by apply lseg_insert_other. }
        { by rewrite last_snoc. }
        { apply NoDup_app. apply NoDup_app in Hnd as (? & Hd & Hd').
          split; [done|]. split; [|by apply NoDup_cons in Hd' as [_ ?]].
          intros y Hy Hy'. apply (Hd y Hy). by right. }
        { lia. }
        exists s', nw, (x :: sent), kept. split; [done|]. split_and!; try done.
        -- simpl. by constructor.
        -- intros a. rewrite Hw. sproj. destruct (decide (k = a)) as [<-|Hka].
           ++ by rewrite lookup_insert_eq, Hrk.
           ++ by rewrite lookup_insert_ne.
    + edestruct (IH fuel (with_now (S (now s)) s) next_wr (Some x) (next rx) (K ++ [x]))
        as (s' & nw & sent & kept & -> & Hc' & Hperm & ? & ? & ? & ? & Hw); try done.
      { sproj. by eapply lseg_snoc. }
      { by rewrite last_snoc. }
      { rewrite <- app_assoc. done. }
      { lia. }
      exists s', nw, sent, (x :: kept). split; [done|]. split_and!; try done.
      * by rewrite <- app_assoc in Hc'.
      * rewrite Hperm. by rewrite Permutation_middle.
Qed.

(** The walk with wait morphing sends the lock to every record of the list
    once; the induction is on a bound [n] for the length, because the
    affinity loop shortens the list by more than one record at a time. *)
Lemma wake_all_walk_morph m : WAIT_MORPHING = true → ∀ n l fuel s p,
  length l ≤ n →
  chain (mem s) p l →
  length l ≤ fuel →
  ∃ s' order,
    wake_all_walk WAIT_MORPHING cpu_at fuel (Some m) p s
    = Done (tt, s', map (Ev_send_lock m) order)
    ∧ order ≡ₚ l
    ∧ oldest s' = oldest s ∧ newest s' = newest s
    ∧ user_mutex s' = user_mutex s ∧ pending s' = pending s
    ∧ (∀ a, is_woken <$> mem s' !! a = is_woken <$> mem s !! a).
Proof.
  intros ->. induction n as [|n IH]; intros l fuel s p Hn Hc Hfuel.
  - destruct l; [|simpl in Hn; lia]. unfold chain in Hc. simpl in Hc. subst p.
    exists s, []. split; [by destruct fuel|]. by split_and!.
  - destruct l as [|a l].
    { unfold chain in Hc. simpl in Hc. subst p.
      exists s, []. split; [by destruct fuel|]. by split_and!. }
    pose proof (chain_NoDup _ _ _ Hc) as Hnd. apply NoDup_cons in Hnd as [Ha Hnd].
    destruct Hc as (-> & ra & Hra & Hc).
    destruct fuel as [|fuel]; [simpl in Hfuel; lia|]. simpl in Hfuel, Hn.
    cbn [wake_all_walk]. mrun.
    destruct (wake_all_group_spec m (cpu_at (now s) (wr_thread ra)) l fuel
                (with_now (S (now s)) s) (next ra) None (next ra) [])
      as (s1 & nw & sent & kept & -> & Hc1 & Hperm & ? & ? & ? & ? & Hw1); try done.
    { lia. }
    simpl in Hc1. mrun.
    assert (length kept ≤ length l) as Hlen.
    { rewrite Hperm, length_app. lia. }
    destruct (IH kept fuel s1 nw) as (s' & order & -> & Hperm' & ? & ? & ? & ? & Hw');
      [lia|done|lia|].
    mrun. exists s', (a :: sent ++ order). split.
    { by rewrite map_cons, map_app. }
    cbn [oldest newest user_mutex pending with_now] in *.
    split_and!; try congruence.
    + constructor. by rewrite Hperm, Hperm'.
    + intros b. by rewrite Hw', Hw1.
Qed.

(** The walk without wait morphing wakes the records in their order. *)
Lemma wake_all_walk_plain um : WAIT_MORPHING = false → ∀ l fuel s p,
  chain (mem s) p l →
  length l ≤ fuel →
  ∃ s',
    wake_all_walk WAIT_MORPHING cpu_at fuel um p s = Done (tt, s', map Ev_wake l)
    ∧ oldest s' = oldest s ∧ newest s' = newest s
    ∧ user_mutex s' = user_mutex s ∧ pending s' = pending s
    ∧ (∀ a, a ∈ l → is_woken <$> mem s' !! a = Some true)
    ∧ (∀ a, a ∉ l → mem s' !! a = mem s !! a).
Proof.
  intros ->. induction l as [|a l IH]; intros fuel s p Hc Hfuel.
  - unfold chain in Hc. simpl in Hc. subst p. exists s.
    split; [by destruct fuel|]. split_and!; try done.
    intros a Ha. by apply elem_of_nil in Ha.
  - pose proof (chain_NoDup _ _ _ Hc) as Hnd. apply NoDup_cons in Hnd as [Ha Hnd].
    destruct Hc as (-> & ra & Hra & Hc).
    destruct fuel as [|fuel]; [simpl in Hfuel; lia|]. simpl in Hfuel.
    cbn [wake_all_walk]. mrun.
    destruct (IH fuel
      (with_mem (<[a:=WaitRecord (wr_thread ra) (next ra) true]> (mem s)) s) (next ra))
      as (s' & -> & ? & ? & ? & ? & Hin & Hout); [|lia|].
    { sproj. by eapply lseg_insert_same_next. }
    mrun. exists s'. split; [done|]. split_and!; try done.
    + intros b Hb. apply elem_of_cons in Hb as [->|Hb]; [|by apply Hin].
      rewrite Hout by done. sproj. by rewrite lookup_insert_eq.
    + intros b Hb. apply not_elem_of_cons in Hb as [Hba Hb].
      rewrite Hout by done. sproj. by rewrite lookup_insert_ne.
Qed.

End Properties.
(** ** The operations of the condvar *)

Section Operations.

Variable WAIT_MORPHING : bool.
Variable cpu_at : nat -> thread -> cpu.
Variable env : nat -> state -> state.

Lemma fifo_rep_well_formed s l : fifo_rep s l → well_formed s.
Proof.
  intros Hrep. split; [by apply (fifo_rep_null s l)|].
  exists l. destruct Hrep as [Hc Hn]. split_and!; try done. by eapply chain_NoDup.
Qed.

(** Well-formedness is the existence of the list of the FIFO. *)
Lemma well_formed_iff s : well_formed s ↔ ∃ l, fifo_rep s l.
Proof.
  split.
  - intros (_ & l & Hc & Hn & _). by exists l.
  - intros [l Hrep]. by eapply fifo_rep_well_formed.
Qed.

(** A condvar without waiters, as initialised, is well formed. *)
Lemma empty_well_formed s : oldest s = None → newest s = None → well_formed s.
Proof. intros Ho Hn. apply (fifo_rep_well_formed s []). by split. Qed.

Lemma fifo_rep_functional s l1 l2 : fifo_rep s l1 → fifo_rep s l2 → l1 = l2.
Proof. intros [H1 _] [H2 _]. by eapply lseg_functional. Qed.

Lemma new_wait_record_rep s l wr t :
  fifo_rep s l → wr ∉ l →
  fifo_rep (with_mem (<[wr := WaitRecord t None false]> (mem s)) s) l.
Proof. intros [Hc Hn] Hnin. split; sproj; [|done]. by apply lseg_insert_other. Qed.

Lemma wait_enqueue_rep s l wr um rw :
  fifo_rep s l → wr ∉ l → mem s !! wr = Some rw → next rw = None →
  (WAIT_MORPHING = true → user_mutex s = None ∨ user_mutex s = um) →
  ∃ s',
    wait_enqueue WAIT_MORPHING wr um s = Done (tt, s', [])
    ∧ fifo_rep s' (l ++ [wr])
    ∧ user_mutex s' = (if WAIT_MORPHING then um else user_mutex s)
    ∧ now s' = now s ∧ pending s' = pending s
    ∧ (∀ a, is_woken <$> mem s' !! a = is_woken <$> mem s !! a)
    ∧ (∀ a, a ∉ l → mem s' !! a = mem s !! a).
Proof.
  intros Hrep Hnin Hrw Hnext Hum.
  destruct (wait_link_rep s l wr rw) as (s1 & Hrun & Hrep1 & Hum1 & ? & ? & ? & ?);
    try done.
  unfold wait_enqueue. mrun. rewrite Hrun. mrun.
  rewrite wait_remember_ok by (by rewrite Hum1).
  eexists. split; [reflexivity|].
  destruct WAIT_MORPHING; by split_and!.
Qed.

Lemma wait_enqueue_abort s l wr um rw m :
  fifo_rep s l → wr ∉ l → mem s !! wr = Some rw → next rw = None →
  WAIT_MORPHING = true → user_mutex s = Some m → um ≠ Some m →
  wait_enqueue WAIT_MORPHING wr um s = Abort.
Proof.
  intros Hrep Hnin Hrw Hnext Hm Hum Hne.
  destruct (wait_link_rep s l wr rw) as (s1 & Hrun & Hrep1 & Hum1 & ? & ? & ? & ?);
    try done.
  unfold wait_enqueue. mrun. rewrite Hrun. mrun.
  by rewrite (wait_remember_abort _ _ _ m) by (by rewrite ?Hum1).
Qed.

Lemma wait_begin_ok current wr um s l rw :
  fifo_rep (at_lock env current wr s) l → wr ∉ l →
  mem (at_lock env current wr s) !! wr = Some rw → next rw = None →
  (WAIT_MORPHING = true →
   user_mutex (at_lock env current wr s) = None
   ∨ user_mutex (at_lock env current wr s) = um) →
  ∃ s',
    wait_begin WAIT_MORPHING env current wr um s = Done (tt, s', begin_trace um)
    ∧ fifo_rep s' (l ++ [wr])
    ∧ user_mutex s' = (if WAIT_MORPHING then um else user_mutex (at_lock env current wr s))
    ∧ now s' = now (at_lock env current wr s)
    ∧ pending s' = pending (at_lock env current wr s)
    ∧ (∀ a, is_woken <$> mem s' !! a = is_woken <$> mem (at_lock env current wr s) !! a)
    ∧ (∀ a, a ∉ l → mem s' !! a = mem (at_lock env current wr s) !! a).
Proof.
  intros Hrep Hnin Hrw Hnext Hum.
  destruct (wait_enqueue_rep _ _ _ um _ Hrep Hnin Hrw Hnext Hum)
    as (s' & Hrun & ? & ? & ? & ? & ? & Hwr).
  unfold wait_begin, new_wait_record. mrun.
  fold (at_lock env current wr s). rewrite Hrun. mrun.
  exists s'. split; [done|]. by split_and!.
Qed.

Lemma wait_begin_abort current wr um s l rw m :
  fifo_rep (at_lock env current wr s) l → wr ∉ l →
  mem (at_lock env current wr s) !! wr = Some rw → next rw = None →
  WAIT_MORPHING = true →
  user_mutex (at_lock env current wr s) = Some m → um ≠ Some m →
  wait_begin WAIT_MORPHING env current wr um s = Abort.
Proof.
  intros Hrep Hnin Hrw Hnext Hm Hum Hne.
  unfold wait_begin, new_wait_record. mrun.
  fold (at_lock env current wr s).
  by rewrite (wait_enqueue_abort _ _ _ _ _ _ Hrep Hnin Hrw Hnext Hm Hum Hne).
Qed.

Lemma wait_unlink_total s l wr :
  fifo_rep s l →
  ∃ ret s' l',
    wait_unlink wr s = Done (ret, s', [])
    ∧ fifo_rep s' l' ∧ l' ⊆ l
    ∧ user_mutex s' = user_mutex s.
Proof.
  intros Hrep. destruct (decide (wr ∈ l)) as [Hin|Hnin].
  - apply list_elem_of_split in Hin as (l1 & l2 & ->).
    destruct (wait_unlink_in _ _ _ _ Hrep) as (s' & Hrun & Hrep' & ? & _).
    exists ETIMEDOUT, s', (l1 ++ l2). split_and!; try done.
    intros a Ha. apply elem_of_app in Ha as [Ha|Ha]; apply elem_of_app; [by left|].
    right. by right.
  - exists 0%Z, s, l. by rewrite (wait_unlink_notin _ _ _ Hrep Hnin).
Qed.

(** C3: every operation on the waiter FIFO (the enqueue of condvar_wait, the
    dequeue of wake_one, the detach of wake_all, the removal on the timeout
    path at the head, inside or at the tail) leaves it well formed: oldest is
    null iff newest is null, and the walk from oldest along next ends after
    finitely many records at newest without a cycle. *)
Theorem C3_fifo_well_formed s l :
  fifo_rep s l →
  well_formed s
  ∧ (∀ wr t um,
       wr ∉ l →
       (WAIT_MORPHING = true → user_mutex s = None ∨ user_mutex s = um) →
       ∃ s', (new_wait_record wr t ≫= λ _, wait_enqueue WAIT_MORPHING wr um) s
             = Done (tt, s', [])
             ∧ fifo_rep s' (l ++ [wr]) ∧ well_formed s')
  ∧ (∀ x l' m,
       l = x :: l' →
       (WAIT_MORPHING = true → user_mutex s = Some m) →
       ∃ s', wake_one_locked WAIT_MORPHING s = Done (tt, s', [handoff WAIT_MORPHING m x])
             ∧ fifo_rep s' l' ∧ well_formed s')
  ∧ (∃ r s', wake_all_detach WAIT_MORPHING s = Done (r, s', [])
             ∧ fifo_rep s' [] ∧ well_formed s')
  ∧ (∀ l1 wr l2,
       l = l1 ++ wr :: l2 →
       ∃ s', wait_unlink wr s = Done (ETIMEDOUT, s', [])
             ∧ fifo_rep s' (l1 ++ l2) ∧ well_formed s')
  ∧ (∀ wr, wr ∉ l → wait_unlink wr s = Done (0%Z, s, [])).
Proof.
  intros Hrep. split_and!.
  - by eapply fifo_rep_well_formed.
  - intros wr t um Hnin Hum.
    pose proof (new_wait_record_rep s l wr t Hrep Hnin) as Hrep1.
    destruct (wait_enqueue_rep _ _ _ um (WaitRecord t None false) Hrep1 Hnin)
      as (s' & Hrun & Hrep' & _); try done.
    { sproj. apply lookup_insert_eq. }
    unfold new_wait_record. mrun. rewrite Hrun. exists s'.
    split_and!; try done. by eapply fifo_rep_well_formed.
  - intros x l' m -> Hum.
    destruct (wake_one_locked_cons WAIT_MORPHING s x l' m Hrep Hum)
      as (s' & rx & Hrun & Hrep' & _).
    exists s'. split_and!; try done. by eapply fifo_rep_well_formed.
  - destruct (wake_all_detach_rep WAIT_MORPHING s l Hrep) as (s' & Hrun & Hrep' & _).
    eexists _, s'. split_and!; try done. by eapply fifo_rep_well_formed.
  - intros l1 wr l2 ->.
    destruct (wait_unlink_in _ _ _ _ Hrep) as (s' & Hrun & Hrep' & _).
    exists s'. split_and!; try done. by eapply fifo_rep_well_formed.
  - intros wr Hnin. by eapply wait_unlink_notin.
Qed.

(** The signallers clear the remembered user mutex when they drain the FIFO;
    the timeout path leaves it as it is. *)
Lemma signal_drain_clears_user_mutex s x m :
  WAIT_MORPHING = true → fifo_rep s [x] → user_mutex s = Some m →
  (∃ s', wake_one_locked WAIT_MORPHING s = Done (tt, s', [handoff WAIT_MORPHING m x])
         ∧ fifo_rep s' [] ∧ user_mutex s' = None)
  ∧ (∃ r s', wake_all_detach WAIT_MORPHING s = Done (r, s', [])
             ∧ fifo_rep s' [] ∧ user_mutex s' = None).
Proof.
  intros Hm Hrep Hum. split.
  - destruct (wake_one_locked_cons WAIT_MORPHING s x [] m Hrep (λ _, Hum))
      as (s' & rx & Hrun & Hrep' & Hum' & _).
    exists s'. split_and!; try done. by rewrite Hum', Hm.
  - destruct (wake_all_detach_rep WAIT_MORPHING s [x] Hrep) as (s' & Hrun & Hrep' & Hum' & _).
    eexists _, s'. split_and!; try done. by rewrite Hum', Hm.
Qed.

Lemma timeout_drain_keeps_user_mutex s wr :
  fifo_rep s [wr] →
  ∃ s', wait_unlink wr s = Done (ETIMEDOUT, s', [])
        ∧ fifo_rep s' [] ∧ user_mutex s' = user_mutex s.
Proof.
  intros Hrep. destruct (wait_unlink_in s [] [] wr Hrep) as (s' & Hrun & Hrep' & Hum & _).
  by exists s'.
Qed.

Lemma condvar_wake_one_nil s :
  oldest s ≠ None → fifo_rep (resume env s) [] →
  condvar_wake_one WAIT_MORPHING env s
  = Done (tt, resume env s, [Ev_mutex_lock cv_m; Ev_mutex_unlock cv_m]).
Proof.
  intros Ho Hrep. unfold condvar_wake_one.
  mrun. rewrite bool_decide_false by done. mrun.
  rewrite wake_one_locked_nil by done. by mrun.
Qed.

Lemma condvar_wake_one_cons s x l m :
  oldest s ≠ None → fifo_rep (resume env s) (x :: l) →
  (WAIT_MORPHING = true → user_mutex (resume env s) = Some m) →
  ∃ s', condvar_wake_one WAIT_MORPHING env s
        = Done (tt, s', [Ev_mutex_lock cv_m; handoff WAIT_MORPHING m x;
                         Ev_mutex_unlock cv_m])
        ∧ fifo_rep s' l
        ∧ user_mutex s' =
            (if WAIT_MORPHING then (if l is [] then None else user_mutex (resume env s))
             else user_mutex (resume env s)).
Proof.
  intros Ho Hrep Hum. unfold condvar_wake_one.
  destruct (wake_one_locked_cons WAIT_MORPHING _ x l m Hrep Hum)
    as (s' & rx & Hrun & Hrep' & Hum' & _).
  mrun. rewrite bool_decide_false by done. mrun.
  rewrite Hrun. mrun. by exists s'.
Qed.

Lemma condvar_wake_one_fast s :
  oldest s = None → condvar_wake_one WAIT_MORPHING env s = Done (tt, s, []).
Proof. intros Ho. unfold condvar_wake_one. mrun. by rewrite Ho. Qed.

(** C5: condvar_wake_one dequeues the oldest record, and only it, when the
    FIFO holds a record at the moment the internal mutex is taken, and none
    otherwise (nor when the unlocked look at the head finds no waiter); the
    records that remain stay in their order. *)
Theorem C5_wake_one_oldest s l :
  fifo_rep (resume env s) l →
  (oldest s = None → condvar_wake_one WAIT_MORPHING env s = Done (tt, s, []))
  ∧ (oldest s ≠ None →
     match l with
     | [] =>
         condvar_wake_one WAIT_MORPHING env s
         = Done (tt, resume env s, [Ev_mutex_lock cv_m; Ev_mutex_unlock cv_m])
     | x :: l' =>
         ∀ m, (WAIT_MORPHING = true → user_mutex (resume env s) = Some m) →
         ∃ s', condvar_wake_one WAIT_MORPHING env s
               = Done (tt, s', [Ev_mutex_lock cv_m; handoff WAIT_MORPHING m x;
                                Ev_mutex_unlock cv_m])
               ∧ fifo_rep s' l'
     end).
Proof.
  intros Hrep. split; [apply condvar_wake_one_fast|].
  intros Ho. destruct l as [|x l'].
  - by apply condvar_wake_one_nil.
  - intros m Hum.
    destruct (condvar_wake_one_cons s x l' m Ho Hrep Hum) as (s' & Hrun & Hrep' & _).
    by exists s'.
Qed.

(** C4: condvar_wake_all hands off every record of the snapshot taken under
    the internal mutex exactly once, by send_lock with wait morphing and by
    wake() without, after the internal mutex is released; the records that
    the CPU-affinity loop splices out early are among them, and no record is
    handed off twice or skipped. *)
Theorem C4_wake_all_exactly_once s l m :
  oldest s ≠ None →
  fifo_rep (resume env s) l →
  (WAIT_MORPHING = true → l ≠ [] → user_mutex (resume env s) = Some m) →
  ∃ s' order,
    condvar_wake_all WAIT_MORPHING cpu_at env s
    = Done (tt, s', [Ev_mutex_lock cv_m; Ev_mutex_unlock cv_m]
                    ++ map (handoff WAIT_MORPHING m) order)
    ∧ order ≡ₚ l ∧ NoDup order
    ∧ (WAIT_MORPHING = false → order = l)
    ∧ fifo_rep s' [].
Proof.
  intros Ho Hrep Hum.
  pose proof (chain_NoDup _ _ _ (proj1 Hrep)) as Hnd.
  pose proof (chain_length _ _ _ (proj1 Hrep)) as Hlen.
  destruct (wake_all_detach_rep WAIT_MORPHING _ l Hrep)
    as (s1 & Hrun & Hrep1 & Hum1 & Hmem1 & Hnow1 & Hpend1).
  unfold condvar_wake_all. mrun. rewrite bool_decide_false by done. mrun.
  rewrite Hrun. mrun. unfold loop_bound. mrun.
  destruct Hrep as [Hc Hn]. rewrite <- Hmem1 in Hc, Hlen.
  destruct WAIT_MORPHING eqn:Hmorph.
  - destruct l as [|a l].
    { unfold chain in Hc. cbn [lseg] in Hc. rewrite Hc. cbn [wake_all_walk]. mrun.
      exists s1, []. by split_and!. }
    rewrite (Hum eq_refl) by done.
    destruct (wake_all_walk_morph true cpu_at m eq_refl (length (a :: l)) (a :: l)
                (S (size (mem s1))) s1 (oldest (resume env s)))
      as (s' & order & -> & Hperm & Ho' & Hn' & _); [done|done|lia|].
    mrun. exists s', order. split_and!; try done.
    + by rewrite Hperm.
    + destruct Hrep1 as [Hc1 Hn1]. split; [unfold chain; simpl|]; congruence.
  - destruct (wake_all_walk_plain false cpu_at None eq_refl l
                (S (size (mem s1))) s1 (oldest (resume env s)))
      as (s' & -> & Ho' & Hn' & _); [done|lia|].
    mrun. exists s', l. split_and!; try done.
    destruct Hrep1 as [Hc1 Hn1]. split; [unfold chain; simpl|]; congruence.
Qed.

(** C7: with wait morphing, a condvar_wait that finds another user mutex
    remembered than the one it is given aborts on the assertion; when none
    or the same one is remembered, it proceeds and stores its own. *)
Theorem C7_assert_same_user_mutex current wr um tmr s l rw :
  WAIT_MORPHING = true →
  fifo_rep (at_lock env current wr s) l → wr ∉ l →
  mem (at_lock env current wr s) !! wr = Some rw → next rw = None →
  (∀ m, user_mutex (at_lock env current wr s) = Some m → um ≠ Some m →
        wait_begin WAIT_MORPHING env current wr um s = Abort
        ∧ condvar_wait WAIT_MORPHING env current wr um tmr s = Abort)
  ∧ (user_mutex (at_lock env current wr s) = None
     ∨ user_mutex (at_lock env current wr s) = um →
     ∃ s', wait_begin WAIT_MORPHING env current wr um s = Done (tt, s', begin_trace um)
           ∧ user_mutex s' = um
           ∧ fifo_rep s' (l ++ [wr])).
Proof.
  intros Hmorph Hrep Hnin Hrw Hnext. split.
  - intros m Hm Hne.
    pose proof (wait_begin_abort _ _ _ _ _ _ _ Hrep Hnin Hrw Hnext Hmorph Hm Hne)
      as Hab.
    split; [done|]. unfold condvar_wait. mrun. by rewrite Hab.
  - intros Hum.
    destruct (wait_begin_ok _ _ um _ _ _ Hrep Hnin Hrw Hnext)
      as (s' & Hrun & Hrep' & Hum' & _); [done|].
    exists s'. split_and!; try done. by rewrite Hum', Hmorph.
Qed.

End Operations.


Lemma resume_idle s : resume idle s = with_now (S (now s)) s.
Proof. reflexivity. Qed.

(** C8: from an empty FIFO, the enqueue of one wait record followed by one
    condvar_wake_one leaves the FIFO empty, oldest and newest both null; and
    condvar_wake_one on an empty FIFO changes nothing.  With wait morphing
    the waiter brings a user mutex that passes the assertion of line 45. *)
Theorem C8_enqueue_wake_one_empty WAIT_MORPHING env current wr um m s :
  fifo_rep s [] →
  (WAIT_MORPHING = true → um = Some m ∧ (user_mutex s = None ∨ user_mutex s = um)) →
  (∃ s1 s2,
     wait_begin WAIT_MORPHING idle current wr um s = Done (tt, s1, begin_trace um)
     ∧ fifo_rep s1 [wr]
     ∧ condvar_wake_one WAIT_MORPHING idle s1
       = Done (tt, s2, [Ev_mutex_lock cv_m; handoff WAIT_MORPHING m wr;
                        Ev_mutex_unlock cv_m])
     ∧ oldest s2 = None ∧ newest s2 = None)
  ∧ condvar_wake_one WAIT_MORPHING env s = Done (tt, s, [])
  ∧ wake_one_locked WAIT_MORPHING s = Done (tt, s, []).
Proof.
  intros Hrep Hum. split_and!.
  - assert (fifo_rep (at_lock idle current wr s) []) as Hrep0.
    { destruct Hrep as [Hc Hn]. by split. }
    destruct (wait_begin_ok WAIT_MORPHING idle current wr um s [] (WaitRecord current None false))
      as (s1 & Hrun & Hrep1 & Hum1 & _); try done.
    { apply not_elem_of_nil. }
    { unfold at_lock. rewrite resume_idle. sproj. apply lookup_insert_eq. }
    { intros Hm. by destruct (Hum Hm) as [_ ?]. }
    simpl in Hrep1.
    assert (oldest s1 ≠ None) as Ho1.
    { destruct Hrep1 as [(-> & _) _]. done. }
    assert (fifo_rep (resume idle s1) [wr]) as Hrep1'.
    { destruct Hrep1 as [Hc Hn]. by split. }
    destruct (condvar_wake_one_cons WAIT_MORPHING idle s1 wr [] m Ho1 Hrep1') as (s2 & Hrun2 & Hrep2 & _).
    { intros Hm. rewrite resume_idle. sproj. rewrite Hum1, Hm. by destruct (Hum Hm). }
    exists s1, s2. split_and!; try done.
    + by destruct Hrep2 as [Hc _].
    + by destruct Hrep2 as [_ Hn].
  - apply condvar_wake_one_fast. by destruct Hrep as [Hc _].
  - by apply wake_one_locked_nil.
Qed.

(** ** The protocol: what the other threads can do to a waiter *)

Section Protocol.
Variable WAIT_MORPHING : bool.
Variable me : addr.

Lemma sent_handoff m x : sent [handoff WAIT_MORPHING m x] ⊆ {[x]}.
Proof.
  unfold handoff, sent. destruct WAIT_MORPHING; simpl.
  - by rewrite union_empty_r_L.
  - apply empty_subseteq.
Qed.

Lemma fifo_rep_pending s l q : fifo_rep (with_pending q s) l ↔ fifo_rep s l.
Proof. done. Qed.

Lemma wait_enqueue_inv s s' wr um l rw t :
  inv s → fifo_rep s l → wr ∉ l → wr ∉ pending s →
  mem s !! wr = Some rw → next rw = None → is_woken rw = false →
  wait_enqueue WAIT_MORPHING wr um s = Done (tt, s', t) →
  inv s'
  ∧ t = []
  ∧ fifo_rep s' (l ++ [wr])
  ∧ pending s' = pending s
  ∧ (∀ a, is_woken <$> mem s' !! a = is_woken <$> mem s !! a)
  ∧ (∀ a, a ∉ l → mem s' !! a = mem s !! a)
  ∧ (WAIT_MORPHING = true → user_mutex s' = um).
Proof.
  intros (l0 & Hrep0 & Hinv) Hrep Hnin Hpend Hwr Hnext Hwoken Hrun.
  rewrite <- (fifo_rep_functional _ _ _ Hrep Hrep0) in Hinv. clear l0 Hrep0.
  unfold wait_enqueue in Hrun. revert Hrun. mrun.
  destruct (wait_link_rep s l wr _ Hrep Hnin Hwr Hnext)
    as (s2 & -> & Hrep2 & Hum2 & Hnow2 & Hpend2 & Hw2 & Hfr2).
  mrun. unfold wait_remember. intros Hrun.
  assert (user_mutex s' = (if WAIT_MORPHING then um else user_mutex s') ∧
          oldest s' = oldest s2 ∧ newest s' = newest s2 ∧ mem s' = mem s2 ∧
          pending s' = pending s2 ∧ t = []) as (Hum' & Ho' & Hn' & Hm' & Hp' & Ht).
  { destruct WAIT_MORPHING.
    - revert Hrun. mrun.
      destruct (bool_decide (user_mutex s2 = None) || bool_decide (user_mutex s2 = um));
        [|done]. cbn [assert]. mrun. by intros [= <- <-].
    - revert Hrun. mrun. by intros [= <- <-]. }
  assert (fifo_rep s' (l ++ [wr])) as Hrep'.
  { destruct Hrep2 as [Hc Hn]. split; [by rewrite Ho', Hm'|by rewrite Hn']. }
  split_and!; try done.
  - exists (l ++ [wr]). split; [done|]. intros a Ha. rewrite Hp', Hpend2, Hm', Hw2.
    apply elem_of_app in Ha as [Ha|Ha]; [by apply Hinv|].
    apply list_elem_of_singleton in Ha as ->. split; [done|]. by rewrite Hwr, <- Hwoken.
  - by rewrite Hp', Hpend2.
  - intros a. by rewrite Hm', Hw2.
  - intros a Ha. by rewrite Hm', Hfr2.
  - intros Hm. by rewrite Hm in Hum'.
Qed.

Lemma new_wait_record_inv s wr t :
  inv s → (∀ l, fifo_rep s l → wr ∉ l) → wr ∉ pending s →
  let s1 := with_mem (<[wr := WaitRecord t None false]> (mem s)) s in
  inv s1 ∧ parked wr (WaitRecord t None false) s1.
Proof.
  intros (l & Hrep & Hinv) Hnin Hp s1.
  assert (fifo_rep s1 l) as Hrep1 by (by apply new_wait_record_rep, Hnin).
  split.
  - exists l. split; [done|]. intros a Ha. subst s1. sproj.
    rewrite lookup_insert_ne; [by apply Hinv|]. intros ->. by apply (Hnin l).
  - split_and!; [|done|apply lookup_insert_eq].
    intros l' Hl'. rewrite (fifo_rep_functional _ _ _ Hl' Hrep1). by apply Hnin.
Qed.

Lemma enqueue_inv s s' wr t um l :
  inv s → fifo_rep s l → wr ∉ l → wr ∉ pending s →
  (new_wait_record wr t ≫= λ _, wait_enqueue WAIT_MORPHING wr um) s = Done (tt, s', []) →
  inv s'
  ∧ fifo_rep s' (l ++ [wr])
  ∧ pending s' = pending s
  ∧ (∀ a, a ≠ wr → is_woken <$> mem s' !! a = is_woken <$> mem s !! a)
  ∧ (∀ a, a ≠ wr → a ∉ l → mem s' !! a = mem s !! a).
Proof.
  intros Hinv Hrep Hnin Hpend Hrun.
  unfold new_wait_record in Hrun. revert Hrun. mrun. intros Hrun.
  destruct (new_wait_record_inv s wr t Hinv) as [Hinv1 Hpk1]; [|done|].
  { intros l' Hl'. by rewrite (fifo_rep_functional _ _ _ Hl' Hrep). }
  destruct (wait_enqueue_inv _ _ _ _ l _ _ Hinv1 (new_wait_record_rep s l wr t Hrep Hnin)
              Hnin Hpend (proj2 (proj2 Hpk1)) eq_refl eq_refl Hrun)
    as (Hinv' & _ & Hrep' & Hp' & Hw' & Hfr' & _).
  split_and!; try done.
  - intros a Ha. rewrite Hw'. sproj. by rewrite lookup_insert_ne.
  - intros a Ha Hal. rewrite Hfr' by done. sproj. by rewrite lookup_insert_ne.
Qed.

Lemma wake_one_locked_Done s s' tr x l :
  fifo_rep s (x :: l) →
  wake_one_locked WAIT_MORPHING s = Done (tt, s', tr) →
  ∃ rx,
    fifo_rep s' l ∧ mem s !! x = Some rx
    ∧ mem s' = (if WAIT_MORPHING then mem s
                else <[x:=WaitRecord (wr_thread rx) (next rx) true]> (mem s))
    ∧ pending s' = pending s
    ∧ sent tr ⊆ {[x]}.
Proof.
  intros Hrep Hrun.
  assert (∃ m, WAIT_MORPHING = true → user_mutex s = Some m) as [m Hum].
  { destruct (user_mutex s) as [m|] eqn:Hum; [by exists m|]. exists 0. intros Hm.
    exfalso. revert Hrun. unfold wake_one_locked.
    destruct Hrep as [(Ho & r & Hr & Hc) _].
    mrun. rewrite Ho, bool_decide_true by done. mrun.
    destruct (bool_decide (next r = None)); mrun; rewrite Hm; mrun;
      rewrite Hum; by cbn. }
  destruct (wake_one_locked_cons WAIT_MORPHING s x l m Hrep Hum)
    as (s1 & rx & Hrun1 & ? & ? & ? & ? & ? & ?).
  rewrite Hrun1 in Hrun. injection Hrun as <- <-.
  exists rx. split_and!; try done. apply sent_handoff.
Qed.

Lemma step_inv s s' : inv s → step WAIT_MORPHING me s s' → inv s'.
Proof.
  intros Hinv Hstep. destruct Hstep as
    [s s' wr t um l Hne Hrep Hnin Hp Hrun | s s' wr ret Hne Hrun
    | s a r l Hne Hrep Hnin Hp | s s' tr Hrun
    | s s' l r Hrep Hrun | s a r n Ha Hr | s a r Ha Hr].
  - by destruct (enqueue_inv _ _ _ _ _ _ Hinv Hrep Hnin Hp Hrun).
  - destruct Hinv as (l & Hrep & Hinv).
    destruct (decide (wr ∈ l)) as [Hin|Hnin].
    + apply list_elem_of_split in Hin as (l1 & l2 & ->).
      destruct (wait_unlink_in _ _ _ _ Hrep) as (s1 & Hrun1 & Hrep1 & _ & _ & Hp1 & Hw1 & _).
      rewrite Hrun1 in Hrun. injection Hrun as _ <-.
      exists (l1 ++ l2). split; [done|]. intros a Ha. rewrite Hp1, Hw1. apply Hinv.
      apply elem_of_app in Ha as [Ha|Ha]; apply elem_of_app; [by left|right; by right].
    + rewrite (wait_unlink_notin _ _ _ Hrep Hnin) in Hrun. injection Hrun as _ <-.
      by exists l.
  - destruct Hinv as (l0 & Hrep0 & Hinv).
    rewrite (fifo_rep_functional _ _ _ Hrep0 Hrep) in Hinv.
    exists l. split.
    + destruct Hrep as [Hc Hn]. split; sproj; [|done]. by apply lseg_insert_other.
    + intros b Hb. sproj. destruct (Hinv b Hb) as [Hbp Hbw]. split; [done|].
      rewrite lookup_insert_ne; [done|]. intros ->. done.
  - destruct Hinv as (l & Hrep & Hinv). destruct l as [|x l].
    + rewrite wake_one_locked_nil in Hrun by done. injection Hrun as <- <-.
      exists []. split; [done|]. intros a Ha. by apply elem_of_nil in Ha.
    + pose proof (chain_NoDup _ _ _ (proj1 Hrep)) as Hnd.
      apply NoDup_cons in Hnd as [Hx Hnd].
      destruct (wake_one_locked_Done _ _ _ _ _ Hrep Hrun)
        as (rx & Hrep1 & Hrx & Hm1 & Hp1 & Hsent).
      exists l. split; [done|]. intros a Ha. sproj.
      assert (a ≠ x) as Hax by (intros ->; done).
      destruct (Hinv a) as [Hap Haw]; [by right|]. split.
      * rewrite Hp1. intros [?|Hs%Hsent%elem_of_singleton]%elem_of_union; done.
      * rewrite Hm1. destruct WAIT_MORPHING; [done|]. by rewrite lookup_insert_ne.
  - destruct (wake_all_detach_rep WAIT_MORPHING s l Hrep) as (s1 & Hrun1 & Hrep1 & _).
    rewrite Hrun1 in Hrun. injection Hrun as _ <-.
    exists []. split; [done|]. intros a Ha. by apply elem_of_nil in Ha.
  - destruct Hinv as (l & [Hc Hn] & Hinv). exists l. split.
    + split; sproj; [|done]. apply lseg_insert_other; [|done].
      intros Hin. by destruct (Hinv a Hin).
    + intros b Hb. sproj. destruct (Hinv b Hb) as [Hbp Hbw]. split; [done|].
      rewrite lookup_insert_ne; [done|]. intros ->. done.
  - destruct Hinv as (l & [Hc Hn] & Hinv). exists l. split.
    + split; sproj; [|done]. apply lseg_insert_other; [|done].
      intros Hin. by destruct (Hinv a Hin).
    + intros b Hb. sproj. destruct (Hinv b Hb) as [Hbp Hbw]. split.
      * intros [? _]%elem_of_difference. done.
      * rewrite lookup_insert_ne; [done|]. intros ->. done.
Qed.

(** What a step of another thread does to the record of the waiter. *)
Lemma step_record s s' :
  inv s → step WAIT_MORPHING me s s' →
  (∀ r, parked me r s → parked me r s')
  ∧ (awake me s → awake me s')
  ∧ (is_Some (mem s !! me) → is_Some (mem s' !! me)).
Proof.
  intros Hinv Hstep.
  assert ((∀ r, parked me r s → parked me r s')
          ∧ ((is_woken <$> mem s' !! me) = (is_woken <$> mem s !! me)
             ∨ is_Some (mem s !! me) ∧ awake me s')) as [Hpark Hflag].
  2:{ split_and!; [done| |].
      - unfold awake. destruct Hflag as [->|[_ ?]]; done.
      - intros [r0 Hs]. destruct Hflag as [Heq|[_ Haw]].
        + rewrite Hs in Heq. by destruct (mem s' !! me).
        + unfold awake in Haw. by destruct (mem s' !! me). }
  pose proof (step_inv _ _ Hinv Hstep) as Hinv'.
  destruct Hinv as (l0 & Hrep0 & Hinv0).
  assert (∀ r, parked me r s → pending s' ⊆ pending s ∪ list_to_set l0 →
               (∀ l', fifo_rep s' l' → l' ⊆ l0 ∨ ∃ wr, wr ≠ me ∧ l' = l0 ++ [wr]) →
               mem s' !! me = mem s !! me → parked me r s') as Hmk.
  { intros r (Hl & Hp & Hr) Hsub Hfifo Hmem.
    pose proof (Hl _ Hrep0) as Hme. split_and!.
    - intros l' Hrep'. destruct (Hfifo _ Hrep') as [Hl'|(wr & Hwr & ->)].
      + intros Hin. by apply Hme, Hl'.
      + intros [?|Hin%list_elem_of_singleton]%elem_of_app; done.
    - intros Hin. apply Hsub in Hin.
      apply elem_of_union in Hin as [?|Hin%elem_of_list_to_set]; done.
    - by rewrite Hmem. }
  destruct Hstep as
    [s s' wr t um l Hne Hrep Hnin Hp Hrun | s s' wr ret Hne Hrun
    | s a r l Hne Hrep Hnin Hp | s s' tr Hrun
    | s s' l r Hrep Hrun | s a r n Ha Hr | s a r Ha Hr].
  - rewrite (fifo_rep_functional _ _ _ Hrep0 Hrep) in *.
    destruct (enqueue_inv _ _ _ _ _ _ (ex_intro _ l (conj Hrep Hinv0)) Hrep Hnin Hp Hrun)
      as (_ & Hrep' & Hp' & Hw' & Hfr').
    split; [|left; by apply Hw'].
    intros r Hpk. apply (Hmk r Hpk).
    + rewrite Hp'. apply union_subseteq_l.
    + intros l' Hl'. right. exists wr. split; [done|]. by eapply fifo_rep_functional.
    + apply Hfr'; [done|]. by apply Hpk.
  - destruct (decide (wr ∈ l0)) as [Hin|Hnin].
    + apply list_elem_of_split in Hin as (l1 & l2 & ->).
      destruct (wait_unlink_in _ _ _ _ Hrep0)
        as (s1 & Hrun1 & Hrep1 & _ & _ & Hp1 & Hw1 & Hfr1).
      rewrite Hrun1 in Hrun. injection Hrun as _ <-.
      split; [|by left]. intros r Hpk. apply (Hmk r Hpk).
      * rewrite Hp1. apply union_subseteq_l.
      * intros l' Hl'. left. rewrite (fifo_rep_functional _ _ _ Hl' Hrep1).
        intros a [?|?]%elem_of_app; apply elem_of_app; [by left|right; by right].
      * apply Hfr1. intros Hin. apply (proj1 Hpk _ Hrep0), elem_of_app. by left.
    + rewrite (wait_unlink_notin _ _ _ Hrep0 Hnin) in Hrun. injection Hrun as _ <-.
      split; [done|by left].
  - rewrite (fifo_rep_functional _ _ _ Hrep0 Hrep) in *.
    assert (fifo_rep (with_mem (<[a:=r]> (mem s)) s) l) as Hrep'.
    { destruct Hrep as [Hc Hn]. split; sproj; [|done]. by apply lseg_insert_other. }
    split.
    + intros r' Hpk. apply (Hmk r' Hpk).
      * sproj. apply union_subseteq_l.
      * intros l' Hl'. left. by rewrite (fifo_rep_functional _ _ _ Hl' Hrep').
      * sproj. by rewrite lookup_insert_ne.
    + left. sproj. by rewrite lookup_insert_ne.
  - destruct l0 as [|x l].
    + rewrite wake_one_locked_nil in Hrun by done. injection Hrun as <- <-.
      split; [|by left]. intros r Hpk. apply (Hmk r Hpk).
      * sproj. unfold sent. simpl. done.
      * intros l' Hl'. left. apply fifo_rep_pending in Hl'.
        by rewrite (fifo_rep_functional _ _ _ Hl' Hrep0).
      * done.
    + destruct (wake_one_locked_Done _ _ _ _ _ Hrep0 Hrun)
        as (rx & Hrep1 & Hrx & Hm1 & Hp1 & Hsent).
      split.
      * intros r Hpk. apply (Hmk r Hpk).
        -- sproj. rewrite Hp1. intros a [?|Hs%Hsent%elem_of_singleton]%elem_of_union.
           ++ apply elem_of_union. by left.
           ++ subst a. apply elem_of_union. right. apply elem_of_list_to_set. left.
        -- intros l' Hl'. left. apply fifo_rep_pending in Hl'.
           rewrite (fifo_rep_functional _ _ _ Hl' Hrep1). intros a ?. by right.
        -- sproj. rewrite Hm1. destruct WAIT_MORPHING; [done|].
           rewrite lookup_insert_ne; [done|]. intros ->.
           apply (proj1 Hpk _ Hrep0). left.
      * sproj. rewrite Hm1. destruct WAIT_MORPHING; [by left|].
        destruct (decide (x = me)) as [->|Hne].
        -- right. split; [done|]. unfold awake. sproj. by rewrite Hm1, lookup_insert_eq.
        -- left. by rewrite lookup_insert_ne.
  - rewrite (fifo_rep_functional _ _ _ Hrep0 Hrep) in *.
    destruct (wake_all_detach_rep WAIT_MORPHING s l Hrep)
      as (s1 & Hrun1 & Hrep1 & _ & Hm1 & _ & Hp1).
    rewrite Hrun1 in Hrun. injection Hrun as _ <-.
    split; [|left; sproj; by rewrite Hm1].
    intros r' Hpk. apply (Hmk r' Hpk).
    + sproj. by rewrite Hp1.
    + intros l' Hl'. left. apply fifo_rep_pending in Hl'.
      rewrite (fifo_rep_functional _ _ _ Hl' Hrep1). intros a Hin.
      by apply elem_of_nil in Hin.
    + sproj. by rewrite Hm1.
  - assert (fifo_rep (with_mem (<[a:=WaitRecord (wr_thread r) n (is_woken r)]> (mem s)) s) l0)
      as Hrep'.
    { destruct Hrep0 as [Hc Hn]. split; sproj; [|done]. apply lseg_insert_other; [|done].
      intros Hin. by destruct (Hinv0 a Hin). }
    split.
    + intros r' Hpk. apply (Hmk r' Hpk).
      * sproj. apply union_subseteq_l.
      * intros l' Hl'. left. by rewrite (fifo_rep_functional _ _ _ Hl' Hrep').
      * sproj. rewrite lookup_insert_ne; [done|]. intros ->. by apply Hpk.
    + left. sproj. destruct (decide (a = me)) as [->|Hne].
      * by rewrite lookup_insert_eq, Hr.
      * by rewrite lookup_insert_ne.
  - assert (fifo_rep (with_pending (pending s ∖ {[a]})
              (with_mem (<[a:=WaitRecord (wr_thread r) (next r) true]> (mem s)) s)) l0)
      as Hrep'.
    { destruct Hrep0 as [Hc Hn]. split; sproj; [|done]. apply lseg_insert_other; [|done].
      intros Hin. by destruct (Hinv0 a Hin). }
    split.
    + intros r' Hpk. apply (Hmk r' Hpk).
      * sproj. intros b [? _]%elem_of_difference. apply elem_of_union. by left.
      * intros l' Hl'. left. by rewrite (fifo_rep_functional _ _ _ Hl' Hrep').
      * sproj. rewrite lookup_insert_ne; [done|]. intros ->. by apply Hpk.
    + sproj. destruct (decide (a = me)) as [->|Hne].
      * right. split; [done|]. unfold awake. sproj. by rewrite lookup_insert_eq.
      * left. by rewrite lookup_insert_ne.
Qed.
End Protocol.


Section Waiter.
Variable WAIT_MORPHING : bool.
Variable env : nat -> state -> state.
Variable wr : addr.
Hypothesis Hrely : rely WAIT_MORPHING wr env.

(** The facts about the shared state and the record of the waiter that
    survive while the waiter is not running. *)
Lemma resume_stable s :
  inv s →
  inv (resume env s)
  ∧ (∀ r, parked wr r s → parked wr r (resume env s))
  ∧ (awake wr s → awake wr (resume env s))
  ∧ (is_Some (mem s !! wr) → is_Some (mem (resume env s) !! wr)).
Proof.
  intros Hinv. unfold resume.
  assert (∀ s', rtc (step WAIT_MORPHING wr) s s' →
            inv s' ∧ (∀ r, parked wr r s → parked wr r s')
            ∧ (awake wr s → awake wr s')
            ∧ (is_Some (mem s !! wr) → is_Some (mem s' !! wr))) as Hrtc.
  { intros s' Hsteps. induction Hsteps as [s|s s1 s2 Hstep Hsteps IH]; [done|].
    pose proof (step_inv _ _ _ _ Hinv Hstep) as Hinv1.
    destruct (step_record _ _ _ _ Hinv Hstep) as (Hp & Ha & Hs).
    destruct (IH Hinv1) as (Hinv2 & Hp2 & Ha2 & Hs2). split_and!; eauto. }
  destruct (Hrtc _ (Hrely (now s) s)) as (? & ? & ? & ?). done.
Qed.

Lemma wait_begin_Done current um s s' t :
  inv s → (∀ l, fifo_rep s l → wr ∉ l) → wr ∉ pending s →
  wait_begin WAIT_MORPHING env current wr um s = Done (tt, s', t) →
  inv s' ∧ is_Some (mem s' !! wr) ∧ t = begin_trace um
  ∧ (WAIT_MORPHING = true → user_mutex s' = um).
Proof.
  intros Hinv Hnin Hp Hrun.
  destruct (new_wait_record_inv s wr current Hinv Hnin Hp) as [Hinv1 Hpk1].
  unfold wait_begin, new_wait_record in Hrun. revert Hrun. mrun.
  set (s1 := with_mem _ s) in *.
  destruct (resume_stable s1 Hinv1) as (Hinv2 & Hpk2 & _). specialize (Hpk2 _ Hpk1).
  destruct Hinv2 as (l & Hrep2 & Hinv2). destruct Hpk2 as (Hnin2 & Hp2 & Hwr2).
  destruct (wait_enqueue WAIT_MORPHING wr um (resume env s1)) as [[[[] s3] t3]| | | |] eqn:Henq;
    try done.
  destruct (wait_enqueue_inv WAIT_MORPHING _ _ _ _ l _ _ (ex_intro _ l (conj Hrep2 Hinv2))
              Hrep2 (Hnin2 _ Hrep2) Hp2 Hwr2 eq_refl eq_refl Henq)
    as (Hinv3 & -> & Hrep3 & Hp3 & Hw3 & Hfr3 & Hum3).
  mrun. intros [= <- <-]. split_and!; try done.
  rewrite Hfr3 by (by apply Hnin2). by rewrite Hwr2.
Qed.

Lemma wait_Done tmr s s' t :
  inv s → is_Some (mem s !! wr) →
  wait env wr tmr s = Done (tt, s', t) →
  inv s' ∧ is_Some (mem s' !! wr) ∧ t = [Ev_wait wr tmr]
  ∧ (tmr = None → awake wr s').
Proof.
  intros Hinv Hs Hrun. destruct (resume_stable s Hinv) as (Hinv1 & _ & _ & Hs1).
  destruct (Hs1 Hs) as [r Hr].
  unfold wait in Hrun. revert Hrun. mrun.
  destruct (is_woken r || bool_decide (is_Some tmr)) eqn:Hw; [|done].
  mrun. intros [= <- <-]. split_and!; try done.
  intros ->. unfold awake. rewrite Hr. simpl. f_equal.
  rewrite bool_decide_false in Hw by (by intros []). by rewrite orb_false_r in Hw.
Qed.

Lemma woken_Done s s' w t :
  inv s → is_Some (mem s !! wr) →
  woken env wr s = Done (w, s', t) →
  inv s' ∧ is_Some (mem s' !! wr) ∧ t = []
  ∧ (awake wr s → w = true)
  ∧ (∀ r, parked wr r s → w = is_woken r ∧ parked wr r s')
  ∧ (w = true → awake wr s')
  ∧ s' = resume env s.
Proof.
  intros Hinv Hs Hrun. destruct (resume_stable s Hinv) as (Hinv1 & Hpk1 & Haw1 & Hs1).
  destruct (Hs1 Hs) as [r Hr].
  unfold woken in Hrun. revert Hrun. mrun. intros [= <- <- <-]. split_and!; try done.
  - intros Haw. apply Haw1 in Haw. unfold awake in Haw. rewrite Hr in Haw. by injection Haw.
  - intros r' Hpk. specialize (Hpk1 _ Hpk). split; [|done].
    destruct Hpk1 as (_ & _ & Hr'). congruence.
  - intros Hw. unfold awake. by rewrite Hr, <- Hw.
Qed.



Lemma wait_timeout_Done s s' ret t :
  inv s → is_Some (mem s !! wr) →
  wait_timeout env wr s = Done (ret, s', t) →
  inv s' ∧ is_Some (mem s' !! wr) ∧
  ∃ l, fifo_rep (resume env s) l ∧
    (((wr ∉ l) ∧ ret = 0%Z ∧ awake wr s' ∧ t = timeout_trace ++ [Ev_wait wr None])
     ∨ (∃ l1 l2 r,
          l = l1 ++ wr :: l2 ∧ ret = ETIMEDOUT
          ∧ wait_unlink wr (resume env s) = Done (ETIMEDOUT, s', [])
          ∧ fifo_rep s' (l1 ++ l2)
          ∧ parked wr r s' ∧ is_woken r = false ∧ t = timeout_trace)).
Proof.
  intros Hinv Hs Hrun. destruct (resume_stable s Hinv) as (Hinv1 & _ & _ & Hs1).
  specialize (Hs1 Hs). pose proof Hinv1 as (l & Hrep & Hl).
  unfold wait_timeout in Hrun. revert Hrun. mrun.
  destruct (decide (wr ∈ l)) as [Hin|Hnin].
  - apply list_elem_of_split in Hin as (l1 & l2 & ->).
    pose proof (chain_NoDup _ _ _ (proj1 Hrep)) as Hnd.
    destruct (wait_unlink_in _ _ _ _ Hrep) as (s2 & -> & Hrep2 & _ & _ & Hp2 & Hw2 & Hfr2).
    mrun. intros [= <- <- <-].
    assert ((wr ∉ l1) ∧ (wr ∉ l2)) as [Hwr1 Hwr2].
    { apply NoDup_app in Hnd as (_ & Hd & Hnd2). apply NoDup_cons in Hnd2 as [? _].
      split; [|done]. intros Hin. apply (Hd wr Hin). left. }
    destruct (Hl wr) as [Hwp Hww]; [apply elem_of_app; right; left|].
    destruct Hs1 as [r Hr]. rewrite Hr in Hww. injection Hww as Hww.
    split_and!.
    + exists (l1 ++ l2). split; [done|]. intros a Ha. rewrite Hp2, Hw2. apply Hl.
      apply elem_of_app in Ha as [?|?]; apply elem_of_app; [by left|right; by right].
    + rewrite Hfr2 by done. by rewrite Hr.
    + exists (l1 ++ wr :: l2). split; [done|]. right. exists l1, l2, r.
      split_and!; try done. split_and!.
      * intros l' Hl'. rewrite (fifo_rep_functional _ _ _ Hl' Hrep2).
        by intros [?|?]%elem_of_app.
      * by rewrite Hp2.
      * rewrite Hfr2 by done. done.
  - rewrite (wait_unlink_notin _ _ _ Hrep Hnin). mrun.
    rewrite bool_decide_true by done.
    destruct (wait env wr None (resume env s)) as [[[[] s3] t3]| | | |] eqn:Hwait; try done.
    destruct (wait_Done None _ _ _ Hinv1 Hs1 Hwait) as (Hinv3 & Hs3 & -> & Haw3).
    mrun. intros [= <- <- <-]. split_and!; try done.
    exists l. split; [done|]. left. split_and!; try done. by apply Haw3.
Qed.

Lemma wait_reacquire_Done um s s' t :
  inv s → is_Some (mem s !! wr) →
  wait_reacquire WAIT_MORPHING env wr um s = Done (tt, s', t) →
  (awake wr s →
   awake wr s'
   ∧ if WAIT_MORPHING then ∃ m, um = Some m ∧ t = [Ev_receive_lock m]
     else t = [Ev_mutex_lock (user_m um)])
  ∧ (∀ r, parked wr r s → is_woken r = false →
          parked wr r s' ∧ t = [Ev_mutex_lock (user_m um)]).
Proof.
  intros Hinv Hs Hrun. unfold wait_reacquire in Hrun.
  destruct (resume_stable s Hinv) as (Hinv1 & Hpk1 & Haw1 & Hs1).
  destruct (resume_stable _ Hinv1) as (Hinv2 & Hpk2 & Haw2 & Hs2).
  destruct (decide (WAIT_MORPHING = true)) as [Hm|Hm%not_true_is_false];
    rewrite Hm in Hrun |- *.
  - revert Hrun. mrun.
    destruct (woken env wr s) as [[[w s1] t1]| | | |] eqn:Hwoken; try done.
    destruct (woken_Done _ _ _ _ Hinv Hs Hwoken) as (_ & _ & -> & Haw & Hpk & _ & ->).
    mrun. intros Hrun. split.
    + intros Ha. rewrite (Haw Ha) in Hrun. destruct um as [m|]; [|done].
      revert Hrun. mrun. intros [= <- <-]. split; [by apply Haw1|by exists m].
    + intros r Hr Hw. destruct (Hpk r Hr) as [-> _]. rewrite Hw in Hrun.
      revert Hrun. mrun. intros [= <- <-]. split; [|done]. by apply Hpk2, Hpk1.
  - revert Hrun. mrun. intros [= <- <-]. split.
    + intros Ha. split; [by apply Haw1|done].
    + intros r Hr Hw. split; [by apply Hpk1|done].
Qed.

(** Every return of [condvar_wait]: the calls it has made and the path it
    has taken. *)
Lemma condvar_wait_Done current um tmr s s' ret tr :
  inv s → (∀ l, fifo_rep s l → wr ∉ l) → wr ∉ pending s →
  condvar_wait WAIT_MORPHING env current wr um tmr s = Done (ret, s', tr) →
  ∃ mid reacq,
    tr = begin_trace um ++ [Ev_wait wr tmr] ++ mid ++ reacq
    ∧ ((ret = 0%Z
        ∧ awake wr s'
        ∧ (mid = [] ∨ (tmr ≠ None ∧ mid = timeout_trace ++ [Ev_wait wr None]))
        ∧ (if WAIT_MORPHING then ∃ m, um = Some m ∧ reacq = [Ev_receive_lock m]
           else reacq = [Ev_mutex_lock (user_m um)]))
       ∨ (ret = ETIMEDOUT ∧ tmr ≠ None ∧ mid = timeout_trace
          ∧ reacq = [Ev_mutex_lock (user_m um)]
          ∧ ¬ awake wr s'
          ∧ ∃ s1 s2 l1 l2,
              fifo_rep s1 (l1 ++ wr :: l2)
              ∧ wait_unlink wr s1 = Done (ETIMEDOUT, s2, [])
              ∧ fifo_rep s2 (l1 ++ l2))).
Proof.
  intros Hinv Hnin Hp Hrun. unfold condvar_wait in Hrun.
  apply bind_Done_inv in Hrun as ([] & s1 & t1 & t1' & Hbegin & Hrun & ->).
  destruct (wait_begin_Done _ _ _ _ _ Hinv Hnin Hp Hbegin) as (Hinv1 & Hs1 & -> & _).
  apply bind_Done_inv in Hrun as ([] & s2 & t2 & t2' & Hwait & Hrun & ->).
  destruct (wait_Done _ _ _ _ Hinv1 Hs1 Hwait) as (Hinv2 & Hs2 & -> & Haw2).
  apply bind_Done_inv in Hrun as (w & s3 & t3 & t3' & Hwoken & Hrun & ->).
  destruct (woken_Done _ _ _ _ Hinv2 Hs2 Hwoken) as (Hinv3 & Hs3 & -> & Haw3 & _ & Hw3 & _).
  apply bind_Done_inv in Hrun as (ret' & s4 & t4 & t4' & Hmid & Hrun & ->).
  apply bind_Done_inv in Hrun as ([] & s5 & t5 & t5' & Hre & Hrun & ->).
  injection Hrun as -> <- <-. exists t4, t5. rewrite app_nil_r. split; [done|].
  destruct w; cbn [negb] in Hmid.
  - injection Hmid as <- <- <-.
    destruct (wait_reacquire_Done _ _ _ _ Hinv3 Hs3 Hre) as [Hre1 _].
    destruct (Hre1 (Hw3 eq_refl)) as [? ?]. left. split_and!; [done|done|by left|done].
  - assert (tmr ≠ None) as Htmr.
    { intros Hn. specialize (Haw3 (Haw2 Hn)). done. }
    destruct (wait_timeout_Done _ _ _ _ Hinv3 Hs3 Hmid)
      as (Hinv4 & Hs4 & l & Hrep &
          [(Hl & -> & Haw4 & ->)|(l1 & l2 & r & -> & -> & Hun & Hrep4 & Hpk4 & Hr & ->)]).
    + destruct (wait_reacquire_Done _ _ _ _ Hinv4 Hs4 Hre) as [Hre1 _].
      destruct (Hre1 Haw4) as [? ?]. left. split_and!; [done|done|by right|done].
    + destruct (wait_reacquire_Done _ _ _ _ Hinv4 Hs4 Hre) as [_ Hre2].
      destruct (Hre2 r Hpk4 Hr) as [(_ & _ & Hr5) ->].
      right. split_and!; try done.
      * unfold awake. rewrite Hr5. simpl. by rewrite Hr.
      * by exists (resume env s3), s4, l1, l2.
Qed.

End Waiter.

(** ** The ways in which condvar_wait ends *)

Section Progress.

Variable WAIT_MORPHING : bool.
Variable env : nat -> state -> state.
Variable wr : addr.
Hypothesis Hrely : rely WAIT_MORPHING wr env.

Lemma wait_begin_total current um s :
  inv s → (∀ l, fifo_rep s l → wr ∉ l) → wr ∉ pending s →
  (∃ s', wait_begin WAIT_MORPHING env current wr um s = Done (tt, s', begin_trace um))
  ∨ (wait_begin WAIT_MORPHING env current wr um s = Abort
     ∧ WAIT_MORPHING = true
     ∧ ∃ m, user_mutex (at_lock env current wr s) = Some m ∧ um ≠ Some m).
Proof.
  intros Hinv Hnin Hp.
  destruct (new_wait_record_inv s wr current Hinv Hnin Hp) as [Hinv1 Hpk1].
  destruct (resume_stable WAIT_MORPHING env wr Hrely _ Hinv1) as (Hinv2 & Hpk2 & _).
  specialize (Hpk2 _ Hpk1). fold (at_lock env current wr s) in Hinv2, Hpk2.
  destruct Hinv2 as (l & Hrep & _). destruct Hpk2 as (Hnin2 & _ & Hwr).
  specialize (Hnin2 _ Hrep).
  assert ((WAIT_MORPHING = true →
           user_mutex (at_lock env current wr s) = None
           ∨ user_mutex (at_lock env current wr s) = um)
          ∨ (WAIT_MORPHING = true
             ∧ ∃ m, user_mutex (at_lock env current wr s) = Some m ∧ um ≠ Some m))
    as [Hok|(Hm & m & Hum & Hne)].
  { destruct (decide (WAIT_MORPHING = true)) as [Hm|Hm]; [|by left].
    destruct (user_mutex (at_lock env current wr s)) as [m|] eqn:Hum; [|left; by left].
    destruct (decide (um = Some m)) as [->|Hne]; [left; by right|].
    right. split; [done|]. by exists m. }
  - left. destruct (wait_begin_ok WAIT_MORPHING env current wr um s l _ Hrep Hnin2 Hwr eq_refl Hok)
      as (s' & Hrun & _). by exists s'.
  - right. split_and!; [|done|by exists m]. by eapply wait_begin_abort.
Qed.

Lemma wait_quiet tmr s : is_Some (mem (resume env s) !! wr) → quiet (wait env wr tmr s).
Proof.
  intros [r Hr]. unfold wait. mrun.
  by destruct (is_woken r || bool_decide (is_Some tmr)).
Qed.

Lemma woken_quiet s : is_Some (mem (resume env s) !! wr) → quiet (woken env wr s).
Proof. intros [r Hr]. unfold woken. by mrun. Qed.

Lemma wait_timeout_quiet s :
  inv s → is_Some (mem s !! wr) → quiet (wait_timeout env wr s).
Proof.
  intros Hinv Hs.
  destruct (resume_stable WAIT_MORPHING env wr Hrely _ Hinv) as (Hinv1 & _ & _ & Hs1).
  specialize (Hs1 Hs). destruct Hinv1 as (l & Hrep & Hl).
  unfold wait_timeout. mrun.
  destruct (decide (wr ∈ l)) as [Hin|Hnin].
  - apply list_elem_of_split in Hin as (l1 & l2 & ->).
    destruct (wait_unlink_in _ _ _ _ Hrep) as (s2 & -> & _). by mrun.
  - rewrite (wait_unlink_notin _ _ _ Hrep Hnin). mrun. rewrite bool_decide_true by done.
    apply quiet_prepend, quiet_prepend.
    pose proof (wait_quiet None (resume env s)) as Hq.
    destruct (wait env wr None (resume env s)) as [[[[] s3] t3]| | | |] eqn:Hwait; try done.
    all: apply Hq.
    all: destruct (resume_stable WAIT_MORPHING env wr Hrely (resume env s))
           as (_ & _ & _ & Hs2); [by exists l|by apply Hs2].
Qed.

Lemma wait_reacquire_quiet um s :
  inv s → is_Some (mem s !! wr) → (WAIT_MORPHING = true → um ≠ None) →
  quiet (wait_reacquire WAIT_MORPHING env wr um s).
Proof.
  intros Hinv Hs Hum. unfold wait_reacquire.
  destruct (resume_stable WAIT_MORPHING env wr Hrely _ Hinv) as (_ & _ & _ & Hs1).
  destruct (Hs1 Hs) as [r Hr].
  destruct (decide (WAIT_MORPHING = true)) as [Hm|Hm%not_true_is_false]; rewrite Hm.
  - unfold woken. mrun. destruct (is_woken r); [|by mrun].
    destruct um as [m|]; [by mrun|by destruct (Hum Hm)].
  - by mrun.
Qed.

(** [condvar_wait] returns or sleeps for ever, unless the assertion on the
    user mutex fails. *)
Lemma condvar_wait_quiet current um tmr s :
  inv s → (∀ l, fifo_rep s l → wr ∉ l) → wr ∉ pending s →
  (WAIT_MORPHING = true → um ≠ None) →
  quiet (condvar_wait WAIT_MORPHING env current wr um tmr s)
  ∨ (condvar_wait WAIT_MORPHING env current wr um tmr s = Abort
     ∧ WAIT_MORPHING = true
     ∧ ∃ m, user_mutex (at_lock env current wr s) = Some m ∧ um ≠ Some m).
Proof.
  intros Hinv Hnin Hp Hum.
  destruct (wait_begin_total current um s Hinv Hnin Hp)
    as [(s1 & Hbegin)|(Hbegin & Hab)].
  2:{ right. split; [|done]. unfold condvar_wait. by rewrite run_bind, Hbegin. }
  left. unfold condvar_wait.
  destruct (wait_begin_Done _ _ _ Hrely _ _ _ _ _ Hinv Hnin Hp Hbegin) as (Hinv1 & Hs1 & _).
  apply quiet_bind; [by rewrite Hbegin|]. rewrite Hbegin. intros [] ? ? [= <- <-].
  destruct (resume_stable WAIT_MORPHING env wr Hrely _ Hinv1) as (_ & _ & _ & Hs1').
  apply quiet_bind; [by apply wait_quiet, Hs1'|]. intros [] s2 t2 Hwait.
  destruct (wait_Done _ _ _ Hrely _ _ _ _ Hinv1 Hs1 Hwait) as (Hinv2 & Hs2 & _).
  destruct (resume_stable WAIT_MORPHING env wr Hrely _ Hinv2) as (_ & _ & _ & Hs2').
  apply quiet_bind; [by apply woken_quiet, Hs2'|]. intros w s3 t3 Hwoken.
  destruct (woken_Done _ _ _ Hrely _ _ _ _ Hinv2 Hs2 Hwoken) as (Hinv3 & Hs3 & _).
  apply quiet_bind.
  { destruct w; cbn [negb]; [done|by apply wait_timeout_quiet]. }
  intros ret s4 t4 Hmid.
  assert (inv s4 ∧ is_Some (mem s4 !! wr)) as [Hinv4 Hs4].
  { destruct w; cbn [negb] in Hmid.
    - by injection Hmid as <- <- <-.
    - by destruct (wait_timeout_Done _ _ _ Hrely _ _ _ _ Hinv3 Hs3 Hmid) as (? & ? & _). }
  apply quiet_bind; [by apply wait_reacquire_quiet|]. done.
Qed.

End Progress.

(** ** The timeout path, the reacquisition of the user mutex and the timer *)

Section Waiting.
Variable WAIT_MORPHING : bool.
Variable env : nat -> state -> state.

Lemma wait_Done_raw wr tmr s s' t :
  wait env wr tmr s = Done (tt, s', t) →
  s' = resume env s ∧ t = [Ev_wait wr tmr] ∧ (tmr = None → awake wr s').
Proof.
  unfold wait. mrun.
  destruct (mem (resume env s) !! wr) as [r|] eqn:Hr.
  - mrun. destruct (is_woken r || bool_decide (is_Some tmr)) eqn:Hw; [|done].
    mrun. intros [= <- <-]. split_and!; try done.
    intros ->. unfold awake. rewrite Hr. simpl. f_equal.
    rewrite bool_decide_false in Hw by (by intros []). by rewrite orb_false_r in Hw.
  - by rewrite (run_load_None _ _ Hr).
Qed.

(** The part of condvar_wait that follows the test of line 57. *)
Lemma condvar_wait_after_woken current wr um tmr s w s3 t :
  (wait_begin WAIT_MORPHING env current wr um ;; wait env wr tmr ;; woken env wr) s
  = Done (w, s3, t) →
  condvar_wait WAIT_MORPHING env current wr um tmr s
  = prepend t
      (and_then ((if negb w then wait_timeout env wr else mret 0%Z) s3)
         (λ ret, wait_reacquire WAIT_MORPHING env wr um ≫= λ _, mret ret)).
Proof.
  intros Hrun.
  apply bind_Done_inv in Hrun as ([] & s1 & t1 & t1' & Hbegin & Hrun & ->).
  apply bind_Done_inv in Hrun as ([] & s2 & t2 & t2' & Hwait & Hwoken & ->).
  unfold condvar_wait. rewrite run_bind, Hbegin. cbn [and_then].
  rewrite run_bind, Hwait. cbn [and_then].
  rewrite run_bind, Hwoken. cbn [and_then].
  rewrite run_bind, !prepend_prepend. by rewrite app_assoc.
Qed.

(** C1: in condvar_wait, when wait(tmr) has returned and woken() is false,
    and the record is not in the FIFO when the waiter holds the internal
    mutex, the waiter calls wait() on the record again, without a timer,
    and condvar_wait returns 0, not ETIMEDOUT; when the record is in the
    FIFO the waiter unlinks it and condvar_wait returns ETIMEDOUT; and
    condvar_wait returns ETIMEDOUT in no other case.  [s3] is the state
    after the test of line 57 and [t] the calls made up to it. *)
Theorem C1_timeout_race current wr um tmr s w s3 t l :
  (wait_begin WAIT_MORPHING env current wr um ;; wait env wr tmr ;; woken env wr) s
  = Done (w, s3, t) →
  fifo_rep (resume env s3) l →
  (w = false → wr ∉ l →
     wait_timeout env wr s3
     = prepend timeout_trace
         (and_then (wait env wr None (resume env s3)) (λ _, mret 0%Z))
     ∧ condvar_wait WAIT_MORPHING env current wr um tmr s
       = prepend (t ++ timeout_trace)
           (and_then (wait env wr None (resume env s3))
              (λ _, wait_reacquire WAIT_MORPHING env wr um ≫= λ _, mret 0%Z))
     ∧ ∀ ret s' tr,
         condvar_wait WAIT_MORPHING env current wr um tmr s = Done (ret, s', tr) →
         ret = 0%Z ∧ ret ≠ ETIMEDOUT
         ∧ ∃ s5 reacq,
             wait env wr None (resume env s3) = Done (tt, s5, [Ev_wait wr None])
             ∧ awake wr s5
             ∧ wait_reacquire WAIT_MORPHING env wr um s5 = Done (tt, s', reacq)
             ∧ tr = t ++ timeout_trace ++ [Ev_wait wr None] ++ reacq)
  ∧ (w = false → ∀ l1 l2, l = l1 ++ wr :: l2 →
       ∃ s4,
         wait_unlink wr (resume env s3) = Done (ETIMEDOUT, s4, [])
         ∧ fifo_rep s4 (l1 ++ l2)
         ∧ wait_timeout env wr s3 = Done (ETIMEDOUT, s4, timeout_trace)
         ∧ condvar_wait WAIT_MORPHING env current wr um tmr s
           = prepend (t ++ timeout_trace)
               (and_then (wait_reacquire WAIT_MORPHING env wr um s4)
                  (λ _, mret ETIMEDOUT))
         ∧ ∀ ret s' tr,
             condvar_wait WAIT_MORPHING env current wr um tmr s = Done (ret, s', tr) →
             ret = ETIMEDOUT
             ∧ ∃ reacq,
                 wait_reacquire WAIT_MORPHING env wr um s4 = Done (tt, s', reacq)
                 ∧ tr = t ++ timeout_trace ++ reacq)
  ∧ (w = true →
       ∀ ret s' tr,
         condvar_wait WAIT_MORPHING env current wr um tmr s = Done (ret, s', tr) →
         ret = 0%Z)
  ∧ (∀ s' tr,
       condvar_wait WAIT_MORPHING env current wr um tmr s = Done (ETIMEDOUT, s', tr) →
       w = false ∧ wr ∈ l
       ∧ ∃ s4, wait_unlink wr (resume env s3) = Done (ETIMEDOUT, s4, [])).
Proof.
  intros Hpre Hrep.
  pose proof (condvar_wait_after_woken current wr um tmr s w s3 t Hpre) as Heq.
  assert (wr ∉ l →
          wait_timeout env wr s3
          = prepend timeout_trace
              (and_then (wait env wr None (resume env s3)) (λ _, mret 0%Z))) as Hnotin.
  { intros Hnin. unfold wait_timeout. mrun.
    rewrite (wait_unlink_notin _ _ _ Hrep Hnin). mrun.
    rewrite bool_decide_true by done. rewrite prepend_prepend. cbn [app].
    by destruct (wait env wr None (resume env s3)) as [[[[] s1] t1]| | | |]. }
  assert (∀ l1 l2, l = l1 ++ wr :: l2 →
       ∃ s4, wait_unlink wr (resume env s3) = Done (ETIMEDOUT, s4, [])
             ∧ fifo_rep s4 (l1 ++ l2)
             ∧ wait_timeout env wr s3 = Done (ETIMEDOUT, s4, timeout_trace)) as Hin.
  { intros l1 l2 ->. destruct (wait_unlink_in _ _ _ _ Hrep) as (s4 & Hrun & Hrep' & _).
    exists s4. split_and!; try done. unfold wait_timeout. mrun. rewrite Hrun. by mrun. }
  assert (w = false → wr ∉ l →
          condvar_wait WAIT_MORPHING env current wr um tmr s
          = prepend (t ++ timeout_trace)
              (and_then (wait env wr None (resume env s3))
                 (λ _, wait_reacquire WAIT_MORPHING env wr um ≫= λ _, mret 0%Z))) as Hlost.
  { intros -> Hnin. rewrite Heq. cbn [negb]. rewrite (Hnotin Hnin).
    destruct (wait env wr None (resume env s3)) as [[[[] s5] t5]| | | |]; try done.
    cbn [and_then prepend]. rewrite run_ret. cbn [prepend and_then].
    rewrite app_nil_r, !prepend_prepend. by rewrite app_assoc. }
  assert (w = false → ∀ l1 l2 s4, l = l1 ++ wr :: l2 →
          wait_timeout env wr s3 = Done (ETIMEDOUT, s4, timeout_trace) →
          condvar_wait WAIT_MORPHING env current wr um tmr s
          = prepend (t ++ timeout_trace)
              (and_then (wait_reacquire WAIT_MORPHING env wr um s4)
                 (λ _, mret ETIMEDOUT))) as Hto.
  { intros -> l1 l2 s4 _ Hrun. rewrite Heq. cbn [negb]. rewrite Hrun. cbn [and_then].
    rewrite run_bind, !prepend_prepend. done. }
  split_and!.
  - intros Hw Hnin. split; [by apply Hnotin|]. split; [by apply Hlost|].
    intros ret s' tr. rewrite (Hlost Hw Hnin).
    destruct (wait env wr None (resume env s3)) as [[[[] s5] t5]| | | |] eqn:Hwait; try done.
    destruct (wait_Done_raw _ _ _ _ _ Hwait) as (-> & -> & Haw).
    cbn [and_then]. rewrite run_bind.
    destruct (wait_reacquire WAIT_MORPHING env wr um (resume env (resume env s3)))
      as [[[[] s6] t6]| | | |] eqn:Hre; try done.
    cbn [and_then prepend]. rewrite run_ret. cbn [prepend].
    intros [= <- <- <-]. split; [done|]. split; [done|].
    exists (resume env (resume env s3)), t6. split_and!; try done.
    + by apply Haw.
    + by rewrite app_nil_r, <- !app_assoc.
  - intros Hw l1 l2 Hl. destruct (Hin l1 l2 Hl) as (s4 & Hun & Hrep4 & Hrun4).
    exists s4. split_and!; try done; [by eapply Hto|].
    intros ret s' tr. rewrite (Hto Hw l1 l2 s4 Hl Hrun4).
    destruct (wait_reacquire WAIT_MORPHING env wr um s4) as [[[[] s6] t6]| | | |] eqn:Hre;
      try done.
    cbn [and_then prepend]. rewrite run_ret. cbn [prepend].
    intros [= <- <- <-]. split; [done|]. exists t6. split; [done|].
    by rewrite app_nil_r, <- !app_assoc.
  - intros -> ret s' tr. rewrite Heq. cbn [negb]. rewrite run_ret. cbn [and_then].
    rewrite run_bind.
    destruct (wait_reacquire WAIT_MORPHING env wr um s3) as [[[[] s6] t6]| | | |];
      try done.
    cbn [and_then prepend]. rewrite run_ret. cbn [prepend]. by intros [= <- _ _].
  - intros s' tr Hrun.
    destruct w.
    { exfalso. revert Hrun. rewrite Heq. cbn [negb]. rewrite run_ret. cbn [and_then].
      rewrite run_bind.
      destruct (wait_reacquire WAIT_MORPHING env wr um s3) as [[[[] s6] t6]| | | |];
        done. }
    split; [done|]. destruct (decide (wr ∈ l)) as [Hwr|Hnin].
    + split; [done|]. apply list_elem_of_split in Hwr as (l1 & l2 & ->).
      destruct (Hin l1 l2 eq_refl) as (s4 & Hun & _). by exists s4.
    + exfalso. revert Hrun. rewrite (Hlost eq_refl Hnin).
      destruct (wait env wr None (resume env s3)) as [[[[] s5] t5]| | | |]; try done.
      cbn [and_then]. rewrite run_bind.
      destruct (wait_reacquire WAIT_MORPHING env wr um s5) as [[[[] s6] t6]| | | |];
        done.
Qed.

(** The same for the whole call: condvar_wait returns 0 or ETIMEDOUT, and
    ETIMEDOUT only after it has found its record in the FIFO and unlinked
    it; it returns 0 only with its record flagged woken. *)
Lemma condvar_wait_ret current wr um tmr s s' ret tr :
  rely WAIT_MORPHING wr env →
  inv s → (∀ l, fifo_rep s l → wr ∉ l) → wr ∉ pending s →
  condvar_wait WAIT_MORPHING env current wr um tmr s = Done (ret, s', tr) →
  (ret = 0%Z ∧ awake wr s')
  ∨ (ret = ETIMEDOUT ∧ tmr ≠ None ∧ ¬ awake wr s'
     ∧ ∃ s1 s2 l1 l2,
         fifo_rep s1 (l1 ++ wr :: l2)
         ∧ wait_unlink wr s1 = Done (ETIMEDOUT, s2, [])
         ∧ fifo_rep s2 (l1 ++ l2)).
Proof.
  intros Hrely Hinv Hnin Hp Hrun.
  destruct (condvar_wait_Done _ _ _ Hrely _ _ _ _ _ _ _ Hinv Hnin Hp Hrun)
    as (mid & reacq & -> & [(-> & Haw & _)|(-> & Htmr & _ & _ & Haw & Hun)]).
  - by left.
  - by right.
Qed.

(** C6: on every return of condvar_wait the caller holds the user mutex,
    and it has reacquired it exactly once, as its last call: with wait
    morphing a woken waiter, to which the mutex has been handed, only calls
    receive_lock; on the timed-out path, and without wait morphing, the
    waiter calls mutex_lock. *)
Theorem C6_reacquire_once current wr um tmr s s' ret tr :
  rely WAIT_MORPHING wr env →
  inv s → (∀ l, fifo_rep s l → wr ∉ l) → wr ∉ pending s →
  condvar_wait WAIT_MORPHING env current wr um tmr s = Done (ret, s', tr) →
  holds_user_mutex um wr s' tr
  ∧ ((ret = 0%Z ∧ awake wr s'
      ∧ if WAIT_MORPHING then
          ∃ m, um = Some m ∧ reacquisitions tr = [by_receive_lock m]
               ∧ last tr = Some (Ev_receive_lock m)
        else reacquisitions tr = [by_mutex_lock um]
             ∧ last tr = Some (Ev_mutex_lock (user_m um)))
     ∨ (ret = ETIMEDOUT ∧ ¬ awake wr s'
        ∧ reacquisitions tr = [by_mutex_lock um]
        ∧ last tr = Some (Ev_mutex_lock (user_m um)))).
Proof.
  intros Hrely Hinv Hnin Hp Hrun. unfold holds_user_mutex.
  destruct (condvar_wait_Done _ _ _ Hrely _ _ _ _ _ _ _ Hinv Hnin Hp Hrun)
    as (mid & reacq & -> & [(-> & Haw & Hmid & Hre)|(-> & _ & -> & -> & Haw & _)]).
  - assert (reacquisitions (begin_trace um ++ [Ev_wait wr tmr] ++ mid ++ reacq)
            = reacquisitions reacq) as ->.
    { unfold reacquisitions. rewrite !omap_app.
      destruct Hmid as [->|[_ ->]]; reflexivity. }
    rewrite !app_assoc.
    destruct WAIT_MORPHING.
    + destruct Hre as (m & -> & ->). rewrite last_snoc. split.
      * right. by exists m.
      * left. split; [done|]. split; [done|]. by exists m.
    + rewrite Hre, last_snoc. split; [by left|]. by left.
  - rewrite !app_assoc, last_snoc. split; [by left|]. by right.
Qed.

(** C9: an expiration of 0 arms no timer: the waiter sleeps on its record
    without a timeout and never returns ETIMEDOUT; any other expiration sets
    a timer to that time and waits with it. *)
Theorem C9_expiration_zero current wr um expiration s :
  rely WAIT_MORPHING wr env →
  inv s → (∀ l, fifo_rep s l → wr ∉ l) → wr ∉ pending s →
  (expiration = 0%Z →
     condvar_wait_expiration WAIT_MORPHING env current wr um expiration s
     = condvar_wait WAIT_MORPHING env current wr um None s
     ∧ ∀ ret s' tr,
         condvar_wait_expiration WAIT_MORPHING env current wr um expiration s
         = Done (ret, s', tr) →
         ret = 0%Z ∧ ret ≠ ETIMEDOUT
         ∧ ∃ reacq, tr = begin_trace um ++ [Ev_wait wr None] ++ reacq
                    ∧ length reacq = 1)
  ∧ (expiration ≠ 0%Z →
       condvar_wait_expiration WAIT_MORPHING env current wr um expiration s
       = prepend [Ev_timer_set current expiration]
           (condvar_wait WAIT_MORPHING env current wr um (Some expiration) s)
       ∧ ∀ ret s' tr,
           condvar_wait_expiration WAIT_MORPHING env current wr um expiration s
           = Done (ret, s', tr) →
           ∃ tr', tr = [Ev_timer_set current expiration] ++ begin_trace um
                       ++ [Ev_wait wr (Some expiration)] ++ tr').
Proof.
  intros Hrely Hinv Hnin Hp. split.
  - intros ->. split; [done|]. intros ret s' tr Hrun.
    change (condvar_wait WAIT_MORPHING env current wr um None s = Done (ret, s', tr)) in Hrun.
    destruct (condvar_wait_Done _ _ _ Hrely _ _ _ _ _ _ _ Hinv Hnin Hp Hrun)
      as (mid & reacq & -> & [(-> & Haw & Hmid & Hre)|(-> & Htmr & _)]); [|done].
    split; [done|]. split; [done|]. destruct Hmid as [->|[? _]]; [|done].
    exists reacq. split; [done|]. destruct WAIT_MORPHING.
    + by destruct Hre as (m & _ & ->).
    + by rewrite Hre.
  - intros Hne.
    assert (condvar_wait_expiration WAIT_MORPHING env current wr um expiration s
            = prepend [Ev_timer_set current expiration]
                (condvar_wait WAIT_MORPHING env current wr um (Some expiration) s)) as Heq.
    { unfold condvar_wait_expiration. rewrite bool_decide_true by done. by mrun. }
    split; [done|]. intros ret s' tr. rewrite Heq.
    destruct (condvar_wait _ _ _ _ _ _ s) as [[[ret1 s1] t1]| | | |] eqn:Hrun; try done.
    cbn [prepend]. intros [= <- <- <-].
    destruct (condvar_wait_Done _ _ _ Hrely _ _ _ _ _ _ _ Hinv Hnin Hp Hrun)
      as (mid & reacq & -> & _).
    by exists (mid ++ reacq).
Qed.

(** C10: with wait morphing, when every condvar_wait supplies a user mutex,
    each operation keeps a remembered user mutex for a non-empty FIFO, so
    that the handoff of condvar_wake_one always finds the mutex. *)
Theorem C10_user_mutex_known s l :
  WAIT_MORPHING = true →
  fifo_rep s l → mutex_known s →
  (∀ wr t um,
     wr ∉ l → um ≠ None → user_mutex s = None ∨ user_mutex s = um →
     ∃ s', (new_wait_record wr t ≫= λ _, wait_enqueue WAIT_MORPHING wr um) s
           = Done (tt, s', [])
           ∧ fifo_rep s' (l ++ [wr]) ∧ mutex_known s')
  ∧ (∃ s' t, wake_one_locked WAIT_MORPHING s = Done (tt, s', t)
             ∧ fifo_rep s' (tail l) ∧ mutex_known s')
  ∧ (∃ wr um s', wake_all_detach WAIT_MORPHING s = Done ((wr, um), s', [])
                 ∧ fifo_rep s' [] ∧ mutex_known s' ∧ (l ≠ [] → um ≠ None))
  ∧ (∀ wr, ∃ ret s' l', wait_unlink wr s = Done (ret, s', [])
                        ∧ fifo_rep s' l' ∧ mutex_known s').
Proof.
  intros Hm Hrep Hknown. split_and!.
  - intros wr t um Hnin Hum Hassert.
    pose proof (new_wait_record_rep s l wr t Hrep Hnin) as Hrep1.
    destruct (wait_enqueue_rep WAIT_MORPHING _ _ _ um (WaitRecord t None false) Hrep1 Hnin)
      as (s' & Hrun & Hrep' & Hum' & _); try done.
    { sproj. apply lookup_insert_eq. }
    unfold new_wait_record. mrun. rewrite Hrun. exists s'.
    split_and!; try done. intros _. by rewrite Hum', Hm.
  - destruct l as [|x l].
    + rewrite (wake_one_locked_nil _ _ Hrep). by exists s, [].
    + assert (oldest s ≠ None) as Ho by (by destruct Hrep as [(-> & _) _]).
      destruct (user_mutex s) as [m|] eqn:Hum; [|by destruct (Hknown Ho)].
      destruct (wake_one_locked_cons WAIT_MORPHING s x l m Hrep (λ _, Hum))
        as (s' & rx & Hrun & Hrep' & Hum' & _).
      exists s', [handoff WAIT_MORPHING m x]. split_and!; try done.
      intros Ho'. rewrite Hum', Hm. destruct l; [|by rewrite Hum].
      by destruct Hrep' as [? _].
  - destruct (wake_all_detach_rep WAIT_MORPHING s l Hrep) as (s' & Hrun & Hrep' & _).
    eexists _, _, s'. split_and!; try done.
    + intros Ho'. by destruct Hrep' as [? _].
    + intros Hl. rewrite Hm. apply Hknown. intros Ho. by apply Hl, (fifo_rep_null s l Hrep).
  - intros wr. destruct (wait_unlink_total s l wr Hrep)
      as (ret & s' & l' & Hrun & Hrep' & Hsub & Hum').
    exists ret, s', l'. split_and!; try done.
    intros Ho'. rewrite Hum'. apply Hknown.
    intros Ho. apply (fifo_rep_null s l Hrep) in Ho. subst l.
    apply Ho', (fifo_rep_null s' l' Hrep'). destruct l' as [|a l']; [done|].
    destruct (not_elem_of_nil a). apply Hsub. left.
Qed.

End Waiting.

(** ** The order in which condvar_wake_all hands off *)

Lemma group_split_perm cpu_of cpu_wr : ∀ todo n,
  todo ≡ₚ (group_split cpu_of cpu_wr n todo).1 ++ (group_split cpu_of cpu_wr n todo).2.
Proof.
  induction todo as [|x todo IH]; intros n; [done|]. cbn [group_split].
  destruct (bool_decide (cpu_of n x = cpu_wr)); cbn [fst snd].
  - simpl. constructor. apply IH.
  - rewrite <- Permutation_middle. constructor. apply IH.
Qed.

Lemma group_split_length cpu_of cpu_wr todo n :
  length (group_split cpu_of cpu_wr n todo).2 ≤ length todo.
Proof.
  rewrite (group_split_perm cpu_of cpu_wr todo n) at 2. rewrite length_app. lia.
Qed.

Lemma group_split_stable (f : addr → cpu) cpu_wr : ∀ todo n,
  group_split (λ _ x, f x) cpu_wr n todo
  = (filter (λ b, f b = cpu_wr) todo, filter (λ b, f b ≠ cpu_wr) todo).
Proof.
  induction todo as [|x todo IH]; intros n; [done|]. cbn [group_split].
  rewrite IH. cbn [fst snd]. rewrite !filter_cons.
  destruct (decide (f x = cpu_wr)) as [Heq|Hne].
  - rewrite bool_decide_true by done. by rewrite decide_False by (by intros ?).
  - rewrite bool_decide_false by done. by rewrite decide_True by done.
Qed.

Lemma walk_order_stable (f : addr → cpu) : ∀ fuel n l,
  walk_order fuel (λ _ x, f x) n l = affinity_order fuel f l.
Proof.
  induction fuel as [|fuel IH]; intros n l; [done|]. destruct l as [|a l]; [done|].
  cbn [walk_order affinity_order]. rewrite group_split_stable. cbn [fst snd].
  by rewrite IH.
Qed.

Lemma walk_order_ext cpu_of cpu_of' : ∀ fuel n l,
  (∀ k x, cpu_of k x = cpu_of' k x) →
  walk_order fuel cpu_of n l = walk_order fuel cpu_of' n l.
Proof.
  intros fuel n l Hext.
  assert (∀ cw todo k, group_split cpu_of cw k todo = group_split cpu_of' cw k todo) as Hg.
  { intros cw todo. induction todo as [|x todo IH]; intros k; [done|].
    cbn [group_split]. by rewrite IH, Hext. }
  revert n l. induction fuel as [|fuel IH]; intros n l; [done|].
  destruct l as [|a l]; [done|]. cbn [walk_order]. by rewrite Hg, Hext, IH.
Qed.

Lemma walk_order_perm cpu_of : ∀ fuel n l,
  length l ≤ fuel → walk_order fuel cpu_of n l ≡ₚ l.
Proof.
  induction fuel as [|fuel IH]; intros n l Hlen.
  { destruct l; [done|simpl in Hlen; lia]. }
  destruct l as [|a l]; [done|]. cbn [walk_order]. simpl in Hlen. constructor.
  rewrite IH.
  - symmetry. apply group_split_perm.
  - etrans; [apply group_split_length|lia].
Qed.

Lemma filter_filter_imp {A} (P Q : A → Prop) `{∀ x, Decision (P x)} `{∀ x, Decision (Q x)}
    (l : list A) :
  (∀ x, P x → Q x) → filter P (filter Q l) = filter P l.
Proof.
  intros HPQ. induction l as [|x l IH]; [done|]. rewrite !filter_cons.
  destruct (decide (Q x)) as [HQ|HQ].
  - rewrite filter_cons. destruct (decide (P x)); by rewrite IH.
  - rewrite decide_False by (intros HP; by apply HQ, HPQ). done.
Qed.

Lemma filter_filter_excl {A} (P Q : A → Prop) `{∀ x, Decision (P x)} `{∀ x, Decision (Q x)}
    (l : list A) :
  (∀ x, P x → ¬ Q x) → filter P (filter Q l) = [].
Proof.
  intros HPQ. induction l as [|x l IH]; [done|]. rewrite filter_cons.
  destruct (decide (Q x)) as [HQ|HQ]; [|done].
  rewrite filter_cons. rewrite decide_False by (intros HP; by apply (HPQ x)). done.
Qed.

(** The handoffs to the records of one CPU are in the order of the list. *)
Lemma affinity_order_filter (f : addr → cpu) c : ∀ fuel l,
  length l ≤ fuel →
  filter (λ b, f b = c) (affinity_order fuel f l) = filter (λ b, f b = c) l.
Proof.
  induction fuel as [|fuel IH]; intros l Hlen.
  { destruct l; [done|simpl in Hlen; lia]. }
  destruct l as [|a l]; [done|]. cbn [affinity_order]. simpl in Hlen.
  rewrite !filter_cons, filter_app, IH.
  2:{ etrans; [apply length_filter|lia]. }
  destruct (decide (f a = c)) as [Hac|Hac].
  - f_equal. rewrite filter_filter_imp by (intros; congruence).
    rewrite filter_filter_excl by (intros x Hx Hne; congruence).
    by rewrite app_nil_r.
  - rewrite filter_filter_excl by (intros x Hx Hne; congruence).
    by rewrite filter_filter_imp by (intros; congruence).
Qed.

Section Affinity.

Variable cpu_at : nat -> thread -> cpu.
Variable env : nat -> state -> state.

Lemma threads_are_same thr s s' :
  (∀ a, wr_thread <$> mem s' !! a = wr_thread <$> mem s !! a) →
  threads_are thr s → threads_are thr s'.
Proof.
  intros Hsame Hthr a ra Ha. specialize (Hsame a). rewrite Ha in Hsame.
  destruct (mem s !! a) as [ra0|] eqn:Ha0; [|done].
  injection Hsame as ->. by eapply Hthr.
Qed.

Lemma threads_are_thread_of s : threads_are (thread_of (mem s)) s.
Proof. intros a ra Ha. unfold thread_of. by rewrite Ha. Qed.

(** The CPU-affinity loop computes [group_split]: the lock is sent to the
    records of the first component, in their order, and the records of the
    second are left linked behind the kept records [K]. *)
Lemma wake_all_group_exact m cpu_wr thr : ∀ todo fuel s next_wr prevr r K,
  threads_are thr s →
  lseg (mem s) next_wr r K →
  chain (mem s) r todo →
  prevr = last K →
  NoDup (K ++ todo) →
  length todo ≤ fuel →
  ∃ s' next_wr',
    wake_all_group cpu_at fuel (Some m) cpu_wr next_wr prevr r s
    = Done (next_wr', s',
            map (Ev_send_lock m)
              (group_split (λ n x, cpu_at n (thr x)) cpu_wr (now s) todo).1)
    ∧ chain (mem s') next_wr'
        (K ++ (group_split (λ n x, cpu_at n (thr x)) cpu_wr (now s) todo).2)
    ∧ now s' = now s + length todo
    ∧ oldest s' = oldest s ∧ newest s' = newest s
    ∧ user_mutex s' = user_mutex s ∧ pending s' = pending s
    ∧ (∀ a, is_woken <$> mem s' !! a = is_woken <$> mem s !! a)
    ∧ (∀ a, wr_thread <$> mem s' !! a = wr_thread <$> mem s !! a)
    ∧ (∀ a, a ∉ K ++ todo → mem s' !! a = mem s !! a).
Proof.
  induction todo as [|x todo IH];
    intros fuel s next_wr prevr r K Hthr HK Hc Hprev Hnd Hfuel.
  - unfold chain in Hc. simpl in Hc. subst r.
    exists s, next_wr. cbn [group_split fst snd map length]. rewrite app_nil_r.
    split; [by destruct fuel|]. split_and!; try done; lia.
  - destruct Hc as (-> & rx & Hrx & Hc).
    destruct fuel as [|fuel]; [simpl in Hfuel; lia|]. simpl in Hfuel.
    assert (x ∉ K) as HxK.
    { apply NoDup_app in Hnd as (_ & Hd & _). intros Hin. apply (Hd x Hin). left. }
    assert (x ∉ todo) as Hxt.
    { apply NoDup_app in Hnd as (_ & _ & Hd). by apply NoDup_cons in Hd as [? _]. }
    cbn [wake_all_group group_split]. mrun.
    rewrite (Hthr _ _ Hrx).
    destruct (bool_decide (cpu_at (now s) (thr x) = cpu_wr)) eqn:Hcpu; cbn [fst snd].
    + mrun.
      destruct K as [|k K' _] using rev_ind.
      * simpl in HK. subst next_wr. rewrite bool_decide_true by done.
        destruct (IH fuel (with_now (S (now s)) s) (next rx) prevr (next rx) [])
          as (s' & nw & -> & Hc' & Hnow & ? & ? & ? & ? & Hw & Ht & Hfr); try done.
        { simpl. simpl in Hnd. by apply NoDup_cons in Hnd as [_ ?]. }
        { lia. }
        exists s', nw. split; [done|]. split_and!; try done.
        -- rewrite Hnow. sproj. simpl. lia.
        -- intros a Ha. apply Hfr. simpl. simpl in Ha.
           by apply not_elem_of_cons in Ha as [_ ?].
      * rewrite last_snoc in Hprev. subst prevr.
        assert (Some x ≠ next_wr) as Hne.
        { intros <-. destruct K' as [|k0 K']; simpl in HK.
          - destruct HK as ([= ->] & _). apply HxK. left.
          - destruct HK as ([= ->] & _). apply HxK. left. }
        rewrite bool_decide_false by done.
        pose proof HK as HK0. apply lseg_app in HK0 as (mk & HK1 & (-> & rk & Hrk & Hk)).
        simpl in Hk. mrun.
        assert (NoDup (K' ++ [k])) as HndK by (by apply NoDup_app in Hnd as (? & _ & _)).
        assert (k ∉ K') as HkK.
        { apply NoDup_app in HndK as (_ & Hd & _). intros Hin. apply (Hd k Hin). left. }
        assert (k ∉ todo) as Hkt.
        { apply NoDup_app in Hnd as (_ & Hd & _). intros Hin.
          apply (Hd k); [apply elem_of_app; right; left|by right]. }
        edestruct (IH fuel
          (with_mem (<[k:=WaitRecord (wr_thread rk) (next rx) (is_woken rk)]> (mem s))
             (with_now (S (now s)) s)) next_wr (Some k) (next rx) (K' ++ [k]))
          as (s' & nw & -> & Hc' & Hnow & ? & ? & ? & ? & Hw & Ht & Hfr); try done.
        { intros a ra. sproj. destruct (decide (k = a)) as [<-|Hka].
          - rewrite lookup_insert_eq. intros [= <-]. cbn [wr_thread]. by eapply Hthr.
          - rewrite lookup_insert_ne by done. apply Hthr. }
        { sproj. eapply lseg_snoc; [by apply lseg_insert_other|apply lookup_insert_eq|done]. }
        { sproj. by apply lseg_insert_other. }
        { by rewrite last_snoc. }
        { apply NoDup_app. apply NoDup_app in Hnd as (? & Hd & Hd').
          split; [done|]. split; [|by apply NoDup_cons in Hd' as [_ ?]].
          intros y Hy Hy'. apply (Hd y Hy). by right. }
        { lia. }
        exists s', nw. split; [done|]. split_and!; try done.
        -- rewrite Hnow. sproj. simpl. lia.
        -- intros a. rewrite Hw. sproj. destruct (decide (k = a)) as [<-|Hka].
           ++ by rewrite lookup_insert_eq, Hrk.
           ++ by rewrite lookup_insert_ne.
        -- intros a. rewrite Ht. sproj. destruct (decide (k = a)) as [<-|Hka].
           ++ by rewrite lookup_insert_eq, Hrk.
           ++ by rewrite lookup_insert_ne.
        -- intros a Ha. rewrite Hfr.
           ++ sproj. rewrite lookup_insert_ne; [done|]. intros <-. apply Ha.
              apply elem_of_app. left. apply elem_of_app. right. left.
           ++ intros Hin. apply Ha. apply elem_of_app in Hin as [Hin|Hin];
                apply elem_of_app; [by left|right; by right].
    + edestruct (IH fuel (with_now (S (now s)) s) next_wr (Some x) (next rx) (K ++ [x]))
        as (s' & nw & -> & Hc' & Hnow & ? & ? & ? & ? & Hw & Ht & Hfr); try done.
      { sproj. by eapply lseg_snoc. }
      { by rewrite last_snoc. }
      { rewrite <- app_assoc. done. }
      { lia. }
      exists s', nw. split; [done|]. split_and!; try done.
      * by rewrite <- app_assoc in Hc'.
      * rewrite Hnow. sproj. simpl. lia.
      * intros a Ha. apply Hfr. by rewrite <- app_assoc.
Qed.

(** The walk with wait morphing sends the lock in the order [walk_order];
    it changes the [next] links of records of the list and nothing else. *)
Lemma wake_all_walk_exact m thr : ∀ n l fuel s p,
  threads_are thr s →
  length l ≤ n →
  chain (mem s) p l →
  length l ≤ fuel →
  ∃ s',
    wake_all_walk true cpu_at fuel (Some m) p s
    = Done (tt, s',
            map (Ev_send_lock m) (walk_order n (λ k x, cpu_at k (thr x)) (now s) l))
    ∧ oldest s' = oldest s ∧ newest s' = newest s
    ∧ user_mutex s' = user_mutex s ∧ pending s' = pending s
    ∧ (∀ a, is_woken <$> mem s' !! a = is_woken <$> mem s !! a)
    ∧ (∀ a, wr_thread <$> mem s' !! a = wr_thread <$> mem s !! a)
    ∧ (∀ a, a ∉ l → mem s' !! a = mem s !! a).
Proof.
  induction n as [|n IH]; intros l fuel s p Hthr Hn Hc Hfuel.
  - destruct l; [|simpl in Hn; lia]. unfold chain in Hc. simpl in Hc. subst p.
    exists s. split; [by destruct fuel|]. by split_and!.
  - destruct l as [|a l].
    { unfold chain in Hc. simpl in Hc. subst p.
      exists s. split; [by destruct fuel|]. by split_and!. }
    pose proof (chain_NoDup _ _ _ Hc) as Hnd. apply NoDup_cons in Hnd as [Ha Hnd].
    destruct Hc as (-> & ra & Hra & Hc).
    destruct fuel as [|fuel]; [simpl in Hfuel; lia|]. simpl in Hfuel, Hn.
    cbn [wake_all_walk walk_order]. mrun. rewrite (Hthr _ _ Hra).
    destruct (wake_all_group_exact m (cpu_at (now s) (thr a)) thr l fuel
                (with_now (S (now s)) s) (next ra) None (next ra) [])
      as (s1 & nw & -> & Hc1 & Hnow1 & ? & ? & ? & ? & Hw1 & Ht1 & Hfr1); try done.
    { lia. }
    cbn [app] in Hc1. mrun.
    set (sk := group_split (λ k x, cpu_at k (thr x)) (cpu_at (now s) (thr a))
                 (S (now s)) l) in *.
    assert (length sk.2 ≤ length l) as Hlen by apply group_split_length.
    assert (∀ b, b ∈ sk.2 → b ∈ l) as Hsub.
    { intros b Hb. rewrite (group_split_perm (λ k x, cpu_at k (thr x))
                              (cpu_at (now s) (thr a)) l (S (now s))).
      apply elem_of_app. by right. }
    destruct (IH sk.2 fuel s1 nw) as (s' & -> & ? & ? & ? & ? & Hw' & Ht' & Hfr');
      [by eapply threads_are_same|lia|done|lia|].
    mrun. exists s'. split.
    { rewrite map_cons, map_app. cbn [now with_now] in Hnow1. rewrite Hnow1. done. }
    cbn [oldest newest user_mutex pending with_now] in *.
    split_and!; try congruence.
    + intros b. by rewrite Hw', Hw1.
    + intros b. by rewrite Ht', Ht1.
    + intros b Hb. apply not_elem_of_cons in Hb as [Hba Hb].
      rewrite Hfr' by (intros Hin; by apply Hb, Hsub). by rewrite Hfr1.
Qed.

(** condvar_wake_all with wait morphing. *)
Lemma condvar_wake_all_exact s l m :
  oldest s ≠ None →
  fifo_rep (resume env s) l →
  (l ≠ [] → user_mutex (resume env s) = Some m) →
  ∃ s',
    condvar_wake_all true cpu_at env s
    = Done (tt, s',
            [Ev_mutex_lock cv_m; Ev_mutex_unlock cv_m]
            ++ map (Ev_send_lock m)
                 (walk_order (length l)
                    (λ k x, cpu_at k (thread_of (mem (resume env s)) x))
                    (now (resume env s)) l))
    ∧ fifo_rep s' [] ∧ user_mutex s' = None
    ∧ pending s' = pending (resume env s)
    ∧ (∀ a, is_woken <$> mem s' !! a = is_woken <$> mem (resume env s) !! a)
    ∧ (∀ a, wr_thread <$> mem s' !! a = wr_thread <$> mem (resume env s) !! a)
    ∧ (∀ a, a ∉ l → mem s' !! a = mem (resume env s) !! a).
Proof.
  intros Ho Hrep Hum.
  pose proof (chain_length _ _ _ (proj1 Hrep)) as Hlen.
  destruct (wake_all_detach_rep true _ l Hrep)
    as (s1 & Hrun & Hrep1 & Hum1 & Hmem1 & Hnow1 & Hpend1).
  unfold condvar_wake_all. mrun. rewrite bool_decide_false by done. mrun.
  rewrite Hrun. mrun. unfold loop_bound. mrun.
  destruct Hrep as [Hc Hn]. rewrite <- Hmem1 in Hc, Hlen.
  destruct l as [|a l].
  { unfold chain in Hc. cbn [lseg] in Hc. rewrite Hc. cbn [wake_all_walk]. mrun.
    exists s1. rewrite Hmem1. by split_and!. }
  rewrite Hum by done.
  destruct (wake_all_walk_exact m (thread_of (mem (resume env s))) (length (a :: l))
              (a :: l) (S (size (mem s1))) s1 (oldest (resume env s)))
    as (s' & -> & Ho' & Hn' & Hum' & Hp' & Hw' & Ht' & Hfr'); [|done|done|lia|].
  { rewrite <- Hmem1. apply threads_are_thread_of. }
  mrun. exists s'. rewrite Hnow1. split; [done|].
  rewrite <- Hmem1. split_and!; try done; try congruence.
  destruct Hrep1 as [Hc1 Hn1]. split; [unfold chain; simpl|]; congruence.
Qed.

End Affinity.

(** ** The signallers: records, remembered mutex, late arrivals *)

Lemma chain_head h p l : chain h p l → p = head l.
Proof. destruct l; [done|]. by intros (-> & _). Qed.

Section Signals.

Variable WAIT_MORPHING : bool.
Variable cpu_at : nat -> thread -> cpu.
Variable env : nat -> state -> state.

(** The walk without wait morphing flags the records of the list, and
    changes nothing else. *)
Lemma wake_all_walk_plain_exact um : ∀ l fuel s p,
  chain (mem s) p l →
  length l ≤ fuel →
  ∃ s',
    wake_all_walk false cpu_at fuel um p s = Done (tt, s', map Ev_wake l)
    ∧ oldest s' = oldest s ∧ newest s' = newest s
    ∧ user_mutex s' = user_mutex s ∧ pending s' = pending s
    ∧ (∀ a, a ∈ l → mem s' !! a = flagged <$> mem s !! a)
    ∧ (∀ a, a ∉ l → mem s' !! a = mem s !! a).
Proof.
  induction l as [|a l IH]; intros fuel s p Hc Hfuel.
  - unfold chain in Hc. simpl in Hc. subst p. exists s.
    split; [by destruct fuel|]. split_and!; try done.
    intros a Ha. by apply elem_of_nil in Ha.
  - pose proof (chain_NoDup _ _ _ Hc) as Hnd. apply NoDup_cons in Hnd as [Ha Hnd].
    destruct Hc as (-> & ra & Hra & Hc).
    destruct fuel as [|fuel]; [simpl in Hfuel; lia|]. simpl in Hfuel.
    cbn [wake_all_walk]. mrun.
    destruct (IH fuel
      (with_mem (<[a:=WaitRecord (wr_thread ra) (next ra) true]> (mem s)) s) (next ra))
      as (s' & -> & ? & ? & ? & ? & Hin & Hout); [|lia|].
    { sproj. by eapply lseg_insert_same_next. }
    mrun. exists s'. split; [done|]. split_and!; try done.
    + intros b Hb. apply elem_of_cons in Hb as [->|Hb].
      * rewrite Hout by done. sproj. by rewrite lookup_insert_eq, Hra.
      * rewrite Hin by done. sproj. rewrite lookup_insert_ne; [done|]. by intros ->.
    + intros b Hb. apply not_elem_of_cons in Hb as [Hba Hb].
      rewrite Hout by done. sproj. by rewrite lookup_insert_ne.
Qed.

(** condvar_wake_all without wait morphing. *)
Lemma condvar_wake_all_plain s l :
  oldest s ≠ None →
  fifo_rep (resume env s) l →
  ∃ s',
    condvar_wake_all false cpu_at env s
    = Done (tt, s', [Ev_mutex_lock cv_m; Ev_mutex_unlock cv_m] ++ map Ev_wake l)
    ∧ fifo_rep s' [] ∧ user_mutex s' = user_mutex (resume env s)
    ∧ pending s' = pending (resume env s)
    ∧ (∀ a, a ∈ l → mem s' !! a = flagged <$> mem (resume env s) !! a)
    ∧ (∀ a, a ∉ l → mem s' !! a = mem (resume env s) !! a).
Proof.
  intros Ho Hrep.
  pose proof (chain_length _ _ _ (proj1 Hrep)) as Hlen.
  destruct (wake_all_detach_rep false _ l Hrep)
    as (s1 & Hrun & Hrep1 & Hum1 & Hmem1 & Hnow1 & Hpend1).
  unfold condvar_wake_all. mrun. rewrite bool_decide_false by done. mrun.
  rewrite Hrun. mrun. unfold loop_bound. mrun.
  destruct Hrep as [Hc Hn]. rewrite <- Hmem1 in Hc, Hlen.
  destruct (wake_all_walk_plain_exact None l (S (size (mem s1))) s1 (oldest (resume env s)))
    as (s' & -> & Ho' & Hn' & Hum' & Hp' & Hin & Hout); [done|lia|].
  mrun. exists s'. split; [done|]. rewrite <- Hmem1.
  split_and!; try done; try congruence.
  destruct Hrep1 as [Hc1 Hn1]. split; [unfold chain; simpl|]; congruence.
Qed.

(** X4: what condvar_wake_all does to the records.  Without wait morphing
    every record of the snapshot is flagged woken and keeps its thread and
    its link; with wait morphing no flag and no thread changes, the flag
    being left to the user mutex.  The records outside the snapshot are not
    written. *)
Theorem X4_wake_all_records s l m :
  oldest s ≠ None →
  fifo_rep (resume env s) l →
  (WAIT_MORPHING = true → l ≠ [] → user_mutex (resume env s) = Some m) →
  ∃ s' tr,
    condvar_wake_all WAIT_MORPHING cpu_at env s = Done (tt, s', tr)
    ∧ (∀ a, a ∉ l → mem s' !! a = mem (resume env s) !! a)
    ∧ (∀ a, a ∈ l →
         if WAIT_MORPHING then
           is_woken <$> mem s' !! a = is_woken <$> mem (resume env s) !! a
           ∧ wr_thread <$> mem s' !! a = wr_thread <$> mem (resume env s) !! a
         else mem s' !! a = flagged <$> mem (resume env s) !! a).
Proof.
  intros Ho Hrep Hum.
  destruct (decide (WAIT_MORPHING = true)) as [Hm|Hm%not_true_is_false]; rewrite Hm.
  - destruct (condvar_wake_all_exact cpu_at env s l m Ho Hrep (Hum Hm))
      as (s' & Hrun & _ & _ & _ & Hw & Ht & Hfr).
    exists s'. eexists. split; [done|]. split; [done|]. intros a _. done.
  - destruct (condvar_wake_all_plain s l Ho Hrep) as (s' & Hrun & _ & _ & _ & Hin & Hout).
    exists s'. eexists. split; [done|]. split; done.
Qed.

(** X8: the remembered user mutex under the signallers.  A signaller that
    returns on the unlocked look at the head (lines 111 and 142) changes
    nothing, so that a user mutex left remembered for an empty FIFO stays
    so.  A signaller that takes the internal mutex: with wait morphing
    condvar_wake_one clears the remembered mutex when it dequeues the last
    waiter and keeps it when waiters remain or when it finds none, and
    condvar_wake_all clears it; without wait morphing neither writes it. *)
Theorem X8_signal_user_mutex s m :
  (oldest s = None →
     condvar_wake_one WAIT_MORPHING env s = Done (tt, s, [])
     ∧ condvar_wake_all WAIT_MORPHING cpu_at env s = Done (tt, s, []))
  ∧ (oldest s ≠ None →
     ∀ l, fifo_rep (resume env s) l →
     (WAIT_MORPHING = true → l ≠ [] → user_mutex (resume env s) = Some m) →
     (∃ s' tr,
        condvar_wake_one WAIT_MORPHING env s = Done (tt, s', tr)
        ∧ user_mutex s' =
            if WAIT_MORPHING then
              match l with
              | [] => user_mutex (resume env s)
              | [_] => None
              | _ :: _ :: _ => Some m
              end
            else user_mutex (resume env s))
     ∧ (∃ s' tr,
          condvar_wake_all WAIT_MORPHING cpu_at env s = Done (tt, s', tr)
          ∧ user_mutex s' =
              if WAIT_MORPHING then None else user_mutex (resume env s))).
Proof.
  split.
  - intros Ho. split; [by apply condvar_wake_one_fast|].
    unfold condvar_wake_all. mrun. by rewrite Ho.
  - intros Ho l Hrep Hum. split.
    + destruct l as [|x l].
      * rewrite (condvar_wake_one_nil WAIT_MORPHING env s Ho Hrep).
        eexists _, _. split; [done|]. by destruct WAIT_MORPHING.
      * destruct (condvar_wake_one_cons WAIT_MORPHING env s x l m Ho Hrep)
          as (s' & Hrun & _ & Hum').
        { intros Hm. by apply Hum. }
        exists s'. eexists. split; [done|]. rewrite Hum'.
        destruct (decide (WAIT_MORPHING = true)) as [Hm|Hm%not_true_is_false]; rewrite Hm;
          [|done].
        destruct l; [done|]. by apply Hum.
    + destruct (decide (WAIT_MORPHING = true)) as [Hm|Hm%not_true_is_false]; rewrite Hm.
      * destruct (condvar_wake_all_exact cpu_at env s l m Ho Hrep (Hum Hm))
          as (s' & Hrun & _ & Hum' & _).
        exists s'. by eexists.
      * destruct (condvar_wake_all_plain s l Ho Hrep) as (s' & Hrun & _ & Hum' & _).
        exists s'. by eexists.
Qed.

(** X3: a waiter that enqueues after condvar_wake_all has detached the
    list and released the internal mutex is not handed off by this call: the
    walk of lines 156-183 hands off the records of the snapshot and no
    other, and the late record is left alone in the FIFO, as it was
    enqueued.  With wait morphing the late waiter passes the assertion of
    line 45 with any user mutex, the detach having cleared the remembered
    one. *)
Theorem X3_wake_all_late_arrival s l m wr t um :
  fifo_rep s l → wr ∉ l →
  (WAIT_MORPHING = true → l ≠ [] → user_mutex s = Some m) →
  ∃ p u s1 s2 s3 order,
    wake_all_detach WAIT_MORPHING s = Done ((p, u), s1, [])
    ∧ (new_wait_record wr t ≫= λ _, wait_enqueue WAIT_MORPHING wr um) s1
      = Done (tt, s2, [])
    ∧ wake_all_walk WAIT_MORPHING cpu_at (S (size (mem s1))) u p s2
      = Done (tt, s3, map (handoff WAIT_MORPHING m) order)
    ∧ order ≡ₚ l ∧ (wr ∉ order)
    ∧ fifo_rep s3 [wr]
    ∧ mem s3 !! wr = Some (WaitRecord t None false).
Proof.
  intros Hrep Hnin Hum.
  destruct (wake_all_detach_rep WAIT_MORPHING s l Hrep)
    as (s1 & Hrun1 & Hrep1 & Hum1 & Hmem1 & Hnow1 & Hpend1).
  pose proof (new_wait_record_rep s1 [] wr t Hrep1 ltac:(apply not_elem_of_nil)) as Hrep1'.
  destruct (wait_enqueue_rep WAIT_MORPHING _ [] wr um (WaitRecord t None false) Hrep1')
    as (s2 & Hrun2 & Hrep2 & Hum2 & Hnow2 & Hpend2 & Hw2 & Hfr2).
  { apply not_elem_of_nil. }
  { sproj. apply lookup_insert_eq. }
  { done. }
  { intros Hm. left. sproj. by rewrite Hum1, Hm. }
  cbn [app] in Hrep2.
  assert ((new_wait_record wr t ≫= λ _, wait_enqueue WAIT_MORPHING wr um) s1
          = Done (tt, s2, [])) as Hrun2'.
  { unfold new_wait_record. mrun. exact Hrun2. }
  clear Hrun2.
  assert (∀ a, mem s2 !! a = <[wr:=WaitRecord t None false]> (mem s) !! a) as Hmem2.
  { intros a. rewrite Hfr2 by apply not_elem_of_nil. sproj. by rewrite Hmem1. }
  assert (chain (mem s2) (oldest s) l) as Hc2.
  { eapply lseg_frame; [|apply Hrep]. intros a Ha. rewrite Hmem2.
    rewrite lookup_insert_ne; [done|]. by intros ->. }
  pose proof (chain_length _ _ _ (proj1 Hrep)) as Hlen. rewrite <- Hmem1 in Hlen.
  assert (mem s2 !! wr = Some (WaitRecord t None false)) as Hwr2.
  { by rewrite Hmem2, lookup_insert_eq. }
  destruct Hrep2 as [Hch2 Hn2]. pose proof Hch2 as (Ho2 & _).
  exists (oldest s), (if WAIT_MORPHING then user_mutex s else None), s1, s2.
  assert (∀ s3, oldest s3 = oldest s2 → newest s3 = newest s2 →
            mem s3 !! wr = mem s2 !! wr → fifo_rep s3 [wr]) as Hfin.
  { intros s3 Ho3 Hn3 Hm3. split; [|by rewrite Hn3].
    split; [by rewrite Ho3|]. eexists. split; [by rewrite Hm3|done]. }
  destruct (decide (WAIT_MORPHING = true)) as [Hm|Hm%not_true_is_false];
    rewrite Hm in Hrun1, Hrun2' |- *.
  - destruct l as [|a l].
    { unfold chain in Hc2. cbn [lseg] in Hc2. rewrite Hc2 in Hrun1 |- *.
      exists s2, []. by split_and!. }
    rewrite (Hum Hm) in Hrun1 |- * by done.
    destruct (wake_all_walk_exact cpu_at m (thread_of (mem s2)) (length (a :: l))
                (a :: l) (S (size (mem s1))) s2 (oldest s))
      as (s3 & Hrun3 & Ho3 & Hn3 & _ & _ & _ & _ & Hfr3);
      [apply threads_are_thread_of|done|done|lia|].
    eexists s3, _. split_and!; [done|done|exact Hrun3| | | |].
    + by apply walk_order_perm.
    + by rewrite walk_order_perm.
    + apply Hfin; try done. by apply Hfr3.
    + by rewrite Hfr3.
  - destruct (wake_all_walk_plain_exact None l (S (size (mem s1))) s2 (oldest s))
      as (s3 & Hrun3 & Ho3 & Hn3 & _ & _ & _ & Hfr3); [done|lia|].
    exists s3, l. split_and!; try done.
    + apply Hfin; try done. by apply Hfr3.
    + by rewrite Hfr3.
Qed.

End Signals.

Section Order.

Variable WAIT_MORPHING : bool.
Variable cpu_at : nat -> thread -> cpu.
Variable env : nat -> state -> state.

(** X1: with wait morphing and while no thread migrates, condvar_wake_all
    sends the lock in the order [affinity_order]: to the oldest record, then
    to the later records whose threads run on the CPU of its thread, in their
    order in the FIFO, and then in the same way to the records that are
    left. *)
Theorem X1_wake_all_affinity_order (c : thread → cpu) s l m :
  (∀ n t, cpu_at n t = c t) →
  oldest s ≠ None →
  fifo_rep (resume env s) l →
  (l ≠ [] → user_mutex (resume env s) = Some m) →
  ∃ s',
    condvar_wake_all true cpu_at env s
    = Done (tt, s',
            [Ev_mutex_lock cv_m; Ev_mutex_unlock cv_m]
            ++ map (Ev_send_lock m)
                 (affinity_order (length l)
                    (λ x, c (thread_of (mem (resume env s)) x)) l))
    ∧ fifo_rep s' [].
Proof.
  intros Hc Ho Hrep Hum.
  destruct (condvar_wake_all_exact cpu_at env s l m Ho Hrep Hum) as (s' & Hrun & Hrep' & _).
  exists s'. split; [|done]. rewrite Hrun. do 4 f_equal.
  rewrite <- walk_order_stable with (n := now (resume env s)).
  apply walk_order_ext. intros k x. apply Hc.
Qed.

(** X2: with wait morphing and while no thread migrates, condvar_wake_all
    hands the lock to the oldest waiter first, and the waiters of any one CPU
    receive it in the order in which they stood in the FIFO. *)
Theorem X2_wake_all_per_cpu_fifo (c : thread → cpu) s l m :
  (∀ n t, cpu_at n t = c t) →
  oldest s ≠ None →
  fifo_rep (resume env s) l →
  (l ≠ [] → user_mutex (resume env s) = Some m) →
  ∃ s' order,
    condvar_wake_all true cpu_at env s
    = Done (tt, s',
            [Ev_mutex_lock cv_m; Ev_mutex_unlock cv_m] ++ map (Ev_send_lock m) order)
    ∧ head order = head l
    ∧ ∀ k, filter (λ x, c (thread_of (mem (resume env s)) x) = k) order
           = filter (λ x, c (thread_of (mem (resume env s)) x) = k) l.
Proof.
  intros Hc Ho Hrep Hum.
  destruct (condvar_wake_all_exact cpu_at env s l m Ho Hrep Hum) as (s' & Hrun & _).
  eexists s', _. split; [exact Hrun|].
  rewrite (walk_order_ext _ (λ _ x, c (thread_of (mem (resume env s)) x)))
    by (intros; apply Hc).
  rewrite walk_order_stable. split.
  - by destruct l.
  - intros k. by apply affinity_order_filter.
Qed.

(** X11: condvar_wake_all drains the FIFO, and a signal on the drained
    condvar does nothing: condvar_wake_all and condvar_wake_one return on
    the unlocked look at the head (lines 142 and 111) without a call into a
    mutex and with the state unchanged. *)
Theorem X11_wake_all_then_signal s l m :
  oldest s ≠ None →
  fifo_rep (resume env s) l →
  (WAIT_MORPHING = true → l ≠ [] → user_mutex (resume env s) = Some m) →
  ∃ s' tr,
    condvar_wake_all WAIT_MORPHING cpu_at env s = Done (tt, s', tr)
    ∧ oldest s' = None ∧ newest s' = None
    ∧ condvar_wake_all WAIT_MORPHING cpu_at env s' = Done (tt, s', [])
    ∧ condvar_wake_one WAIT_MORPHING env s' = Done (tt, s', []).
Proof.
  intros Ho Hrep Hum.
  assert (∃ s' tr, condvar_wake_all WAIT_MORPHING cpu_at env s = Done (tt, s', tr)
                   ∧ fifo_rep s' []) as (s' & tr & Hrun & [Ho' Hn']).
  { destruct (decide (WAIT_MORPHING = true)) as [Hm|Hm%not_true_is_false]; rewrite Hm.
    - destruct (condvar_wake_all_exact cpu_at env s l m Ho Hrep (Hum Hm))
        as (s' & Hrun & ? & _). by eexists s', _.
    - destruct (condvar_wake_all_plain cpu_at env s l Ho Hrep) as (s' & Hrun & ? & _).
      by eexists s', _. }
  unfold chain in Ho'. cbn [lseg] in Ho'.
  exists s', tr. split_and!; try done.
  - unfold condvar_wake_all. mrun. by rewrite Ho'.
  - by apply condvar_wake_one_fast.
Qed.

End Order.

Section Fifo.

Variable WAIT_MORPHING : bool.

(** X9: [k] calls of condvar_wake_one, with no other thread running, hand
    off the [k] oldest records, oldest first, each in a critical section of
    its own, and leave the other records in their order; the calls beyond
    the length of the FIFO do nothing. *)
Theorem X9_wake_one_fifo_order m k : ∀ s l,
  fifo_rep s l →
  (WAIT_MORPHING = true → l ≠ [] → user_mutex s = Some m) →
  ∃ s',
    calls k (condvar_wake_one WAIT_MORPHING idle) s
    = Done (tt, s', concat (map (wake_one_trace WAIT_MORPHING m) (take k l)))
    ∧ fifo_rep s' (drop k l).
Proof.
  induction k as [|k IH]; intros s l Hrep Hum.
  - exists s. by rewrite take_0, drop_0.
  - cbn [calls]. destruct l as [|x l].
    + destruct (IH s [] Hrep Hum) as (s' & Hrun & Hrep').
      rewrite take_nil in *. rewrite drop_nil in *.
      exists s'. split; [|done]. mrun.
      rewrite condvar_wake_one_fast by (by destruct Hrep as [? _]). mrun. done.
    + assert (oldest s ≠ None) as Ho by (by destruct Hrep as [(-> & _) _]).
      destruct (condvar_wake_one_cons WAIT_MORPHING idle s x l m Ho) as (s1 & Hrun1 & Hrep1 & Hum1).
      { destruct Hrep as [Hc Hn]. by split. }
      { intros Hm. rewrite resume_idle. sproj. by apply Hum. }
      destruct (IH s1 l Hrep1) as (s' & Hrun & Hrep').
      { intros Hm Hl. rewrite Hum1, Hm. destruct l; [done|].
        rewrite resume_idle. sproj. by apply Hum. }
      exists s'. split; [|done]. mrun. rewrite Hrun1. mrun. rewrite Hrun. done.
Qed.

(** X10: a waiter that has timed out takes no signal.  After its removal
    on the timeout path the next condvar_wake_one hands off the oldest of
    the waiters that remain, which is another record. *)
Theorem X10_signal_after_timeout s l1 wr l2 x l' m :
  fifo_rep s (l1 ++ wr :: l2) →
  l1 ++ l2 = x :: l' →
  (WAIT_MORPHING = true → user_mutex s = Some m) →
  ∃ s1 s2,
    wait_timeout idle wr s = Done (ETIMEDOUT, s1, timeout_trace)
    ∧ condvar_wake_one WAIT_MORPHING idle s1
      = Done (tt, s2, wake_one_trace WAIT_MORPHING m x)
    ∧ x ≠ wr
    ∧ fifo_rep s2 l'.
Proof.
  intros Hrep Hl Hum.
  pose proof (chain_NoDup _ _ _ (proj1 Hrep)) as Hnd.
  assert (fifo_rep (resume idle s) (l1 ++ wr :: l2)) as Hrep0.
  { destruct Hrep as [Hc Hn]. by split. }
  destruct (wait_unlink_in _ _ _ _ Hrep0) as (s1 & Hrun1 & Hrep1 & Hum1 & _).
  rewrite Hl in Hrep1.
  assert (oldest s1 ≠ None) as Ho1 by (by destruct Hrep1 as [(-> & _) _]).
  destruct (condvar_wake_one_cons WAIT_MORPHING idle s1 x l' m Ho1) as (s2 & Hrun2 & Hrep2 & _).
  { destruct Hrep1 as [Hc Hn]. by split. }
  { intros Hm. rewrite resume_idle. sproj. rewrite Hum1. by apply Hum. }
  exists s1, s2. split_and!; try done.
  - unfold wait_timeout. mrun. rewrite Hrun1. by mrun.
  - intros ->. apply NoDup_app in Hnd as (_ & Hd & Hnd2).
    apply NoDup_cons in Hnd2 as [Hwr2 _].
    assert (wr ∈ l1 ++ l2) as Hin by (rewrite Hl; left).
    apply elem_of_app in Hin as [Hin|Hin]; [|done]. apply (Hd wr Hin). left.
Qed.

End Fifo.

(** ** The discipline of the internal mutex *)

Lemma cv_track_app h t1 t2 :
  cv_track h (t1 ++ t2) = cv_track h t1 ≫= λ h1, cv_track h1 t2.
Proof.
  revert h. induction t1 as [|e t1 IH]; intros h; [done|].
  destruct e as [[|?]|[|?]| | | | | | |]; cbn [app cv_track];
    repeat (case_match; try done); apply IH.
Qed.

Lemma tracks_bind {A B} h1 h h' (c : M A) (k : A → M B) :
  tracks h c h1 → (∀ a, tracks h1 (k a) h') → tracks h (c ≫= k) h'.
Proof.
  intros Hc Hk s b s' t Hrun.
  apply bind_Done_inv in Hrun as (a & s1 & t1 & t2 & Hrun1 & Hrun2 & ->).
  rewrite cv_track_app, (Hc _ _ _ _ Hrun1). simpl. by eapply Hk.
Qed.

Lemma tracks_ret {A} h (a : A) : tracks h (mret a) h.
Proof. intros s b s' t. rewrite run_ret. by intros [= <- <- <-]. Qed.

Lemma tracks_skip h : tracks h skip h.
Proof. apply tracks_ret. Qed.

Lemma tracks_gets {A} h (f : state → A) : tracks h (gets f) h.
Proof. intros s b s' t [= <- <- <-]. done. Qed.

Lemma tracks_modify h f : tracks h (modify f) h.
Proof. intros s b s' t [= <- <- <-]. done. Qed.

Lemma tracks_emit h h' e : cv_track h [e] = Some h' → tracks h (emit e) h'.
Proof. intros He s b s' t [= <- <- <-]. done. Qed.

Lemma tracks_fault {A} h h' : tracks h (fault : M A) h'.
Proof. by intros s a s' t. Qed.

Lemma tracks_diverge {A} h h' : tracks h (diverge : M A) h'.
Proof. by intros s a s' t. Qed.

Lemma tracks_blocked {A} h h' : tracks h (blocked : M A) h'.
Proof. by intros s a s' t. Qed.

Lemma tracks_assert h b : tracks h (assert b) h.
Proof. destruct b; [apply tracks_skip|]. by intros s a s' t. Qed.

Lemma tracks_load h p : tracks h (load p) h.
Proof.
  intros s a s' t. with_strategy transparent [load] unfold load.
  destruct p as [x|]; [|done]. destruct (mem s !! x); [|done]. by intros [= <- <- <-].
Qed.

Lemma tracks_get_next h p : tracks h (get_next p) h.
Proof.
  with_strategy transparent [get_next] unfold get_next.
  eapply tracks_bind; [apply tracks_load|]. intros. apply tracks_ret.
Qed.

Lemma tracks_get_thread h p : tracks h (get_thread p) h.
Proof.
  with_strategy transparent [get_thread] unfold get_thread.
  eapply tracks_bind; [apply tracks_load|]. intros. apply tracks_ret.
Qed.

Lemma tracks_set_next h p n : tracks h (set_next p n) h.
Proof.
  with_strategy transparent [set_next] unfold set_next.
  eapply tracks_bind; [apply tracks_load|]. intros r.
  destruct p; [apply tracks_modify|apply tracks_fault].
Qed.

Lemma tracks_wake h p : tracks h (wake p) h.
Proof.
  with_strategy transparent [wake] unfold wake.
  eapply tracks_bind; [apply tracks_load|]. intros r.
  destruct p; [|apply tracks_fault].
  eapply tracks_bind; [apply tracks_modify|]. intros. by apply tracks_emit.
Qed.

Lemma tracks_send_lock h m p : tracks h (send_lock m p) h.
Proof.
  unfold send_lock. destruct m, p; try apply tracks_fault. by apply tracks_emit.
Qed.

Lemma tracks_receive_lock m : tracks (false, false) (receive_lock m) (false, false).
Proof. unfold receive_lock. destruct m; [by apply tracks_emit|apply tracks_fault]. Qed.

Lemma tracks_yield env h : tracks h (yield env) h.
Proof. with_strategy transparent [yield] unfold yield. apply tracks_modify. Qed.

Lemma tracks_tcpu cpu_at h t : tracks h (tcpu cpu_at t) h.
Proof.
  with_strategy transparent [tcpu] unfold tcpu. by intros s a s' t' [= <- <- <-].
Qed.

Lemma tracks_mutex_lock_cv env :
  tracks (false, false) (mutex_lock env cv_m) (true, false).
Proof.
  with_strategy transparent [mutex_lock] unfold mutex_lock.
  eapply tracks_bind; [apply tracks_yield|]. intros. by apply tracks_emit.
Qed.

Lemma tracks_mutex_lock_user env um :
  tracks (false, false) (mutex_lock env (user_m um)) (false, false).
Proof.
  with_strategy transparent [mutex_lock] unfold mutex_lock.
  eapply tracks_bind; [apply tracks_yield|]. intros. by apply tracks_emit.
Qed.

Lemma tracks_mutex_unlock_cv p :
  tracks (true, p) (mutex_unlock cv_m) (false, p).
Proof. with_strategy transparent [mutex_unlock] unfold mutex_unlock. by apply tracks_emit. Qed.

Lemma tracks_mutex_unlock_user p um :
  tracks (true, p) (mutex_unlock (user_m um)) (true, p).
Proof. with_strategy transparent [mutex_unlock] unfold mutex_unlock. by apply tracks_emit. Qed.

Lemma tracks_preempt_disable h :
  tracks (h, false) preempt_disable (h, true).
Proof.
  with_strategy transparent [preempt_disable] unfold preempt_disable. by apply tracks_emit.
Qed.

Lemma tracks_preempt_enable h :
  tracks (h, true) preempt_enable (h, false).
Proof.
  with_strategy transparent [preempt_enable] unfold preempt_enable. by apply tracks_emit.
Qed.

Lemma tracks_wait env wr tmr : tracks (false, false) (wait env wr tmr) (false, false).
Proof.
  unfold wait.
  eapply tracks_bind; [by apply tracks_emit|]. intros _.
  eapply tracks_bind; [apply tracks_yield|]. intros _.
  eapply tracks_bind; [apply tracks_load|]. intros r.
  destruct (is_woken r || bool_decide (is_Some tmr)); [apply tracks_skip|apply tracks_blocked].
Qed.

Lemma tracks_woken env wr h : tracks h (woken env wr) h.
Proof.
  unfold woken.
  eapply tracks_bind; [apply tracks_yield|]. intros _.
  eapply tracks_bind; [apply tracks_load|]. intros r. apply tracks_ret.
Qed.

Create HintDb tracks.
#[global] Hint Resolve tracks_ret tracks_skip tracks_gets tracks_modify tracks_fault
  tracks_diverge tracks_blocked tracks_assert tracks_load tracks_get_next
  tracks_get_thread tracks_set_next tracks_wake tracks_send_lock tracks_receive_lock
  tracks_yield tracks_tcpu tracks_mutex_lock_cv tracks_mutex_lock_user
  tracks_mutex_unlock_cv tracks_mutex_unlock_user tracks_preempt_disable
  tracks_preempt_enable tracks_wait tracks_woken : tracks.

(** One step of a derivation: a [bind] is split, a branch is decided, and a
    primitive is looked up. *)
Ltac track_step :=
  match goal with
  | |- tracks _ (_ ≫= _) _ => eapply tracks_bind; [|intros]
  | |- tracks _ (if ?b then _ else _) _ => destruct b
  | |- tracks _ (let '(_, _) := ?p in _) _ => destruct p
  | |- tracks _ _ _ => by eauto with tracks
  end.

Ltac track := repeat track_step.

Section Discipline.

Variable WAIT_MORPHING : bool.
Variable cpu_at : nat -> thread -> cpu.
Variable env : nat -> state -> state.

Lemma tracks_wait_link h wr : tracks h (wait_link wr) h.
Proof. unfold wait_link. track. Qed.

Lemma tracks_wait_remember h um : tracks h (wait_remember WAIT_MORPHING um) h.
Proof. unfold wait_remember. track. Qed.

Lemma tracks_unlink_loop h wr : ∀ fuel p, tracks h (unlink_loop fuel wr p) h.
Proof. induction fuel as [|fuel IH]; intros [a|]; cbn [unlink_loop]; track. Qed.

Lemma tracks_wait_unlink h wr : tracks h (wait_unlink wr) h.
Proof.
  pose proof (tracks_unlink_loop h wr). unfold wait_unlink, loop_bound. track.
Qed.

Lemma tracks_wait_begin current wr um :
  tracks (false, false) (wait_begin WAIT_MORPHING env current wr um) (false, false).
Proof.
  pose proof tracks_wait_link. pose proof tracks_wait_remember.
  unfold wait_begin, new_wait_record, wait_enqueue. track.
Qed.

Lemma tracks_wait_timeout wr :
  tracks (false, false) (wait_timeout env wr) (false, false).
Proof. pose proof tracks_wait_unlink. unfold wait_timeout. track. Qed.

Lemma tracks_wait_reacquire wr um :
  tracks (false, false) (wait_reacquire WAIT_MORPHING env wr um) (false, false).
Proof. unfold wait_reacquire. track. Qed.

Lemma tracks_condvar_wait current wr um tmr :
  tracks (false, false) (condvar_wait WAIT_MORPHING env current wr um tmr) (false, false).
Proof.
  pose proof tracks_wait_begin. pose proof tracks_wait_timeout.
  pose proof tracks_wait_reacquire. unfold condvar_wait. track.
Qed.

Lemma tracks_condvar_wait_expiration current wr um expiration :
  tracks (false, false)
    (condvar_wait_expiration WAIT_MORPHING env current wr um expiration) (false, false).
Proof.
  pose proof tracks_condvar_wait. unfold condvar_wait_expiration. track.
  by apply tracks_emit.
Qed.

Lemma tracks_wake_one_locked h : tracks h (wake_one_locked WAIT_MORPHING) h.
Proof. unfold wake_one_locked. track. Qed.

Lemma tracks_condvar_wake_one :
  tracks (false, false) (condvar_wake_one WAIT_MORPHING env) (false, false).
Proof. pose proof tracks_wake_one_locked. unfold condvar_wake_one. track. Qed.

Lemma tracks_wake_all_detach h : tracks h (wake_all_detach WAIT_MORPHING) h.
Proof. unfold wake_all_detach. track. Qed.

Lemma tracks_wake_all_group h um cpu_wr : ∀ fuel next_wr prevr r,
  tracks h (wake_all_group cpu_at fuel um cpu_wr next_wr prevr r) h.
Proof.
  induction fuel as [|fuel IH]; intros next_wr prevr [a|]; cbn [wake_all_group]; track.
Qed.

Lemma tracks_wake_all_walk h um : ∀ fuel wr,
  tracks h (wake_all_walk WAIT_MORPHING cpu_at fuel um wr) h.
Proof.
  pose proof tracks_wake_all_group.
  induction fuel as [|fuel IH]; intros [a|]; cbn [wake_all_walk]; track.
Qed.

Lemma tracks_condvar_wake_all :
  tracks (false, false) (condvar_wake_all WAIT_MORPHING cpu_at env) (false, false).
Proof.
  pose proof tracks_wake_all_detach. pose proof tracks_wake_all_walk.
  unfold condvar_wake_all, loop_bound. track.
Qed.

(** X6: the discipline of the internal mutex, in every run that returns of
    condvar_wait (both overloads), condvar_wake_one and condvar_wake_all,
    from any state and with any other threads.  condvar->m is locked only
    when the caller does not hold it, and unlocked only when it does; the
    user mutex is released inside the critical section only; preemption is
    disabled and enabled in turn; every call that may sleep (wait, the lock
    of the user mutex, receive_lock, the lock of condvar->m itself) is made
    with condvar->m free and preemption enabled; and the call returns with
    condvar->m free and preemption enabled. *)
Theorem X6_lock_discipline :
  (∀ current wr um tmr s ret s' tr,
     condvar_wait WAIT_MORPHING env current wr um tmr s = Done (ret, s', tr) →
     cv_track (false, false) tr = Some (false, false))
  ∧ (∀ current wr um expiration s ret s' tr,
     condvar_wait_expiration WAIT_MORPHING env current wr um expiration s
     = Done (ret, s', tr) →
     cv_track (false, false) tr = Some (false, false))
  ∧ (∀ s s' tr,
     condvar_wake_one WAIT_MORPHING env s = Done (tt, s', tr) →
     cv_track (false, false) tr = Some (false, false))
  ∧ (∀ s s' tr,
     condvar_wake_all WAIT_MORPHING cpu_at env s = Done (tt, s', tr) →
     cv_track (false, false) tr = Some (false, false)).
Proof.
  split_and!; intros.
  - by eapply tracks_condvar_wait.
  - by eapply tracks_condvar_wait_expiration.
  - by eapply tracks_condvar_wake_one.
  - by eapply tracks_condvar_wake_all.
Qed.

End Discipline.

(** ** What the critical sections write *)

Lemma same_waiters_refl h : same_waiters h h.
Proof. by intros a. Qed.

Lemma same_waiters_trans h1 h2 h3 :
  same_waiters h1 h2 → same_waiters h2 h3 → same_waiters h1 h3.
Proof. intros H12 H23 a. destruct (H12 a), (H23 a). split; congruence. Qed.

Lemma same_waiters_set_next h a r n :
  h !! a = Some r →
  same_waiters h (<[a := WaitRecord (wr_thread r) n (is_woken r)]> h).
Proof.
  intros Hr b. destruct (decide (a = b)) as [<-|Hne].
  - by rewrite lookup_insert_eq, Hr.
  - by rewrite lookup_insert_ne.
Qed.

Lemma links_only_bind {A B} (c : M A) (k : A → M B) :
  links_only c → (∀ a, links_only (k a)) → links_only (c ≫= k).
Proof.
  intros Hc Hk s b s' t Hrun.
  apply bind_Done_inv in Hrun as (a & s1 & t1 & t2 & Hrun1 & Hrun2 & ->).
  eapply same_waiters_trans; [by eapply Hc|by eapply Hk].
Qed.

Lemma links_only_pure {A} (c : M A) :
  (∀ s a s' t, c s = Done (a, s', t) → mem s' = mem s) → links_only c.
Proof. intros Hc s a s' t Hrun. rewrite (Hc _ _ _ _ Hrun). apply same_waiters_refl. Qed.

Lemma links_only_ret {A} (a : A) : links_only (mret a).
Proof. apply links_only_pure. intros s b s' t. rewrite run_ret. by intros [= <- <- <-]. Qed.

Lemma links_only_skip : links_only skip.
Proof. apply links_only_ret. Qed.

Lemma links_only_gets {A} (f : state → A) : links_only (gets f).
Proof. apply links_only_pure. by intros s b s' t [= <- <- <-]. Qed.

Lemma links_only_modify f : (∀ s, mem (f s) = mem s) → links_only (modify f).
Proof. intros Hf. apply links_only_pure. intros s b s' t [= <- <- <-]. apply Hf. Qed.

Lemma links_only_fault {A} : links_only (fault : M A).
Proof. by intros s a s' t. Qed.

Lemma links_only_diverge {A} : links_only (diverge : M A).
Proof. by intros s a s' t. Qed.

Lemma links_only_assert b : links_only (assert b).
Proof. destruct b; [apply links_only_skip|]. by intros s a s' t. Qed.

Lemma links_only_load p : links_only (load p).
Proof.
  apply links_only_pure. intros s a s' t. with_strategy transparent [load] unfold load.
  destruct p as [x|]; [|done]. destruct (mem s !! x); [|done]. by intros [= <- <- <-].
Qed.

Lemma links_only_get_next p : links_only (get_next p).
Proof.
  with_strategy transparent [get_next] unfold get_next.
  apply links_only_bind; [apply links_only_load|]. intros. apply links_only_ret.
Qed.

Lemma links_only_get_thread p : links_only (get_thread p).
Proof.
  with_strategy transparent [get_thread] unfold get_thread.
  apply links_only_bind; [apply links_only_load|]. intros. apply links_only_ret.
Qed.

Lemma links_only_set_next p n : links_only (set_next p n).
Proof.
  intros s u s' t. destruct p as [a|].
  - destruct (mem s !! a) as [r|] eqn:Hr.
    + rewrite (run_set_next _ _ _ _ Hr). intros [= <- <- <-]. sproj.
      by apply same_waiters_set_next.
    + with_strategy transparent [set_next] unfold set_next.
      by rewrite run_bind, (run_load_None _ _ Hr).
  - with_strategy transparent [set_next load] unfold set_next, load. done.
Qed.

Lemma links_only_send_lock m p : links_only (send_lock m p).
Proof.
  apply links_only_pure. intros s a s' t. unfold send_lock.
  destruct m, p; try done. by intros [= <- <- <-].
Qed.

Lemma links_only_tcpu cpu_at th : links_only (tcpu cpu_at th).
Proof.
  apply links_only_pure. intros s a s' t. rewrite run_tcpu. by intros [= <- <- <-].
Qed.

Create HintDb links.
#[global] Hint Resolve links_only_ret links_only_skip links_only_gets links_only_fault
  links_only_diverge links_only_assert links_only_load links_only_get_next
  links_only_get_thread links_only_set_next links_only_send_lock links_only_tcpu : links.

Ltac links_step :=
  match goal with
  | |- links_only (_ ≫= _) => apply links_only_bind; [|intros]
  | |- links_only (if ?b then _ else _) => destruct b
  | |- links_only (modify _) => by apply links_only_modify
  | |- links_only _ => by eauto with links
  end.

Ltac links := repeat links_step.

Section Links.

Variable cpu_at : nat -> thread -> cpu.

Lemma links_only_wait_enqueue morph wr um : links_only (wait_enqueue morph wr um).
Proof. unfold wait_enqueue, wait_link, wait_remember. links. Qed.

Lemma links_only_unlink_loop wr : ∀ fuel p, links_only (unlink_loop fuel wr p).
Proof. induction fuel as [|fuel IH]; intros [a|]; cbn [unlink_loop]; links. Qed.

Lemma links_only_wait_unlink wr : links_only (wait_unlink wr).
Proof.
  pose proof (links_only_unlink_loop wr). unfold wait_unlink, loop_bound. links.
Qed.

Lemma links_only_wake_one_locked : links_only (wake_one_locked true).
Proof. unfold wake_one_locked. links. Qed.

Lemma links_only_wake_all_detach morph : links_only (wake_all_detach morph).
Proof. unfold wake_all_detach. links. Qed.

Lemma links_only_wake_all_group um cpu_wr : ∀ fuel next_wr prevr r,
  links_only (wake_all_group cpu_at fuel um cpu_wr next_wr prevr r).
Proof.
  induction fuel as [|fuel IH]; intros next_wr prevr [a|]; cbn [wake_all_group]; links.
Qed.

Lemma links_only_wake_all_walk um : ∀ fuel wr,
  links_only (wake_all_walk true cpu_at fuel um wr).
Proof.
  pose proof links_only_wake_all_group.
  induction fuel as [|fuel IH]; intros [a|]; cbn [wake_all_walk]; links.
Qed.

(** X12: the critical sections of condvar_wait and, with wait morphing,
    those of the signallers and the walk of condvar_wake_all write [next]
    links and fields of the condvar only: in every run that returns, from
    any store, each record keeps its thread and its woken flag, and no
    record appears or disappears. *)
Theorem X12_critical_sections_write_links_only :
  (∀ morph wr um, links_only (wait_enqueue morph wr um))
  ∧ (∀ wr, links_only (wait_unlink wr))
  ∧ links_only (wake_one_locked true)
  ∧ (∀ morph, links_only (wake_all_detach morph))
  ∧ (∀ fuel um wr, links_only (wake_all_walk true cpu_at fuel um wr)).
Proof.
  split_and!; intros.
  - apply links_only_wait_enqueue.
  - apply links_only_wait_unlink.
  - apply links_only_wake_one_locked.
  - apply links_only_wake_all_detach.
  - apply links_only_wake_all_walk.
Qed.

End Links.

(** The [next] links of the records of a list are those of the list. *)
Lemma chain_next_determined h h' : ∀ l p,
  chain h p l → chain h' p l → ∀ a, a ∈ l → next <$> h' !! a = next <$> h !! a.
Proof.
  unfold chain. induction l as [|b l IH]; intros p Hc Hc' a Ha.
  { by apply elem_of_nil in Ha. }
  pose proof (chain_NoDup _ _ _ Hc) as Hnd. apply NoDup_cons in Hnd as [Hb _].
  destruct Hc as (-> & r & Hr & Hc). destruct Hc' as (_ & r' & Hr' & Hc').
  assert (next r' = next r) as Hn.
  { destruct l as [|c l]; cbn [lseg] in Hc, Hc'; [congruence|].
    destruct Hc as (-> & _). by destruct Hc' as (-> & _). }
  apply elem_of_cons in Ha as [->|Ha].
  - rewrite Hr, Hr'. simpl. by rewrite Hn.
  - rewrite Hn in Hc'. by eapply IH.
Qed.

Lemma wait_record_eq (r r' : wait_record) :
  wr_thread r' = wr_thread r → next r' = next r → is_woken r' = is_woken r → r' = r.
Proof. destruct r, r'. simpl. by intros -> -> ->. Qed.

(** What an enqueue and a removal leave of a store: the records of the list
    are linked as before, and the two operations write links only. *)
Lemma round_trip_mem h h0 h1 h2 p l wr new :
  chain h p l → wr ∉ l → h0 = <[wr := new]> h →
  same_waiters h0 h1 → (∀ a, a ∉ l → h1 !! a = h0 !! a) →
  same_waiters h1 h2 → (∀ a, a ∉ l → h2 !! a = h1 !! a) →
  chain h2 p l →
  h2 = <[wr := new]> h.
Proof.
  intros Hc Hnin -> Hs1 Hf1 Hs2 Hf2 Hc2. apply map_eq. intros a.
  destruct (decide (a ∈ l)) as [Ha|Ha].
  - assert (a ≠ wr) as Hne by (by intros ->).
    rewrite lookup_insert_ne by done.
    destruct (chain_lookup _ _ _ _ Hc Ha) as [r Hr].
    destruct (chain_lookup _ _ _ _ Hc2 Ha) as [r2 Hr2].
    pose proof (chain_next_determined _ _ _ _ Hc Hc2 a Ha) as Hn.
    destruct (Hs1 a) as [Ht1 Hw1]. destruct (Hs2 a) as [Ht2 Hw2].
    rewrite lookup_insert_ne in Ht1, Hw1 by done.
    rewrite Ht1 in Ht2. rewrite Hw1 in Hw2.
    rewrite Hr, Hr2 in *. simpl in *. f_equal. apply wait_record_eq; congruence.
  - by rewrite Hf2, Hf1.
Qed.

Section RoundTrip.

Variable WAIT_MORPHING : bool.

(** X5: a wait that times out while no other thread runs leaves the
    condvar as it found it.  condvar_wait with a timer returns ETIMEDOUT
    after the calls of the enqueue, of the timeout path and the lock of the
    user mutex; the FIFO holds the records it held, oldest and newest are as
    before, and the store differs by the record of the waiter only.  With
    wait morphing the user mutex of the waiter stays remembered. *)
Theorem X5_timed_out_wait_round_trip current wr um e s l :
  fifo_rep s l → wr ∉ l →
  (WAIT_MORPHING = true → user_mutex s = None ∨ user_mutex s = um) →
  ∃ s',
    condvar_wait WAIT_MORPHING idle current wr um (Some e) s
    = Done (ETIMEDOUT, s',
            begin_trace um ++ [Ev_wait wr (Some e)] ++ timeout_trace
            ++ [Ev_mutex_lock (user_m um)])
    ∧ fifo_rep s' l
    ∧ oldest s' = oldest s ∧ newest s' = newest s
    ∧ mem s' = <[wr := WaitRecord current None false]> (mem s)
    ∧ user_mutex s' = (if WAIT_MORPHING then um else user_mutex s)
    ∧ pending s' = pending s.
Proof.
  intros Hrep Hnin Hum.
  assert (fifo_rep (at_lock idle current wr s) l) as Hrep0.
  { destruct (new_wait_record_rep s l wr current Hrep Hnin) as [Hc Hn]. by split. }
  destruct (wait_enqueue_rep WAIT_MORPHING (at_lock idle current wr s) l wr um (WaitRecord current None false) Hrep0 Hnin)
    as (s1 & Hrun1 & Hrep1 & Hum1 & _ & Hp1 & _ & Hfr1);
    [apply lookup_insert_eq|done|done|].
  pose proof (links_only_wait_enqueue _ _ _ _ _ _ _ Hrun1) as Hsw1.
  assert (mem s1 !! wr = Some (WaitRecord current None false)) as Hwr1.
  { rewrite Hfr1 by done. apply lookup_insert_eq. }
  assert (fifo_rep (resume idle (resume idle (resume idle s1))) (l ++ [wr])) as Hrep1'.
  { destruct Hrep1 as [Hc Hn]. by split. }
  destruct (wait_unlink_in _ _ _ _ Hrep1') as (s2 & Hrun2 & Hrep2 & Hum2 & _ & Hp2 & _ & Hfr2).
  pose proof (links_only_wait_unlink _ _ _ _ _ Hrun2) as Hsw2.
  rewrite app_nil_r in Hrep2.
  assert (mem s2 !! wr = Some (WaitRecord current None false)) as Hwr2.
  { rewrite Hfr2 by done. exact Hwr1. }
  assert (mem s2 = <[wr := WaitRecord current None false]> (mem s)) as Hmem2.
  { assert (oldest s2 = oldest s) as Ho2.
    { by rewrite (chain_head _ _ _ (proj1 Hrep)), (chain_head _ _ _ (proj1 Hrep2)). }
    eapply (round_trip_mem (mem s) _ (mem s1) (mem s2) (oldest s) l wr (WaitRecord current None false));
      try done; try apply Hrep.
    rewrite <- Ho2. apply Hrep2. }
  assert (oldest s2 = oldest s ∧ newest s2 = newest s
          ∧ user_mutex s2 = (if WAIT_MORPHING then um else user_mutex s)
          ∧ pending s2 = pending s) as (Ho2 & Hn2 & Hu2 & Hpp2).
  { split_and!.
    - by rewrite (chain_head _ _ _ (proj1 Hrep)), (chain_head _ _ _ (proj1 Hrep2)).
    - by rewrite (proj2 Hrep), (proj2 Hrep2).
    - rewrite Hum2. exact Hum1.
    - rewrite Hp2. exact Hp1. }
  unfold condvar_wait, wait_begin, new_wait_record. mrun.
  fold (at_lock idle current wr s). rewrite Hrun1. mrun.
  unfold wait. mrun. unfold woken. mrun. cbn [negb is_woken].
  unfold wait_timeout. mrun. rewrite Hrun2. mrun.
  unfold wait_reacquire.
  destruct (decide (WAIT_MORPHING = true)) as [Hm|Hm%not_true_is_false];
    rewrite Hm in Hu2 |- *.
  - unfold woken. mrun. cbn [is_woken]. mrun.
    eexists. split; [reflexivity|].
    split_and!; [by destruct Hrep2; split|done..].
  - mrun. eexists. split; [reflexivity|].
    split_and!; [by destruct Hrep2; split|done..].
Qed.

End RoundTrip.

(** ** No record is lost *)

Section Tracking.
Variable WAIT_MORPHING : bool.
Variable me : addr.

Lemma step_tracked s s' :
  inv s → step WAIT_MORPHING me s s' → tracked me s → tracked me s'.
Proof.
  intros Hinv Hstep Htr.
  destruct Hinv as (l0 & Hrep0 & Hinv0).
  assert (tracked me s →
          (me ∈ l0 → tracked me s') →
          (me ∈ pending s → tracked me s') →
          (awake me s → tracked me s') → tracked me s') as Hcases.
  { intros [(l & Hl & Hin)|[Hp|Ha]] H1 H2 H3; [|by apply H2|by apply H3].
    apply H1. by rewrite (fifo_rep_functional _ _ _ Hrep0 Hl). }
  apply Hcases; [done| | |]; clear Hcases Htr.
  all: destruct Hstep as
    [s s' wr t um l Hne Hrep Hnin Hp Hrun | s s' wr ret Hne Hrun
    | s a r l Hne Hrep Hnin Hp | s s' tr Hrun
    | s s' l r Hrep Hrun | s a r n Ha Hr | s a r Ha Hr].
  (* the record is in the FIFO *)
  - intros Hme. rewrite (fifo_rep_functional _ _ _ Hrep0 Hrep) in *.
    destruct (enqueue_inv _ _ _ _ _ _ _ (ex_intro _ l (conj Hrep Hinv0)) Hrep Hnin Hp Hrun)
      as (_ & Hrep' & _).
    left. exists (l ++ [wr]). split; [done|]. apply elem_of_app. by left.
  - intros Hme. apply list_elem_of_split in Hme as (l1 & l2 & ->).
    assert (wr ∈ l1 ++ me :: l2 ∨ wr ∉ l1 ++ me :: l2) as [Hin|Hnin]
      by (destruct (decide (wr ∈ l1 ++ me :: l2)); eauto).
    + pose proof (chain_NoDup _ _ _ (proj1 Hrep0)) as Hnd.
      apply list_elem_of_split in Hin as (k1 & k2 & Hk).
      rewrite Hk in Hrep0.
      destruct (wait_unlink_in _ _ _ _ Hrep0) as (s1 & Hrun1 & Hrep1 & _).
      rewrite Hrun1 in Hrun. injection Hrun as _ <-.
      left. exists (k1 ++ k2). split; [done|].
      assert (me ∈ k1 ++ wr :: k2) as Hme by (rewrite <- Hk; apply elem_of_app; right; left).
      apply elem_of_app in Hme as [?|[?|?]%elem_of_cons]; [| done |];
        apply elem_of_app; eauto.
    + rewrite (wait_unlink_notin _ _ _ Hrep0 Hnin) in Hrun. injection Hrun as _ <-.
      left. exists (l1 ++ me :: l2). split; [done|]. apply elem_of_app. right. left.
  - intros Hme. rewrite (fifo_rep_functional _ _ _ Hrep0 Hrep) in *.
    left. exists l. split; [|done].
    destruct Hrep as [Hc Hn]. split; sproj; [|done]. by apply lseg_insert_other.
  - intros Hme. destruct l0 as [|x l]; [by apply elem_of_nil in Hme|].
    assert (∃ m, WAIT_MORPHING = true → user_mutex s = Some m) as [m Hum].
    { destruct (user_mutex s) as [m|] eqn:Hum; [by exists m|]. exists 0. intros Hm.
      exfalso. revert Hrun. unfold wake_one_locked.
      destruct Hrep0 as [(Ho & r & Hr & Hc) _].
      mrun. rewrite Ho, bool_decide_true by done. mrun.
      destruct (bool_decide (next r = None)); mrun; rewrite Hm; mrun;
        rewrite Hum; by cbn. }
    destruct (wake_one_locked_cons WAIT_MORPHING s x l m Hrep0 Hum)
      as (s1 & rx & Hrun1 & Hrep1 & _ & Hrx & Hm1 & _ & Hp1).
    rewrite Hrun1 in Hrun. injection Hrun as <- <-.
    apply elem_of_cons in Hme as [->|Hme].
    + destruct (decide (WAIT_MORPHING = true)) as [Hm|Hm%not_true_is_false];
        rewrite Hm in Hm1 |- *.
      * right. left. sproj. apply elem_of_union. right. unfold sent, handoff.
        cbn [omap list_to_set]. apply elem_of_union. left. by apply elem_of_singleton.
      * right. right. unfold awake. sproj. by rewrite Hm1, lookup_insert_eq.
    + left. exists l. split; [by apply fifo_rep_pending|done].
  - intros Hme. rewrite (fifo_rep_functional _ _ _ Hrep0 Hrep) in *.
    right. left. sproj. apply elem_of_union. right. by apply elem_of_list_to_set.
  - intros Hme. left. exists l0. split; [|done].
    destruct Hrep0 as [Hc Hn]. split; sproj; [|done]. apply lseg_insert_other; [|done].
    intros Hin. by destruct (Hinv0 a Hin).
  - intros Hme. left. exists l0. split; [|done].
    destruct Hrep0 as [Hc Hn]. split; sproj; [|done]. apply lseg_insert_other; [|done].
    intros Hin. by destruct (Hinv0 a Hin).
  (* the wake-up of the record is on the way *)
  - intros Hme. rewrite (fifo_rep_functional _ _ _ Hrep0 Hrep) in *.
    destruct (enqueue_inv _ _ _ _ _ _ _ (ex_intro _ l (conj Hrep Hinv0)) Hrep Hnin Hp Hrun)
      as (_ & _ & Hp' & _).
    right. left. by rewrite Hp'.
  - intros Hme. destruct (wait_unlink_total s l0 wr Hrep0) as (ret' & s1 & l' & Hrun1 & _).
    right. left.
    destruct (decide (wr ∈ l0)) as [Hin|Hnin].
    + apply list_elem_of_split in Hin as (k1 & k2 & ->).
      destruct (wait_unlink_in _ _ _ _ Hrep0) as (s2 & Hrun2 & _ & _ & _ & Hp2 & _).
      rewrite Hrun2 in Hrun. injection Hrun as _ <-. by rewrite Hp2.
    + rewrite (wait_unlink_notin _ _ _ Hrep0 Hnin) in Hrun. by injection Hrun as _ <-.
  - intros Hme. right. by left.
  - intros Hme. right. left. sproj. apply elem_of_union. left.
    destruct l0 as [|x l].
    + rewrite wake_one_locked_nil in Hrun by done. by injection Hrun as <- <-.
    + destruct (wake_one_locked_Done _ _ _ _ _ _ Hrep0 Hrun) as (rx & _ & _ & _ & Hp1 & _).
      by rewrite Hp1.
  - intros Hme. right. left. sproj.
    destruct (wake_all_detach_rep WAIT_MORPHING s l Hrep) as (s1 & Hrun1 & _ & _ & _ & _ & Hp1).
    rewrite Hrun1 in Hrun. injection Hrun as _ <-. apply elem_of_union. left. by rewrite Hp1.
  - intros Hme. right. by left.
  - intros Hme. destruct (decide (a = me)) as [->|Hne].
    + right. right. unfold awake. sproj. by rewrite lookup_insert_eq.
    + right. left. sproj. apply elem_of_difference. split; [done|].
      intros ?%elem_of_singleton. done.
  (* the record is flagged woken *)
  - intros Hme. rewrite (fifo_rep_functional _ _ _ Hrep0 Hrep) in *.
    destruct (enqueue_inv _ _ _ _ _ _ _ (ex_intro _ l (conj Hrep Hinv0)) Hrep Hnin Hp Hrun)
      as (_ & _ & _ & Hw' & _).
    right. right. unfold awake. by rewrite Hw'.
  - intros Hme. right. right. unfold awake.
    destruct (decide (wr ∈ l0)) as [Hin|Hnin].
    + apply list_elem_of_split in Hin as (k1 & k2 & ->).
      destruct (wait_unlink_in _ _ _ _ Hrep0) as (s2 & Hrun2 & _ & _ & _ & _ & Hw2 & _).
      rewrite Hrun2 in Hrun. injection Hrun as _ <-. by rewrite Hw2.
    + rewrite (wait_unlink_notin _ _ _ Hrep0 Hnin) in Hrun. by injection Hrun as _ <-.
  - intros Hme. right. right. unfold awake. sproj. by rewrite lookup_insert_ne.
  - intros Hme. right. right. unfold awake. sproj.
    destruct l0 as [|x l].
    + rewrite wake_one_locked_nil in Hrun by done. by injection Hrun as <- <-.
    + destruct (wake_one_locked_Done _ _ _ _ _ _ Hrep0 Hrun) as (rx & _ & Hrx & Hm1 & _).
      rewrite Hm1. destruct WAIT_MORPHING; [done|].
      destruct (decide (x = me)) as [->|Hne].
      * by rewrite lookup_insert_eq.
      * by rewrite lookup_insert_ne.
  - intros Hme. right. right. unfold awake. sproj.
    destruct (wake_all_detach_rep WAIT_MORPHING s l Hrep) as (s1 & Hrun1 & _ & _ & Hm1 & _).
    rewrite Hrun1 in Hrun. injection Hrun as _ <-. by rewrite Hm1.
  - intros Hme. right. right. unfold awake in *. sproj.
    destruct (decide (a = me)) as [->|Hne].
    + rewrite lookup_insert_eq. simpl. rewrite Hr in Hme. done.
    + by rewrite lookup_insert_ne.
  - intros Hme. right. right. unfold awake in *. sproj.
    destruct (decide (a = me)) as [->|Hne].
    + by rewrite lookup_insert_eq.
    + by rewrite lookup_insert_ne.
Qed.

End Tracking.

Section NoLoss.
Variable WAIT_MORPHING : bool.
Variable env : nat -> state -> state.
Variable wr : addr.
Hypothesis Hrely : rely WAIT_MORPHING wr env.

(** While the waiter does not run, its record stays accounted for. *)
Lemma resume_tracked s :
  inv s → tracked wr s → inv (resume env s) ∧ tracked wr (resume env s).
Proof.
  intros Hinv Htr. unfold resume.
  assert (∀ s', rtc (step WAIT_MORPHING wr) s s' → inv s' ∧ tracked wr s') as Hrtc.
  { intros s' Hsteps. induction Hsteps as [s|s s1 s2 Hstep Hsteps IH]; [done|].
    apply IH; [by eapply step_inv|by eapply step_tracked]. }
  destruct (Hrtc _ (Hrely (now s) s)) as [Hinv' Htr']. split; [exact Hinv'|exact Htr'].
Qed.

(** After the enqueue the record is in the FIFO. *)
Lemma wait_begin_tracked current um s s' t :
  inv s → (∀ l, fifo_rep s l → wr ∉ l) → wr ∉ pending s →
  wait_begin WAIT_MORPHING env current wr um s = Done (tt, s', t) →
  inv s' ∧ ∃ l, fifo_rep s' (l ++ [wr]).
Proof.
  intros Hinv Hnin Hp Hrun.
  destruct (new_wait_record_inv s wr current Hinv Hnin Hp) as [Hinv1 Hpk1].
  unfold wait_begin, new_wait_record in Hrun. revert Hrun. mrun.
  set (s1 := with_mem _ s) in *.
  destruct (resume_stable WAIT_MORPHING env wr Hrely s1 Hinv1) as (Hinv2 & Hpk2 & _).
  specialize (Hpk2 _ Hpk1).
  destruct Hinv2 as (l & Hrep2 & Hinv2). destruct Hpk2 as (Hnin2 & Hp2 & Hwr2).
  destruct (wait_enqueue WAIT_MORPHING wr um (resume env s1)) as [[[[] s3] t3]| | | |] eqn:Henq;
    try done.
  destruct (wait_enqueue_inv WAIT_MORPHING _ _ _ _ l _ _ (ex_intro _ l (conj Hrep2 Hinv2))
              Hrep2 (Hnin2 _ Hrep2) Hp2 Hwr2 eq_refl eq_refl Henq)
    as (Hinv3 & -> & Hrep3 & _).
  mrun. intros [= <- <-]. split; [done|]. by exists l.
Qed.

(** X13: the comment of lines 84-87.  Under the protocol, when the waiter
    on the timeout path holds the internal mutex and its record is not in
    the FIFO, the search of lines 61-80 comes back with 0 and the state
    unchanged, and a signaller has taken the record: it is flagged woken, or
    its wake-up is on the way. *)
Theorem X13_dequeued_record_is_handed_off current um tmr s w s3 t :
  inv s → (∀ l, fifo_rep s l → wr ∉ l) → wr ∉ pending s →
  (wait_begin WAIT_MORPHING env current wr um ;; wait env wr tmr ;; woken env wr) s
  = Done (w, s3, t) →
  ∀ l, fifo_rep (resume env s3) l → wr ∉ l →
    wait_unlink wr (resume env s3) = Done (0%Z, resume env s3, [])
    ∧ (wr ∈ pending (resume env s3) ∨ awake wr (resume env s3)).
Proof.
  intros Hinv Hnin Hp Hrun l Hrep Hwr.
  apply bind_Done_inv in Hrun as ([] & s1 & t1 & t1' & Hbegin & Hrun & ->).
  apply bind_Done_inv in Hrun as ([] & s2 & t2 & t2' & Hwait & Hwoken & ->).
  destruct (wait_begin_tracked _ _ _ _ _ Hinv Hnin Hp Hbegin) as (Hinv1 & l1 & Hrep1).
  assert (tracked wr s1) as Htr1.
  { left. exists (l1 ++ [wr]). split; [done|]. apply elem_of_app. right. left. }
  destruct (wait_Done_raw env _ _ _ _ _ Hwait) as (-> & _ & _).
  destruct (resume_tracked _ Hinv1 Htr1) as (Hinv2 & Htr2).
  assert (s3 = resume env (resume env s1)) as ->.
  { revert Hwoken. unfold woken. mrun.
    destruct (mem (resume env (resume env s1)) !! wr) as [r|] eqn:Hr.
    - mrun. by intros [= _ <- _].
    - by rewrite (run_load_None _ _ Hr). }
  destruct (resume_tracked _ Hinv2 Htr2) as (Hinv3 & Htr3).
  destruct (resume_tracked _ Hinv3 Htr3) as (Hinv4 & Htr4).
  split; [by eapply wait_unlink_notin|].
  destruct Htr4 as [(l' & Hl' & Hin)|[?|?]]; [|by left|by right].
  by rewrite (fifo_rep_functional _ _ _ Hl' Hrep) in Hin.
Qed.

End NoLoss.

(** ** condvar_wait ends well *)

Lemma safe_unless_prepend {A} P t (r : result (A * state * list event)) :
  safe_unless P r → safe_unless P (prepend t r).
Proof. by destruct r as [[[a s] t']| | | |]. Qed.

Section Safety.
Variable WAIT_MORPHING : bool.
Variable env : nat -> state -> state.

(** X7: under the protocol condvar_wait, in both overloads, dereferences no
    null or dangling record pointer and runs into no endless list: it
    returns, or sleeps, or fails the assertion of line 45, and this only
    when another user mutex is remembered at the enqueue. *)
Theorem X7_condvar_wait_never_faults current wr um s :
  rely WAIT_MORPHING wr env →
  inv s → (∀ l, fifo_rep s l → wr ∉ l) → wr ∉ pending s →
  (WAIT_MORPHING = true → um ≠ None) →
  (∀ tmr,
     safe_unless (mutex_mismatch WAIT_MORPHING env current wr um s)
       (condvar_wait WAIT_MORPHING env current wr um tmr s))
  ∧ (∀ expiration,
       safe_unless (mutex_mismatch WAIT_MORPHING env current wr um s)
         (condvar_wait_expiration WAIT_MORPHING env current wr um expiration s)).
Proof.
  intros Hrely Hinv Hnin Hp Hum.
  assert (∀ tmr, safe_unless (mutex_mismatch WAIT_MORPHING env current wr um s)
                   (condvar_wait WAIT_MORPHING env current wr um tmr s))
    as Hwait.
  { intros tmr.
    destruct (condvar_wait_quiet WAIT_MORPHING env wr Hrely current um tmr s Hinv Hnin Hp Hum)
      as [Hq|(-> & Hab)]; [|done].
    by destruct (condvar_wait _ _ _ _ _ _ s) as [[[a s'] t']| | | |]. }
  split; [done|]. intros expiration. unfold condvar_wait_expiration.
  destruct (bool_decide (expiration ≠ 0%Z)); [|done].
  rewrite run_bind, run_emit. cbn [and_then]. apply safe_unless_prepend, Hwait.
Qed.

End Safety.

(** ** Examples: the scenarios of the spec *)

Lemma idle_rely morph me : rely morph me idle.
Proof. intros n s. apply rtc_refl. Qed.

Lemma land_step morph me a s :
  a ∈ pending s → rtc (step morph me) s (land a s).
Proof.
  intros Ha. unfold land. destruct (mem s !! a) as [r|] eqn:Hr; [|apply rtc_refl].
  apply rtc_once. by apply step_land.
Qed.

Lemma detach_one_step morph me s : rtc (step morph me) s (detach_one morph s).
Proof.
  unfold detach_one.
  destruct (wake_one_locked morph s) as [[[[] s1] tr]| | | |] eqn:Hrun;
    try apply rtc_refl.
  apply rtc_once. by apply step_wake_one.
Qed.

Lemma signal_one_rely morph me : rely morph me (signal_one morph).
Proof.
  intros n s. unfold signal_one.
  destruct (oldest s) as [x|]; [|apply detach_one_step].
  destruct (decide (x ∈ pending (detach_one morph s))) as [Hx|Hx];
    [|apply detach_one_step].
  eapply rtc_trans; [apply detach_one_step|by apply land_step].
Qed.

Lemma lost_race_rely morph me a : rely morph me (lost_race morph a).
Proof.
  intros n s. unfold lost_race.
  destruct (decide (n = 3)); [apply detach_one_step|].
  destruct (decide (n = 4)); [|apply rtc_refl].
  destruct (decide (a ∈ pending s)); [by apply land_step|apply rtc_refl].
Qed.

Lemma ex_empty_rep : fifo_rep ex_empty [].
Proof. by split. Qed.

Lemma ex_five_rep : fifo_rep ex_five [1; 2; 3; 4; 5].
Proof. split; [|reflexivity]. apply (fifo_list_chain 5). vm_compute. reflexivity. Qed.

Lemma ex_empty_inv : inv ex_empty.
Proof.
  exists []. split; [apply ex_empty_rep|]. intros a Ha. by apply elem_of_nil in Ha.
Qed.

Lemma ex_empty_fresh wr : ∀ l, fifo_rep ex_empty l → wr ∉ l.
Proof.
  intros l Hl. rewrite (fifo_rep_functional _ _ _ Hl ex_empty_rep). apply not_elem_of_nil.
Qed.

(** Scenario 1 of the spec: a single waiter, signalled. *)
Example scenario_signalled :
  ∃ s', condvar_wait true (signal_one true) 1 1 (Some 7) None ex_empty
        = Done (0%Z, s', begin_trace (Some 7) ++ [Ev_wait 1 None; Ev_receive_lock 7])
        ∧ oldest s' = None ∧ newest s' = None.
Proof. eexists. vm_compute. repeat split; reflexivity. Qed.

(** Scenario 2 of the spec: a timeout and no signal. *)
Example scenario_timed_out :
  ∃ s', condvar_wait true idle 1 1 (Some 7) (Some 10%Z) ex_empty
        = Done (ETIMEDOUT, s',
                begin_trace (Some 7) ++ [Ev_wait 1 (Some 10%Z)] ++ timeout_trace
                ++ [Ev_mutex_lock (user_m (Some 7))])
        ∧ oldest s' = None ∧ newest s' = None.
Proof. eexists. vm_compute. repeat split; reflexivity. Qed.

(** Scenario 3 of the spec: the race of the timeout against a signal, lost. *)
Example scenario_race_lost :
  ∃ s', condvar_wait true (lost_race true 1) 1 1 (Some 7) (Some 10%Z) ex_empty
        = Done (0%Z, s',
                begin_trace (Some 7) ++ [Ev_wait 1 (Some 10%Z)] ++ timeout_trace
                ++ [Ev_wait 1 None; Ev_receive_lock 7]).
Proof. eexists. vm_compute. reflexivity. Qed.

(** Without a timer and without a signal the waiter sleeps for ever. *)
Example scenario_no_signal :
  condvar_wait_expiration true idle 1 1 (Some 7) 0 ex_empty = Blocked.
Proof. vm_compute. reflexivity. Qed.

Lemma ex_five_wake_all :
  ∃ s', condvar_wake_all true ex_cpu idle ex_five
        = Done (tt, s', [Ev_mutex_lock cv_m; Ev_mutex_unlock cv_m;
                         Ev_send_lock 7 1; Ev_send_lock 7 3; Ev_send_lock 7 5;
                         Ev_send_lock 7 2; Ev_send_lock 7 4]).
Proof. eexists. vm_compute. reflexivity. Qed.

(** ** The properties at concrete states *)

Lemma C1_witness :
  (∃ s3 t s',
     (wait_begin true (lost_race true 1) 1 1 (Some 7) ;;
      wait (lost_race true 1) 1 (Some 10%Z) ;; woken (lost_race true 1) 1) ex_empty
     = Done (false, s3, t)
     ∧ condvar_wait true (lost_race true 1) 1 1 (Some 7) (Some 10%Z) ex_empty
       = Done (0%Z, s', t ++ timeout_trace ++ [Ev_wait 1 None; Ev_receive_lock 7])
     ∧ wait_timeout (lost_race true 1) 1 s3
       = prepend timeout_trace
           (and_then (wait (lost_race true 1) 1 None (resume (lost_race true 1) s3))
              (λ _, mret 0%Z))
     ∧ condvar_wait true (lost_race true 1) 1 1 (Some 7) (Some 10%Z) ex_empty
       = prepend (t ++ timeout_trace)
           (and_then (wait (lost_race true 1) 1 None (resume (lost_race true 1) s3))
              (λ _, wait_reacquire true (lost_race true 1) 1 (Some 7) ≫= λ _, mret 0%Z))
     ∧ ∀ ret s'' tr,
         condvar_wait true (lost_race true 1) 1 1 (Some 7) (Some 10%Z) ex_empty
         = Done (ret, s'', tr) →
         ret = 0%Z ∧ ret ≠ ETIMEDOUT
         ∧ ∃ s5 reacq,
             wait (lost_race true 1) 1 None (resume (lost_race true 1) s3)
             = Done (tt, s5, [Ev_wait 1 None])
             ∧ awake 1 s5
             ∧ wait_reacquire true (lost_race true 1) 1 (Some 7) s5 = Done (tt, s'', reacq)
             ∧ tr = t ++ timeout_trace ++ [Ev_wait 1 None] ++ reacq)
  ∧ (∃ s3 t,
       (wait_begin true idle 1 1 (Some 7) ;;
        wait idle 1 (Some 10%Z) ;; woken idle 1) ex_empty
       = Done (false, s3, t)
       ∧ ∃ s4,
       wait_unlink 1 (resume idle s3) = Done (ETIMEDOUT, s4, [])
       ∧ fifo_rep s4 ([] ++ [])
       ∧ wait_timeout idle 1 s3 = Done (ETIMEDOUT, s4, timeout_trace)
       ∧ condvar_wait true idle 1 1 (Some 7) (Some 10%Z) ex_empty
         = prepend (t ++ timeout_trace)
             (and_then (wait_reacquire true idle 1 (Some 7) s4) (λ _, mret ETIMEDOUT))
       ∧ ∀ ret s' tr,
           condvar_wait true idle 1 1 (Some 7) (Some 10%Z) ex_empty = Done (ret, s', tr) →
           ret = ETIMEDOUT
           ∧ ∃ reacq,
               wait_reacquire true idle 1 (Some 7) s4 = Done (tt, s', reacq)
               ∧ tr = t ++ timeout_trace ++ reacq).
Proof.
  split.
  - eexists _, _, _. split; [vm_compute; reflexivity|].
    split; [vm_compute; reflexivity|].
    eapply (proj1 (C1_timeout_race true (lost_race true 1) 1 1 (Some 7) (Some 10%Z) ex_empty
                     false _ _ [] _ _) eq_refl (not_elem_of_nil 1)).
    Unshelve.
    + vm_compute. reflexivity.
    + split; [apply (fifo_list_chain 0)|]; vm_compute; reflexivity.
  - eexists _, _. split; [vm_compute; reflexivity|].
    eapply (proj1 (proj2 (C1_timeout_race true idle 1 1 (Some 7) (Some 10%Z) ex_empty
                            false _ _ [1] _ _)) eq_refl [] [] eq_refl).
    Unshelve.
    + vm_compute. reflexivity.
    + split; [apply (fifo_list_chain 1)|]; vm_compute; reflexivity.
Defined.

Lemma C3_witness :
  well_formed ex_five
  ∧ (∃ s', (new_wait_record 6 6 ≫= λ _, wait_enqueue true 6 (Some 7)) ex_five
           = Done (tt, s', [])
           ∧ fifo_rep s' ([1; 2; 3; 4; 5] ++ [6]) ∧ well_formed s')
  ∧ (∃ s', wake_one_locked true ex_five = Done (tt, s', [handoff true 7 1])
           ∧ fifo_rep s' [2; 3; 4; 5] ∧ well_formed s')
  ∧ (∃ r s', wake_all_detach true ex_five = Done (r, s', [])
             ∧ fifo_rep s' [] ∧ well_formed s')
  ∧ (∃ s', wait_unlink 1 ex_five = Done (ETIMEDOUT, s', [])
           ∧ fifo_rep s' ([] ++ [2; 3; 4; 5]) ∧ well_formed s')
  ∧ (∃ s', wait_unlink 3 ex_five = Done (ETIMEDOUT, s', [])
           ∧ fifo_rep s' ([1; 2] ++ [4; 5]) ∧ well_formed s')
  ∧ (∃ s', wait_unlink 5 ex_five = Done (ETIMEDOUT, s', [])
           ∧ fifo_rep s' ([1; 2; 3; 4] ++ []) ∧ well_formed s')
  ∧ wait_unlink 9 ex_five = Done (0%Z, ex_five, []).
Proof.
  destruct (C3_fifo_well_formed true ex_five [1; 2; 3; 4; 5] ex_five_rep)
    as (Hwf & Henq & Hwake & Hdetach & Hunlink & Hnone).
  split; [exact Hwf|]. split.
  { apply Henq; [|right; reflexivity].
    intros Hin. apply list_elem_of_In in Hin. simpl in Hin. lia. }
  split; [apply Hwake; reflexivity|]. split; [exact Hdetach|].
  split; [apply (Hunlink [] 1 [2; 3; 4; 5]); reflexivity|].
  split; [apply (Hunlink [1; 2] 3 [4; 5]); reflexivity|].
  split; [apply (Hunlink [1; 2; 3; 4] 5 []); reflexivity|].
  apply Hnone. intros Hin. apply list_elem_of_In in Hin. simpl in Hin. lia.
Defined.

Lemma C4_witness :
  ∃ s' order,
    condvar_wake_all true ex_cpu idle ex_five
    = Done (tt, s', [Ev_mutex_lock cv_m; Ev_mutex_unlock cv_m]
                    ++ map (handoff true 7) order)
    ∧ order ≡ₚ [1; 2; 3; 4; 5] ∧ NoDup order
    ∧ (true = false → order = [1; 2; 3; 4; 5])
    ∧ fifo_rep s' [].
Proof.
  apply (C4_wake_all_exactly_once true ex_cpu idle ex_five [1; 2; 3; 4; 5] 7).
  - simpl. discriminate.
  - split; [|reflexivity]. apply (fifo_list_chain 5). vm_compute. reflexivity.
  - intros _ _. reflexivity.
Defined.

Lemma C5_witness :
  ∃ s', condvar_wake_one true idle ex_five
        = Done (tt, s', [Ev_mutex_lock cv_m; handoff true 7 1; Ev_mutex_unlock cv_m])
        ∧ fifo_rep s' [2; 3; 4; 5].
Proof.
  apply (proj2 (C5_wake_one_oldest true idle ex_five [1; 2; 3; 4; 5]
                  ltac:(split; [apply (fifo_list_chain 5); vm_compute|]; reflexivity))).
  - simpl. discriminate.
  - intros _. reflexivity.
Defined.

Lemma C6_witness :
  ∃ s' tr,
    condvar_wait true (signal_one true) 1 1 (Some 7) None ex_empty = Done (0%Z, s', tr)
    ∧ holds_user_mutex (Some 7) 1 s' tr
    ∧ ((0%Z = 0%Z ∧ awake 1 s'
        ∧ ∃ m, Some 7 = Some m ∧ reacquisitions tr = [by_receive_lock m]
               ∧ last tr = Some (Ev_receive_lock m))
       ∨ (0%Z = ETIMEDOUT ∧ ¬ awake 1 s'
          ∧ reacquisitions tr = [by_mutex_lock (Some 7)]
          ∧ last tr = Some (Ev_mutex_lock (user_m (Some 7))))).
Proof.
  eexists _, _. split; [vm_compute; reflexivity|].
  apply (C6_reacquire_once true (signal_one true) 1 1 (Some 7) None ex_empty).
  - apply signal_one_rely.
  - apply ex_empty_inv.
  - apply ex_empty_fresh.
  - apply not_elem_of_empty.
  - vm_compute. reflexivity.
Defined.

Lemma C7_witness :
  wait_begin true idle 2 2 (Some 8) ex_one = Abort
  ∧ condvar_wait true idle 2 2 (Some 8) None ex_one = Abort.
Proof.
  apply (proj1 (C7_assert_same_user_mutex true idle 2 2 (Some 8) None ex_one [1]
                  (WaitRecord 2 None false) eq_refl
                  ltac:(split; [apply (fifo_list_chain 1)|]; reflexivity)
                  ltac:(intros Hin; apply list_elem_of_singleton in Hin; discriminate)
                  eq_refl eq_refl) 7); [reflexivity|discriminate].
Defined.

Lemma C8_witness :
  ∃ s1 s2,
    wait_begin true idle 1 1 (Some 7) ex_empty = Done (tt, s1, begin_trace (Some 7))
    ∧ fifo_rep s1 [1]
    ∧ condvar_wake_one true idle s1
      = Done (tt, s2, [Ev_mutex_lock cv_m; handoff true 7 1; Ev_mutex_unlock cv_m])
    ∧ oldest s2 = None ∧ newest s2 = None.
Proof.
  apply (C8_enqueue_wake_one_empty true idle 1 1 (Some 7) 7 ex_empty ex_empty_rep).
  intros _. split; [reflexivity|left; reflexivity].
Defined.

Lemma C9_witness :
  ∃ s' tr,
    condvar_wait_expiration true (signal_one true) 1 1 (Some 7) 0 ex_empty
    = Done (0%Z, s', tr)
    ∧ 0%Z = 0%Z ∧ 0%Z ≠ ETIMEDOUT
    ∧ ∃ reacq, tr = begin_trace (Some 7) ++ [Ev_wait 1 None] ++ reacq
               ∧ length reacq = 1.
Proof.
  eexists _, _. split; [vm_compute; reflexivity|].
  eapply (proj2 (proj1 (C9_expiration_zero true (signal_one true) 1 1 (Some 7) 0 ex_empty
                         (signal_one_rely true 1) ex_empty_inv (ex_empty_fresh 1)
                         (not_elem_of_empty 1)) eq_refl)).
  vm_compute. reflexivity.
Defined.

Lemma C10_witness :
  ∃ s' t, wake_one_locked true ex_five = Done (tt, s', t)
          ∧ fifo_rep s' (tail [1; 2; 3; 4; 5]) ∧ mutex_known s'.
Proof.
  apply (C10_user_mutex_known true ex_five [1; 2; 3; 4; 5] eq_refl ex_five_rep).
  intros _. discriminate.
Defined.

(** C2: the timeout path does not clear the remembered user mutex when it
    unlinks the last record: after the only waiter, on mutex 7, has timed
    out, the FIFO is empty and mutex 7 is still remembered, and the next
    wait, on mutex 8, fails the assertion although no waiter is left. *)
Lemma C2_timeout_keeps_user_mutex :
  ∃ s', wait_timeout idle 1 ex_one = Done (ETIMEDOUT, s', timeout_trace)
        ∧ oldest s' = None ∧ newest s' = None
        ∧ user_mutex s' = Some 7
        ∧ wait_begin true idle 2 2 (Some 8) s' = Abort.
Proof. eexists. vm_compute. repeat split; reflexivity. Qed.

(** ** Further properties at concrete states *)

Lemma ex_five_resumed : fifo_rep (resume idle ex_five) [1; 2; 3; 4; 5].
Proof. split; [|reflexivity]. apply (fifo_list_chain 5). vm_compute. reflexivity. Qed.

Lemma ex_five_fresh : 6 ∉ [1; 2; 3; 4; 5].
Proof. intros Hin. apply list_elem_of_In in Hin. simpl in Hin. lia. Qed.

Lemma X1_witness :
  ∃ s',
    condvar_wake_all true ex_cpu idle ex_five
    = Done (tt, s',
            [Ev_mutex_lock cv_m; Ev_mutex_unlock cv_m]
            ++ map (Ev_send_lock 7)
                 (affinity_order (length [1; 2; 3; 4; 5])
                    (λ x, thread_of (mem (resume idle ex_five)) x mod 2)
                    [1; 2; 3; 4; 5]))
    ∧ fifo_rep s' [].
Proof.
  apply (X1_wake_all_affinity_order ex_cpu idle (λ t, t mod 2) ex_five [1; 2; 3; 4; 5] 7).
  - reflexivity.
  - simpl. discriminate.
  - apply ex_five_resumed.
  - intros _. reflexivity.
Defined.

Lemma X2_witness :
  ∃ s' order,
    condvar_wake_all true ex_cpu idle ex_five
    = Done (tt, s',
            [Ev_mutex_lock cv_m; Ev_mutex_unlock cv_m] ++ map (Ev_send_lock 7) order)
    ∧ head order = head [1; 2; 3; 4; 5]
    ∧ ∀ k, filter (λ x, thread_of (mem (resume idle ex_five)) x mod 2 = k) order
           = filter (λ x, thread_of (mem (resume idle ex_five)) x mod 2 = k)
               [1; 2; 3; 4; 5].
Proof.
  apply (X2_wake_all_per_cpu_fifo ex_cpu idle (λ t, t mod 2) ex_five [1; 2; 3; 4; 5] 7).
  - reflexivity.
  - simpl. discriminate.
  - apply ex_five_resumed.
  - intros _. reflexivity.
Defined.

Lemma X3_witness :
  ∃ p u s1 s2 s3 order,
    wake_all_detach true ex_five = Done ((p, u), s1, [])
    ∧ (new_wait_record 6 6 ≫= λ _, wait_enqueue true 6 (Some 8)) s1 = Done (tt, s2, [])
    ∧ wake_all_walk true ex_cpu (S (size (mem s1))) u p s2
      = Done (tt, s3, map (handoff true 7) order)
    ∧ order ≡ₚ [1; 2; 3; 4; 5] ∧ (6 ∉ order)
    ∧ fifo_rep s3 [6]
    ∧ mem s3 !! 6 = Some (WaitRecord 6 None false).
Proof.
  apply (X3_wake_all_late_arrival true ex_cpu ex_five [1; 2; 3; 4; 5] 7 6 6 (Some 8)).
  - apply ex_five_rep.
  - apply ex_five_fresh.
  - intros _ _. reflexivity.
Defined.

Lemma X4_witness :
  ∃ s' tr,
    condvar_wake_all false ex_cpu idle ex_five = Done (tt, s', tr)
    ∧ (∀ a, a ∉ [1; 2; 3; 4; 5] → mem s' !! a = mem (resume idle ex_five) !! a)
    ∧ (∀ a, a ∈ [1; 2; 3; 4; 5] →
         mem s' !! a = flagged <$> mem (resume idle ex_five) !! a).
Proof.
  apply (X4_wake_all_records false ex_cpu idle ex_five [1; 2; 3; 4; 5] 7).
  - simpl. discriminate.
  - apply ex_five_resumed.
  - discriminate.
Defined.

Lemma X5_witness :
  ∃ s',
    condvar_wait true idle 6 6 (Some 7) (Some 10%Z) ex_five
    = Done (ETIMEDOUT, s',
            begin_trace (Some 7) ++ [Ev_wait 6 (Some 10%Z)] ++ timeout_trace
            ++ [Ev_mutex_lock (user_m (Some 7))])
    ∧ fifo_rep s' [1; 2; 3; 4; 5]
    ∧ oldest s' = oldest ex_five ∧ newest s' = newest ex_five
    ∧ mem s' = <[6 := WaitRecord 6 None false]> (mem ex_five)
    ∧ user_mutex s' = Some 7
    ∧ pending s' = pending ex_five.
Proof.
  apply (X5_timed_out_wait_round_trip true 6 6 (Some 7) 10%Z ex_five [1; 2; 3; 4; 5]).
  - apply ex_five_rep.
  - apply ex_five_fresh.
  - intros _. right. reflexivity.
Defined.

Lemma X6_witness :
  ∃ s' tr,
    condvar_wait true (lost_race true 1) 1 1 (Some 7) (Some 10%Z) ex_empty
    = Done (0%Z, s', tr)
    ∧ cv_track (false, false) tr = Some (false, false).
Proof.
  eexists _, _. split; [vm_compute; reflexivity|].
  eapply (proj1 (X6_lock_discipline true ex_cpu (lost_race true 1))
            1 1 (Some 7) (Some 10%Z) ex_empty 0%Z).
  vm_compute. reflexivity.
Defined.

Lemma X7_witness :
  (∀ tmr,
     safe_unless (mutex_mismatch true (signal_one true) 1 1 (Some 7) ex_empty)
       (condvar_wait true (signal_one true) 1 1 (Some 7) tmr ex_empty))
  ∧ (∀ expiration,
       safe_unless (mutex_mismatch true (signal_one true) 1 1 (Some 7) ex_empty)
         (condvar_wait_expiration true (signal_one true) 1 1 (Some 7) expiration ex_empty)).
Proof.
  apply (X7_condvar_wait_never_faults true (signal_one true) 1 1 (Some 7) ex_empty).
  - apply signal_one_rely.
  - apply ex_empty_inv.
  - apply ex_empty_fresh.
  - apply not_elem_of_empty.
  - discriminate.
Defined.

Lemma X8_witness :
  (condvar_wake_one true idle ex_stale = Done (tt, ex_stale, [])
   ∧ condvar_wake_all true ex_cpu idle ex_stale = Done (tt, ex_stale, []))
  ∧ user_mutex ex_stale = Some 7
  ∧ (∃ s' tr,
       condvar_wake_one true idle ex_five = Done (tt, s', tr)
       ∧ user_mutex s' = Some 7)
  ∧ (∃ s' tr,
       condvar_wake_all true ex_cpu idle ex_five = Done (tt, s', tr)
       ∧ user_mutex s' = None)
  ∧ (∃ s' tr,
       condvar_wake_one true idle ex_one = Done (tt, s', tr)
       ∧ user_mutex s' = None).
Proof.
  split; [apply (proj1 (X8_signal_user_mutex true ex_cpu idle ex_stale 7)); reflexivity|].
  split; [reflexivity|].
  destruct (proj2 (X8_signal_user_mutex true ex_cpu idle ex_five 7) ltac:(simpl; discriminate)
              [1; 2; 3; 4; 5] ex_five_resumed ltac:(intros _ _; reflexivity))
    as [Hone Hall].
  split; [exact Hone|]. split; [exact Hall|].
  apply (proj2 (X8_signal_user_mutex true ex_cpu idle ex_one 7) ltac:(simpl; discriminate) [1]).
  - split; [apply (fifo_list_chain 1)|]; reflexivity.
  - intros _ _. reflexivity.
Defined.

Lemma X9_witness :
  ∃ s',
    calls 2 (condvar_wake_one true idle) ex_five
    = Done (tt, s', concat (map (wake_one_trace true 7) (take 2 [1; 2; 3; 4; 5])))
    ∧ fifo_rep s' (drop 2 [1; 2; 3; 4; 5]).
Proof.
  apply (X9_wake_one_fifo_order true 7 2 ex_five [1; 2; 3; 4; 5]).
  - apply ex_five_rep.
  - intros _ _. reflexivity.
Defined.

Lemma X10_witness :
  ∃ s1 s2,
    wait_timeout idle 1 ex_five = Done (ETIMEDOUT, s1, timeout_trace)
    ∧ condvar_wake_one true idle s1 = Done (tt, s2, wake_one_trace true 7 2)
    ∧ 2 ≠ 1
    ∧ fifo_rep s2 [3; 4; 5].
Proof.
  apply (X10_signal_after_timeout true ex_five [] 1 [2; 3; 4; 5] 2 [3; 4; 5] 7).
  - apply ex_five_rep.
  - reflexivity.
  - intros _. reflexivity.
Defined.

Lemma X11_witness :
  ∃ s' tr,
    condvar_wake_all true ex_cpu idle ex_five = Done (tt, s', tr)
    ∧ oldest s' = None ∧ newest s' = None
    ∧ condvar_wake_all true ex_cpu idle s' = Done (tt, s', [])
    ∧ condvar_wake_one true idle s' = Done (tt, s', []).
Proof.
  apply (X11_wake_all_then_signal true ex_cpu idle ex_five [1; 2; 3; 4; 5] 7).
  - simpl. discriminate.
  - apply ex_five_resumed.
  - intros _ _. reflexivity.
Defined.

Lemma X12_witness :
  ∃ s',
    wait_unlink 3 ex_five = Done (ETIMEDOUT, s', [])
    ∧ same_waiters (mem ex_five) (mem s').
Proof.
  eexists. split; [vm_compute; reflexivity|].
  eapply (proj1 (proj2 (X12_critical_sections_write_links_only ex_cpu))
            3 ex_five ETIMEDOUT _ []).
  vm_compute. reflexivity.
Defined.

Lemma X13_witness :
  ∃ s3 t,
    (wait_begin true (lost_race true 1) 1 1 (Some 7) ;;
     wait (lost_race true 1) 1 (Some 10%Z) ;; woken (lost_race true 1) 1) ex_empty
    = Done (false, s3, t)
    ∧ wait_unlink 1 (resume (lost_race true 1) s3)
      = Done (0%Z, resume (lost_race true 1) s3, [])
    ∧ (1 ∈ pending (resume (lost_race true 1) s3)
       ∨ awake 1 (resume (lost_race true 1) s3)).
Proof.
  eexists _, _. split; [vm_compute; reflexivity|].
  eapply (X13_dequeued_record_is_handed_off true (lost_race true 1) 1
            (lost_race_rely true 1 1) 1 (Some 7) (Some 10%Z) ex_empty false _ _
            ex_empty_inv (ex_empty_fresh 1) (not_elem_of_empty 1)).
  - vm_compute. reflexivity.
  - split; [apply (fifo_list_chain 0)|]; vm_compute; reflexivity.
  - apply not_elem_of_nil.
Defined.
